(** * skewer: transport and reliability engine, checked against its specification

    A shallow embedding of the Go sources of the collector (ring buffers,
    int queues, TCP framing, binder, configuration provider, serve child,
    HTTP and TCP destinations, direct RELP response writer) together with
    the properties the specification states about them.

    Conventions.
    - A [uint64] is a [Z] in [0, 2^64); every arithmetic operation of the
      source is followed by [u64], its wrap-around.
    - An [int32] is a [Z]; the value [-1] is the "nothing" marker of the int
      queue, as in the source.
    - A Go [map] is a [gmap]; a byte slice is a [list byte] (Go's [nil] slice
      and the empty slice are both the empty list: the code only ever tests
      [len]).
    - A goroutine that loops on channels or queues is a step function over
      the sequence of events it receives; blocking loops carry fuel and
      answer [Blocked] when it runs out.
    - A runtime panic of Go (index or slice bounds out of range) is an
      explicit [Panic]/[Panicked] result. *)

From Stdlib Require Import ZArith List Lia Bool.
From Stdlib Require Import Strings.Byte Strings.Ascii Strings.String.
From Stdlib Require Import DecimalString.
From stdpp Require Import base gmap strings list sorting.
Import ListNotations.

Local Open Scope Z_scope.

Abbreviation byte := Byte.byte.

(** ** Machine integers *)

Definition u64 (z : Z) : Z := z mod 2 ^ 64.

(** An [int] of Go on a 64-bit platform, with its wrap-around. *)
Definition i64 (z : Z) : Z := (z + 2 ^ 63) mod 2 ^ 64 - 2 ^ 63.

(** Errors of package [utils] / [queue] that the modelled code returns. *)
Inductive error : Type :=
| ErrDisposed
| ErrTimeout.

(** Control outcome of one pass through a [for { ... }] loop body. *)
Inductive loop (S R : Type) : Type :=
| Break (s : S) (pos : Z)
| Return (r : R)
| Again (pos : Z)
| Panic.
Arguments Break {S R} s pos.
Arguments Return {S R} r.
Arguments Again {S R} pos.
Arguments Panic {S R}.

(** Outcome of a whole blocking call, run with fuel. *)
Inductive outcome (S R : Type) : Type :=
| Done (s : S) (r : R)
| Panicked
| Blocked.
Arguments Done {S R} s r.
Arguments Panicked {S R}.
Arguments Blocked {S R}.

(** ** utils/queue/rawtcp.go: the bounded MPMC ring *)

Module Ring.
Section WithItem.

(** [T] stands for [model.RawTcpMessage]; an item is a pointer to it, hence
    an [option T]. *)
Context {T : Type}.

Record rawtcpnode : Type := mkNode {
  position : Z;
  data : option T
}.

Record RawTCPRing : Type := mkRing {
  queue : Z;
  dequeue : Z;
  mask : Z;
  disposed : Z;
  nodes : list rawtcpnode
}.

Definition set_queue (rb : RawTCPRing) (v : Z) : RawTCPRing :=
  mkRing v (dequeue rb) (mask rb) (disposed rb) (nodes rb).
Definition set_dequeue (rb : RawTCPRing) (v : Z) : RawTCPRing :=
  mkRing (queue rb) v (mask rb) (disposed rb) (nodes rb).
Definition set_disposed (rb : RawTCPRing) (v : Z) : RawTCPRing :=
  mkRing (queue rb) (dequeue rb) (mask rb) v (nodes rb).
Definition set_node (rb : RawTCPRing) (i : nat) (n : rawtcpnode) : RawTCPRing :=
  mkRing (queue rb) (dequeue rb) (mask rb) (disposed rb) (<[i := n]> (nodes rb)).

(** Modelled from the spec: [roundUp] is called by [init] but declared in
    another file of package [queue], which is not embedded here.  The
    specification sizes the ring "to the next power of two ≥ requested
    capacity": the least power of two that is not below [v], found by
    doubling, truncated to 64 bits like every [uint64]. *)
Fixpoint roundUp_from (fuel : nat) (p v : Z) : Z :=
  match fuel with
  | O => p
  | S fuel' => if v <=? p then p else roundUp_from fuel' (2 * p) v
  end.

Definition roundUp (v : Z) : Z := u64 (roundUp_from 64 1 v).

(** [func (rb *RawTCPRing) init(size uint64)], on the zero value of the
    struct as [NewRawTCPRing] calls it. *)
Definition init (size : Z) : RawTCPRing :=
  let size := roundUp size in
  {| queue := 0;
     dequeue := 0;
     mask := u64 (size - 1);
     disposed := 0;
     nodes := map (fun i : nat => mkNode (Z.of_nat i) None)
                  (seq 0 (Z.to_nat size)) |}.

Definition NewRawTCPRing (size : Z) : RawTCPRing := init size.

Definition slot (rb : RawTCPRing) (pos : Z) : nat :=
  Z.to_nat (Z.land pos (mask rb)).

(** One pass through the loop [L] of [put].  [pos] is the local copy of
    [rb.queue]; the compare-and-swap on [rb.queue] is the state change of
    [Break].  The [dif < 0] case of the source compares an unsigned
    difference and is kept as written. *)
Definition put_iter (rb : RawTCPRing) (pos : Z) (offer : bool)
  : loop RawTCPRing (bool * option error) :=
  if disposed rb =? 1 then Return (false, Some ErrDisposed)
  else
    match nodes rb !! slot rb pos with
    | None => Panic
    | Some n =>
        let dif := u64 (position n - pos) in
        if dif =? 0 then
          if queue rb =? pos then Break (set_queue rb (u64 (pos + 1))) pos
          else if offer then Return (false, None) else Again pos
        else if dif <? 0 then Panic
        else if offer then Return (false, None) else Again (queue rb)
    end.

(** [put]: the loop, then the write of the item and of the new sequence
    number into the node.  The back-off ([Gosched], [Sleep]) does not touch
    the ring and is not represented. *)
Fixpoint put_loop (fuel : nat) (rb : RawTCPRing) (pos : Z) (item : option T)
    (offer : bool) : outcome RawTCPRing (bool * option error) :=
  match fuel with
  | O => Blocked
  | S fuel' =>
      match put_iter rb pos offer with
      | Break rb' pos' =>
          Done (set_node rb' (slot rb' pos') (mkNode (u64 (pos' + 1)) item))
               (true, None)
      | Return r => Done rb r
      | Again pos' => put_loop fuel' rb pos' item offer
      | Panic => Panicked
      end
  end.

Definition put (fuel : nat) (rb : RawTCPRing) (item : option T) (offer : bool)
  : outcome RawTCPRing (bool * option error) :=
  put_loop fuel rb (queue rb) item offer.

Definition Put (fuel : nat) (rb : RawTCPRing) (item : option T)
  : outcome RawTCPRing (option error) :=
  match put fuel rb item false with
  | Done rb' (_, err) => Done rb' err
  | Panicked => Panicked
  | Blocked => Blocked
  end.

Definition Offer (fuel : nat) (rb : RawTCPRing) (item : option T)
  : outcome RawTCPRing (bool * option error) :=
  put fuel rb item true.

(** One pass through the loop [L] of [Poll].  [since] is the reading of
    [time.Since(start)] taken in this pass. *)
Definition poll_wait (rb : RawTCPRing) (pos' timeout since : Z)
  : loop RawTCPRing (option T * option error) :=
  if (0 <? timeout) && (timeout <=? since) then Return (None, Some ErrTimeout)
  else if disposed rb =? 1 then Return (None, Some ErrDisposed)
  else Again pos'.

Definition poll_iter (rb : RawTCPRing) (pos timeout since : Z)
  : loop RawTCPRing (option T * option error) :=
  match nodes rb !! slot rb pos with
  | None => Panic
  | Some n =>
      let dif := u64 (position n - u64 (pos + 1)) in
      if dif =? 0 then
        if dequeue rb =? pos then Break (set_dequeue rb (u64 (pos + 1))) pos
        else poll_wait rb pos timeout since
      else if dif <? 0 then Panic
      else poll_wait rb (dequeue rb) timeout since
  end.

(** [Poll]: [clock nb] is what [time.Since(start)] reads in pass number
    [nb] of the loop. *)
Fixpoint poll_loop (fuel : nat) (rb : RawTCPRing) (pos timeout : Z)
    (clock : nat -> Z) (nb : nat)
  : outcome RawTCPRing (option T * option error) :=
  match fuel with
  | O => Blocked
  | S fuel' =>
      match poll_iter rb pos timeout (clock nb) with
      | Break rb' pos' =>
          match nodes rb' !! slot rb' pos' with
          | None => Panicked
          | Some n =>
              Done (set_node rb' (slot rb' pos')
                      (mkNode (u64 (pos' + mask rb' + 1)) None))
                   (data n, None)
          end
      | Return r => Done rb r
      | Again pos' => poll_loop fuel' rb pos' timeout clock (S nb)
      | Panic => Panicked
      end
  end.

Definition Poll (fuel : nat) (rb : RawTCPRing) (timeout : Z) (clock : nat -> Z)
  : outcome RawTCPRing (option T * option error) :=
  poll_loop fuel rb (dequeue rb) timeout clock 0.

Definition Get (fuel : nat) (rb : RawTCPRing)
  : outcome RawTCPRing (option T * option error) :=
  Poll fuel rb 0 (fun _ => 0).

Definition Len (rb : RawTCPRing) : Z := u64 (queue rb - dequeue rb).

Definition Cap (rb : RawTCPRing) : Z := Z.of_nat (length (nodes rb)).

(** [atomic.CompareAndSwapUint64(&rb.disposed, 0, 1)] *)
Definition Dispose (rb : RawTCPRing) : RawTCPRing :=
  if disposed rb =? 0 then set_disposed rb 1 else rb.

Definition IsDisposed (rb : RawTCPRing) : bool := disposed rb =? 1.

(** The ring after [put] has won the slot of [queue rb] and written the
    item, and after [Poll] has won the slot of [dequeue rb] and emptied
    it. *)
Definition put_done (rb : RawTCPRing) (item : option T) : RawTCPRing :=
  set_node (set_queue rb (u64 (queue rb + 1))) (slot rb (queue rb))
           (mkNode (u64 (queue rb + 1)) item).

Definition poll_done (rb : RawTCPRing) : RawTCPRing :=
  set_node (set_dequeue rb (u64 (dequeue rb + 1))) (slot rb (dequeue rb))
           (mkNode (u64 (dequeue rb + mask rb + 1)) None).

(** What a waiting [Poll] answers on a disposed ring. *)
Definition woken (timeout since : Z) : error :=
  if (0 <? timeout) && (timeout <=? since) then ErrTimeout else ErrDisposed.

(** The capacity is a power of two that fits a [uint64] index, and [mask]
    is that power minus one. *)
Definition sized (rb : RawTCPRing) : Prop :=
  ∃ e : Z, 0 <= e <= 63 ∧ Cap rb = 2 ^ e ∧ mask rb = 2 ^ e - 1.

(** The sequence number the node of the [k]-th position after [dequeue]
    holds: one more than the position when an item waits there. *)
Definition expected (rb : RawTCPRing) (k : Z) : Z :=
  u64 (dequeue rb + k + (if k <? Len rb then 1 else 0)).

(** The nodes carry the sequence numbers of a ring that holds [Len rb]
    items from position [dequeue rb] on. *)
Definition sequenced (rb : RawTCPRing) : Prop :=
  0 <= queue rb < 2 ^ 64
  ∧ 0 <= dequeue rb < 2 ^ 64
  ∧ Len rb <= Cap rb
  ∧ ∀ k, 0 <= k < Cap rb →
         position <$> (nodes rb !! slot rb (u64 (dequeue rb + k)))
         = Some (expected rb k).

Definition wf (rb : RawTCPRing) : Prop := sized rb ∧ sequenced rb.

(** The item in the node of the [k]-th position after [dequeue], and the
    items that wait in the ring, oldest first. *)
Definition item_at (rb : RawTCPRing) (k : Z) : option T :=
  match nodes rb !! slot rb (u64 (dequeue rb + k)) with
  | Some n => data n
  | None => None
  end.

Definition contents (rb : RawTCPRing) : list (option T) :=
  map (fun k : nat => item_at rb (Z.of_nat k)) (seq 0 (Z.to_nat (Len rb))).

(** A sequential client of the ring: the calls of the public interface, one
    after the other.  A call that would wait for ever (no other goroutine
    runs in between) or that panics leaves the ring as it found it. *)
Inductive call : Type :=
| CallPut (item : option T)
| CallOffer (item : option T)
| CallGet
| CallPoll (timeout : Z) (clock : nat -> Z)
| CallDispose.

Definition ring_of {R : Type} (rb : RawTCPRing) (o : outcome RawTCPRing R)
  : RawTCPRing :=
  match o with
  | Done rb' _ => rb'
  | _ => rb
  end.

Definition run_call (fuel : nat) (rb : RawTCPRing) (c : call) : RawTCPRing :=
  match c with
  | CallPut item => ring_of rb (Put fuel rb item)
  | CallOffer item => ring_of rb (Offer fuel rb item)
  | CallGet => ring_of rb (Get fuel rb)
  | CallPoll timeout clock => ring_of rb (Poll fuel rb timeout clock)
  | CallDispose => Dispose rb
  end.

Definition run_calls (fuel : nat) (rb : RawTCPRing) (cs : list call)
  : RawTCPRing :=
  fold_left (run_call fuel) cs rb.

End WithItem.
Arguments rawtcpnode : clear implicits.
Arguments RawTCPRing : clear implicits.
Arguments call : clear implicits.
End Ring.

(** ** utils/queue/int.go: the queue of transaction numbers *)

Module IntQueue.

(** The linked list between [tail.next] and [head] is the list [items],
    oldest first; [disposed] is the flag ([1] is [true]). *)
Record IntQueue : Type := mkQ {
  items : list Z;
  disposed : bool
}.

Definition NewIntQueue : IntQueue := mkQ [] false.

Definition Disposed (q : IntQueue) : bool := disposed q.

Definition Dispose (q : IntQueue) : IntQueue := mkQ (items q) true.

Definition Get (q : IntQueue) : IntQueue * Z * option error :=
  if Disposed q then (q, -1, Some ErrDisposed)
  else match items q with
       | next :: rest => (mkQ rest (disposed q), next, None)
       | [] => (q, -1, None)
       end.

Definition Peek (q : IntQueue) : Z * option error :=
  if Disposed q then (-1, Some ErrDisposed)
  else match items q with
       | next :: _ => (next, None)
       | [] => (-1, None)
       end.

Definition Put (q : IntQueue) (uid : Z) : IntQueue * option error :=
  if Disposed q then (q, Some ErrDisposed)
  else (mkQ (items q ++ [uid]) (disposed q), None).

Definition Has (q : IntQueue) : bool :=
  match items q with
  | [] => false
  | _ :: _ => true
  end.

(** [WaitOne]: [None] when the caller keeps waiting (neither queue is
    disposed and both are empty). *)
Definition WaitOne (q1 q2 : IntQueue) : option bool :=
  if Disposed q1 || Disposed q2 then Some false
  else if Has q1 || Has q2 then Some true
  else None.

(** [Wait]: [None] when the caller keeps waiting. *)
Definition Wait (q : IntQueue) : option bool :=
  if Has q then Some true
  else if Disposed q then Some false
  else None.

End IntQueue.

(** ** utils/queue/int.go: the linked list of the queue *)

Module LinkedIntQueue.

(** An [intNode]; a pointer to a node is its address in the heap, [nil]
    is [None]. *)
Record intNode : Type := mkNode {
  next : option nat;
  uid : Z
}.

(** The nodes allocated so far (as many as [allocated]), the fields
    [head], [tail] and [disposed] of the queue, and the nodes that
    [pool] holds. *)
Record IntQueue : Type := mkQ {
  heap : gmap nat intNode;
  head : nat;
  tail : nat;
  disposed : Z;
  pool : list nat;
  allocated : nat
}.

(** [&intNode{}] *)
Definition new_node (q : IntQueue) : IntQueue * nat :=
  (mkQ (<[allocated q := mkNode None 0]> (heap q)) (head q) (tail q)
       (disposed q) (pool q) (S (allocated q)),
   allocated q).

Definition NewIntQueue : IntQueue :=
  mkQ {[ 0%nat := mkNode None 0 ]} 0 0 0 [] 1.

(** [q.pool.Get()]: [sync.Pool] hands back one of the nodes it holds
    ([choice] is its place among them) or makes a new one. *)
Definition pool_Get (q : IntQueue) (choice : option nat) : IntQueue * nat :=
  match choice with
  | Some i =>
      match pool q !! i with
      | Some n =>
          (mkQ (heap q) (head q) (tail q) (disposed q)
               (take i (pool q) ++ drop (S i) (pool q)) (allocated q), n)
      | None => new_node q
      end
  | None => new_node q
  end.

Definition Disposed (q : IntQueue) : bool := disposed q =? 1.

Definition Dispose (q : IntQueue) : IntQueue :=
  mkQ (heap q) (head q) (tail q) 1 (pool q) (allocated q).

(** In the four functions below [None] is the dereference of a pointer
    that is [nil] or not in the heap. *)
Definition Get (q : IntQueue) : option (IntQueue * Z * option error) :=
  if Disposed q then Some (q, -1, Some ErrDisposed)
  else
    match heap q !! tail q with
    | None => None
    | Some t =>
        match next t with
        | Some nx =>
            match heap q !! nx with
            | None => None
            | Some n =>
                Some (mkQ (<[tail q := mkNode (next t) (uid n)]> (heap q))
                          (head q) nx (disposed q) (tail q :: pool q)
                          (allocated q),
                      uid n, None)
            end
        | None => Some (q, -1, None)
        end
    end.

Definition Peek (q : IntQueue) : option (Z * option error) :=
  if Disposed q then Some (-1, Some ErrDisposed)
  else
    match heap q !! tail q with
    | None => None
    | Some t =>
        match next t with
        | Some nx =>
            match heap q !! nx with
            | None => None
            | Some n => Some (uid n, None)
            end
        | None => Some (-1, None)
        end
    end.

Definition Put (q : IntQueue) (u : Z) (choice : option nat)
  : option (IntQueue * option error) :=
  if Disposed q then Some (q, Some ErrDisposed)
  else
    let '(q, n) := pool_Get q choice in
    let h := <[n := mkNode None u]> (heap q) in
    match h !! head q with
    | None => None
    | Some old =>
        Some (mkQ (<[head q := mkNode (Some n) (uid old)]> h) n (tail q)
                  (disposed q) (pool q) (allocated q),
              None)
    end.

Definition Has (q : IntQueue) : option bool :=
  match heap q !! tail q with
  | None => None
  | Some t => Some (bool_decide (is_Some (next t)))
  end.

(** The calls of the interface and what they answer; [Waits] is a call
    of [Wait] that does not return. *)
Inductive call : Type :=
| CallPut (u : Z) (choice : option nat)
| CallGet
| CallPeek
| CallHas
| CallWait
| CallDisposed
| CallDispose.

Inductive answer : Type :=
| Err (e : option error)
| Int (v : Z) (e : option error)
| Bool (b : bool)
| Waits
| Returns.

Definition run_call (q : IntQueue) (c : call) : option (IntQueue * answer) :=
  match c with
  | CallPut u choice =>
      match Put q u choice with
      | Some (q', e) => Some (q', Err e)
      | None => None
      end
  | CallGet =>
      match Get q with
      | Some (q', v, e) => Some (q', Int v e)
      | None => None
      end
  | CallPeek =>
      match Peek q with
      | Some (v, e) => Some (q, Int v e)
      | None => None
      end
  | CallHas =>
      match Has q with
      | Some b => Some (q, Bool b)
      | None => None
      end
  | CallWait =>
      match Has q with
      | Some true => Some (q, Bool true)
      | Some false => Some (q, if Disposed q then Bool false else Waits)
      | None => None
      end
  | CallDisposed => Some (q, Bool (Disposed q))
  | CallDispose => Some (Dispose q, Returns)
  end.

(** The calls one after the other, with their answers. *)
Fixpoint run_calls (q : IntQueue) (cs : list call)
  : option (IntQueue * list answer) :=
  match cs with
  | [] => Some (q, [])
  | c :: cs' =>
      match run_call q c with
      | None => None
      | Some (q', a) =>
          match run_calls q' cs' with
          | None => None
          | Some (q'', answers) => Some (q'', a :: answers)
          end
      end
  end.

(** The same calls on the queue seen as the list of its items. *)
Definition list_call (q : IntQueue.IntQueue) (c : call)
  : IntQueue.IntQueue * answer :=
  match c with
  | CallPut u _ => let '(q', e) := IntQueue.Put q u in (q', Err e)
  | CallGet => let '(q', v, e) := IntQueue.Get q in (q', Int v e)
  | CallPeek => let '(v, e) := IntQueue.Peek q in (q, Int v e)
  | CallHas => (q, Bool (IntQueue.Has q))
  | CallWait =>
      (q, match IntQueue.Wait q with Some b => Bool b | None => Waits end)
  | CallDisposed => (q, Bool (IntQueue.Disposed q))
  | CallDispose => (IntQueue.Dispose q, Returns)
  end.

Fixpoint list_calls (q : IntQueue.IntQueue) (cs : list call) : list answer :=
  match cs with
  | [] => []
  | c :: cs' => (list_call q c).2 :: list_calls (list_call q c).1 cs'
  end.

(** The list the nodes hold: from [t], the pointers [next] lead through
    the nodes [locs], which hold the [items]. *)
Fixpoint linked (h : gmap nat intNode) (t : nat) (locs : list nat)
    (items : list Z) : Prop :=
  match locs, items with
  | [], [] => True
  | l :: locs', x :: items' =>
      (next <$> h !! t) = Some (Some l)
      ∧ (uid <$> h !! l) = Some x
      ∧ linked h l locs' items'
  | _, _ => False
  end.

(** The queue [q] holds [items]: its list starts after [tail] and ends
    with [head], no node is twice in the list or in the pool, and every
    node was allocated. *)
Definition holds (q : IntQueue) (items : list Z) : Prop :=
  ∃ locs,
    linked (heap q) (tail q) locs items
    ∧ head q = List.last locs (tail q)
    ∧ (next <$> heap q !! head q) = Some None
    ∧ NoDup (tail q :: locs ++ pool q)
    ∧ ∀ l, l ∈ tail q :: locs ++ pool q → (l < allocated q)%nat.

(** The queue of nodes and the list of its items go together. *)
Definition alike (q : IntQueue) (q' : IntQueue.IntQueue) : Prop :=
  holds q (IntQueue.items q') ∧ Disposed q = IntQueue.disposed q'.

End LinkedIntQueue.

(** ** services/network: the acknowledgement forwarder and the response writer *)

Module DirectRelp.
Section WithConnID.

(** [utils.MyULID], the identifier of a connection. *)
Context {MyULID : Type} `{Countable MyULID}.

(** Modelled from the spec: the type [ackForwarder] and its methods are
    used by [handleResponses] but declared in a file of package [network]
    that is not embedded here.  The specification gives it
    "three queues per connection: succ, fail, next_to_commit"; a received
    txnr is recorded as pending in [next_to_commit]; a verdict of the
    downstream is pushed into [succ] or [fail]; the writer reads both and
    consults and advances [next_to_commit].  The queues are the [IntQueue]
    of [utils/queue/int.go], whose [-1] means "nothing" and whose
    [WaitOne] waits on two queues. *)
Record connQueues : Type := mkConn {
  succ : IntQueue.IntQueue;
  fail : IntQueue.IntQueue;
  comm : IntQueue.IntQueue
}.

Definition newAckForwarder : gmap MyULID connQueues := ∅.

Definition AddConn (f : gmap MyULID connQueues) (connID : MyULID)
  : gmap MyULID connQueues :=
  <[connID := mkConn IntQueue.NewIntQueue IntQueue.NewIntQueue
                     IntQueue.NewIntQueue]> f.

Definition RemoveConn (f : gmap MyULID connQueues) (connID : MyULID)
  : gmap MyULID connQueues :=
  delete connID f.

Definition RemoveAll (f : gmap MyULID connQueues) : gmap MyULID connQueues :=
  ∅.

Definition Received (f : gmap MyULID connQueues) (connID : MyULID) (txnr : Z)
  : gmap MyULID connQueues :=
  alter (fun c => mkConn (succ c) (fail c) (IntQueue.Put (comm c) txnr).1)
        connID f.

Definition ForwardSucc (f : gmap MyULID connQueues) (connID : MyULID)
    (txnr : Z) : gmap MyULID connQueues :=
  alter (fun c => mkConn (IntQueue.Put (succ c) txnr).1 (fail c) (comm c))
        connID f.

Definition ForwardFail (f : gmap MyULID connQueues) (connID : MyULID)
    (txnr : Z) : gmap MyULID connQueues :=
  alter (fun c => mkConn (succ c) (IntQueue.Put (fail c) txnr).1 (comm c))
        connID f.

Definition GetSucc (f : gmap MyULID connQueues) (connID : MyULID)
  : gmap MyULID connQueues * Z :=
  match f !! connID with
  | None => (f, -1)
  | Some c =>
      match IntQueue.Get (succ c) with
      | (q, txnr, None) => (<[connID := mkConn q (fail c) (comm c)]> f, txnr)
      | (_, _, Some _) => (f, -1)
      end
  end.

Definition GetFail (f : gmap MyULID connQueues) (connID : MyULID)
  : gmap MyULID connQueues * Z :=
  match f !! connID with
  | None => (f, -1)
  | Some c =>
      match IntQueue.Get (fail c) with
      | (q, txnr, None) => (<[connID := mkConn (succ c) q (comm c)]> f, txnr)
      | (_, _, Some _) => (f, -1)
      end
  end.

Definition NextToCommit (f : gmap MyULID connQueues) (connID : MyULID) : Z :=
  match f !! connID with
  | None => -1
  | Some c =>
      match IntQueue.Peek (comm c) with
      | (next, None) => next
      | (_, Some _) => -1
      end
  end.

Definition Commit (f : gmap MyULID connQueues) (connID : MyULID)
  : gmap MyULID connQueues :=
  match f !! connID with
  | None => f
  | Some c =>
      <[connID := mkConn (succ c) (fail c) (IntQueue.Get (comm c)).1.1]> f
  end.

Definition Wait (f : gmap MyULID connQueues) (connID : MyULID) : option bool :=
  match f !! connID with
  | None => Some false
  | Some c => IntQueue.WaitOne (succ c) (fail c)
  end.

(** *** [handleResponses] (directrelp.go), from the source *)

(** What [fmt.Fprintf(conn, ...)] answers. *)
Inductive write_result : Type :=
| WriteOk
| WriteEOF
| WriteTimeout
| WriteError.

(** A response frame on the wire: [txnr rsp 6 200 OK] or
    [txnr rsp 6 500 KO]. *)
Inductive rsp : Type :=
| Rsp200 (txnr : Z)
| Rsp500 (txnr : Z).

Definition rsp_txnr (r : rsp) : Z :=
  match r with
  | Rsp200 t => t
  | Rsp500 t => t
  end.

(** Where the goroutine stands: at the head of the outer loop, between the
    reads of the two queues, in the loop [Cooking], or returned. *)
Inductive phase : Type :=
| AtWait
| AtGetSucc
| AtGetFail
| AtCooking
| Returned.

(** The locals of [handleResponses] ([successes], [failures]), the frames
    written to [conn] so far, and the forwarder shared with the other
    goroutines. *)
Record writer : Type := mkWriter {
  pc : phase;
  successes : gmap Z bool;
  failures : gmap Z bool;
  written : list rsp;
  forwarder : gmap MyULID connQueues
}.

Definition start_writer (f : gmap MyULID connQueues) : writer :=
  mkWriter AtWait ∅ ∅ [] f.

(** [m[k]] of Go on a [map[int32]bool]: [false] when the key is absent. *)
Definition index (m : gmap Z bool) (k : Z) : bool := default false (m !! k).

(** [_, ok1 = successes[t]; _, ok2 = failures[t]; if !ok1 && !ok2 { m[t] = true }] *)
Definition fresh (w : writer) (t : Z) : bool :=
  negb (bool_decide (is_Some (successes w !! t)))
  && negb (bool_decide (is_Some (failures w !! t))).

(** The tail of one pass of [Cooking], after the write answered [err]. *)
Definition after_write (w : writer) (connID : MyULID) (err : write_result)
  : writer :=
  match err with
  | WriteOk =>
      mkWriter AtCooking (successes w) (failures w) (written w)
               (Commit (forwarder w) connID)
  | WriteEOF =>
      mkWriter Returned (successes w) (failures w) (written w) (forwarder w)
  | WriteTimeout => w
  | WriteError =>
      mkWriter Returned (successes w) (failures w) (written w) (forwarder w)
  end.

(** [handleResponses], one step at a time; [err] is the answer of the
    connection to the write this step makes, if it makes one.  [None]: the
    goroutine waits, or has returned. *)
Definition handleResponses (connID : MyULID) (err : write_result) (w : writer)
  : option writer :=
  match pc w with
  | AtWait =>
      match Wait (forwarder w) connID with
      | None => None
      | Some true =>
          Some (mkWriter AtGetSucc (successes w) (failures w) (written w)
                         (forwarder w))
      | Some false =>
          Some (mkWriter Returned (successes w) (failures w) (written w)
                         (forwarder w))
      end
  | AtGetSucc =>
      let '(f, currentTxnr) := GetSucc (forwarder w) connID in
      Some (mkWriter AtGetFail
              (if negb (currentTxnr =? -1) && fresh w currentTxnr
               then <[currentTxnr := true]> (successes w) else successes w)
              (failures w) (written w) f)
  | AtGetFail =>
      let '(f, currentTxnr) := GetFail (forwarder w) connID in
      Some (mkWriter AtCooking (successes w)
              (if negb (currentTxnr =? -1) && fresh w currentTxnr
               then <[currentTxnr := true]> (failures w) else failures w)
              (written w) f)
  | AtCooking =>
      let next := NextToCommit (forwarder w) connID in
      if next =? -1 then
        Some (mkWriter AtWait (successes w) (failures w) (written w)
                       (forwarder w))
      else if index (successes w) next then
        Some (after_write
                (match err with
                 | WriteOk =>
                     mkWriter AtCooking (<[next := false]> (successes w))
                              (failures w) (written w ++ [Rsp200 next])
                              (forwarder w)
                 | _ => w
                 end) connID err)
      else if index (failures w) next then
        Some (after_write
                (match err with
                 | WriteOk =>
                     mkWriter AtCooking (successes w)
                              (<[next := false]> (failures w))
                              (written w ++ [Rsp500 next]) (forwarder w)
                 | _ => w
                 end) connID err)
      else
        Some (mkWriter AtWait (successes w) (failures w) (written w)
                       (forwarder w))
  | Returned => None
  end.

(** What the other goroutines do to the forwarder of the service: the
    scanner records a received txnr, the parser or the broker reports a
    verdict, a connection is added or removed, the service stops and
    removes them all. *)
Inductive env_event : Type :=
| EvReceived (connID : MyULID) (txnr : Z)
| EvSucc (connID : MyULID) (txnr : Z)
| EvFail (connID : MyULID) (txnr : Z)
| EvAddConn (connID : MyULID)
| EvRemoveConn (connID : MyULID)
| EvRemoveAll.

Definition env_step (e : env_event) (f : gmap MyULID connQueues)
  : gmap MyULID connQueues :=
  match e with
  | EvReceived c t => Received f c t
  | EvSucc c t => ForwardSucc f c t
  | EvFail c t => ForwardFail f c t
  | EvAddConn c => AddConn f c
  | EvRemoveConn c => RemoveConn f c
  | EvRemoveAll => RemoveAll f
  end.

(** An interleaving of the writer of connection [connID] with the rest of
    the service. *)
Inductive action : Type :=
| Env (e : env_event)
| Writer (err : write_result).

Definition step (connID : MyULID) (a : action) (w : writer) : writer :=
  match a with
  | Env e =>
      mkWriter (pc w) (successes w) (failures w) (written w)
               (env_step e (forwarder w))
  | Writer err => default w (handleResponses connID err w)
  end.

Definition run (connID : MyULID) (sched : list action) (w : writer) : writer :=
  fold_left (fun w a => step connID a w) sched w.

(** The txnrs the scanner recorded for [connID] along a schedule, from the
    moment the connection is in the forwarder. *)
Definition received_of (connID : MyULID) (sched : list action) : list Z :=
  omap (fun a => match a with
                 | Env (EvReceived c t) =>
                     if decide (c = connID) then Some t else None
                 | _ => None
                 end) sched.

(** The link between the frames written and the txnrs [recorded] so far for
    [connID]: while the connection is in the forwarder, the written txnrs
    followed by the content of [next_to_commit] are the recorded txnrs. *)
Definition in_commit_order (connID : MyULID) (recorded : list Z) (w : writer)
  : Prop :=
  match forwarder w !! connID with
  | Some c =>
      IntQueue.disposed (comm c) = false
      ∧ map rsp_txnr (written w) ++ IntQueue.items (comm c) = recorded
  | None => map rsp_txnr (written w) `prefix_of` recorded
  end.

(** One step of the writer: either nothing is written, or one frame is
    written for the txnr that is next to commit, whose verdict is known,
    and that txnr leaves the queue of pending txnrs. *)
Definition writes_next (connID : MyULID) (err : write_result)
    (w w' : writer) : Prop :=
  written w' = written w
  ∨ ∃ r c rest,
      written w' = written w ++ [r]
      ∧ err = WriteOk
      ∧ NextToCommit (forwarder w) connID = rsp_txnr r
      ∧ forwarder w !! connID = Some c
      ∧ IntQueue.disposed (comm c) = false
      ∧ IntQueue.items (comm c) = rsp_txnr r :: rest
      ∧ forwarder w' !! connID
        = Some (mkConn (succ c) (fail c) (IntQueue.mkQ rest false))
      ∧ (r = Rsp200 (rsp_txnr r) ∧ index (successes w) (rsp_txnr r) = true
         ∨ r = Rsp500 (rsp_txnr r)
           ∧ index (successes w) (rsp_txnr r) = false
           ∧ index (failures w) (rsp_txnr r) = true).

End WithConnID.
Arguments connQueues : clear implicits.
End DirectRelp.

(** ** Byte slices and the functions of Go's [bytes] and [strconv] the
    framing code calls *)

Module Bytes.

Definition code (b : byte) : Z := Z.of_N (Byte.to_N b).

Definition SP : byte := Byte.x20.
Definition CR : byte := Byte.x0d.
Definition LF : byte := Byte.x0a.
Definition LT : byte := Byte.x3c.

Definition mem (b : byte) (cutset : list byte) : bool :=
  existsb (Byte.eqb b) cutset.
Arguments mem : simpl never.

(** The cutset [" \r\n"] of every trim in the framing code. *)
Definition ws : list byte := [SP; CR; LF].

Fixpoint TrimLeft (s cutset : list byte) : list byte :=
  match s with
  | [] => []
  | b :: rest => if mem b cutset then TrimLeft rest cutset else s
  end.

Definition TrimRight (s cutset : list byte) : list byte :=
  rev (TrimLeft (rev s) cutset).

Definition Trim (s cutset : list byte) : list byte :=
  TrimLeft (TrimRight s cutset) cutset.

(** Index of the first byte of [s] that satisfies [p], or [-1]. *)
Fixpoint index_where (p : byte -> bool) (s : list byte) : Z :=
  match s with
  | [] => -1
  | b :: rest =>
      if p b then 0
      else let i := index_where p rest in if i <? 0 then -1 else i + 1
  end.

Definition IndexByte (s : list byte) (c : byte) : Z :=
  index_where (Byte.eqb c) s.

Definition IndexAny (s chars : list byte) : Z :=
  index_where (fun b => mem b chars) s.

Definition len (s : list byte) : Z := Z.of_nat (length s).

(** [s[lo:hi]]: [None] is the panic "slice bounds out of range". *)
Definition slice (s : list byte) (lo hi : Z) : option (list byte) :=
  if (0 <=? lo) && (lo <=? hi) && (hi <=? len s)
  then Some (take (Z.to_nat (hi - lo)) (drop (Z.to_nat lo) s))
  else None.

Definition digit (b : byte) : option Z :=
  if (48 <=? code b) && (code b <=? 57) then Some (code b - 48) else None.

Fixpoint digits_value (acc : Z) (s : list byte) : option Z :=
  match s with
  | [] => Some acc
  | b :: rest =>
      match digit b with
      | Some d => digits_value (10 * acc + d) rest
      | None => None
      end
  end.

(** [strconv.Atoi] on a 64-bit platform: an optional sign, then at least one
    decimal digit and nothing else; a value outside [int] is an error. *)
Definition Atoi (s : list byte) : option Z :=
  let '(neg, body) :=
    match s with
    | b :: rest =>
        if Byte.eqb b Byte.x2d then (true, rest)
        else if Byte.eqb b Byte.x2b then (false, rest)
        else (false, s)
    | [] => (false, [])
    end in
  match body with
  | [] => None
  | _ :: _ =>
      match digits_value 0 body with
      | Some v =>
          let v := if neg then - v else v in
          if (- 2 ^ 63 <=? v) && (v <? 2 ^ 63) then Some v else None
      | None => None
      end
  end.

Definition of_string (s : string) : list byte := String.list_byte_of_string s.

(** The leading token of a line: its bytes before the first space or LF. *)
Fixpoint leading_token (s : list byte) : list byte :=
  match s with
  | [] => []
  | b :: rest => if mem b [SP; LF] then [] else b :: leading_token rest
  end.

(** The bytes of [s] before the first [sep] and those after it; [None]
    when [sep] does not occur. *)
Fixpoint cut (s : list byte) (sep : byte) : option (list byte * list byte) :=
  match s with
  | [] => None
  | b :: rest =>
      if Byte.eqb b sep then Some ([], rest)
      else match cut rest sep with
           | Some (before, after) => Some (b :: before, after)
           | None => None
           end
  end.

(** [strings.SplitN(s, sep, n)] for a separator of one byte and [n >= 0]:
    at most [n] substrings, the last one the unsplit remainder. *)
Fixpoint SplitN (s : list byte) (sep : byte) (n : nat) : list (list byte) :=
  match n with
  | O => []
  | S n' =>
      match n' with
      | O => [s]
      | S _ =>
          match cut s sep with
          | Some (before, after) => before :: SplitN after sep n'
          | None => [s]
          end
      end
  end.

(** [strings.Join(parts, sep)] for a separator of one byte. *)
Fixpoint Join (parts : list (list byte)) (sep : byte) : list byte :=
  match parts with
  | [] => []
  | [p] => p
  | p :: rest => p ++ sep :: Join rest sep
  end.

Definition DOT : byte := Byte.x2e.

End Bytes.

(** ** services/network: TCP framing and the TCP connection handler *)

Module Network.
Import Bytes.

(** What a [bufio.SplitFunc] returns, or the panic it raises. *)
Inductive split_error : Type :=
| EOF
| NumError.

Inductive split_result : Type :=
| SplitPanic
| SplitRet (advance : Z) (token : list byte) (eoferr : option split_error).

Definition getline (data : list byte) (trimmed : Z) (eoferr : option split_error)
  : split_result :=
  let lf := IndexByte data LF in
  if lf =? 0 then SplitRet 0 [] eoferr
  else
    match slice data 0 lf with
    | None => SplitPanic
    | Some line => SplitRet (lf + trimmed + 1) (Trim line ws) None
    end.

Definition TcpSplit (data : list byte) (atEOF : bool) : split_result :=
  let eoferr := if atEOF then Some EOF else None in
  let trimmedData := TrimLeft data ws in
  match trimmedData with
  | [] => SplitRet 0 [] eoferr
  | first :: _ =>
      let trimmed := len data - len trimmedData in
      if Byte.eqb first LT then getline trimmedData trimmed eoferr
      else
        let sp := IndexAny trimmedData [SP; LF] in
        if sp <=? 0 then SplitRet 0 [] eoferr
        else
          match slice trimmedData 0 sp with
          | None => SplitPanic
          | Some tok =>
              let datalenStr := Trim tok ws in
              match Atoi datalenStr with
              | None => getline trimmedData trimmed eoferr
              | Some datalen =>
                  let advance := i64 (trimmed + sp + 1 + datalen) in
                  if len data <? advance then SplitRet 0 [] eoferr
                  else
                    match slice trimmedData (sp + 1)
                                (i64 (sp + 1 + datalen)) with
                    | None => SplitPanic
                    | Some body => SplitRet advance (Trim body ws) None
                    end
              end
          end
  end.

(** [makeLFTCPSplit]: [None] is the panic of [[]byte(delimiter)[0]] on an
    empty delimiter; otherwise the split function for frames that end
    with the first byte of the delimiter. *)
Definition makeLFTCPSplit (delimiter : list byte)
  : option (list byte -> bool -> split_result) :=
  match delimiter with
  | [] => None
  | delim :: _ =>
      Some (fun (data : list byte) (atEOF : bool) =>
        let eoferr := if atEOF then Some EOF else None in
        let trimmedData := TrimLeft data ws in
        if len trimmedData =? 0 then SplitRet 0 [] eoferr
        else
          let trimmed := len data - len trimmedData in
          let lf := IndexByte trimmedData delim in
          if lf <? 1 then SplitRet 0 [] eoferr
          else
            match slice trimmedData 0 lf with
            | None => SplitPanic
            | Some frame =>
                SplitRet (i64 (trimmed + lf + 1)) (Trim frame ws) None
            end)
  end.

Section Handler.

(** [utils.MyULID] of the configuration identifier and
    [model.DecoderConfig], both declared in packages that are not embedded
    here. *)
Context {MyULID DecoderConfig : Type}.

Record RawTcpMessage : Type := mkRaw {
  Client : string;
  LocalPort : Z;
  UnixSocketPath : string;
  ConfID : MyULID;
  Decoder : DecoderConfig;
  Message : list byte
}.

(** What the handler knows about the connection and its configuration
    before it scans: the labels, and the limits [SetConf] installed
    ([s.MaxMessageSize], and the capacity of the buffers of [s.Pool]). *)
Record conn_env : Type := mkEnv {
  client : string;
  localPortInt : Z;
  path : string;
  confID : MyULID;
  decoder : DecoderConfig;
  MaxMessageSize : Z;
  poolCap : Z
}.

(** The raw message the handler fills for a frame: the labels of the
    connection and a copy of the frame. *)
Definition rawmsg_of (e : conn_env) (buf : list byte) : RawTcpMessage :=
  mkRaw (client e) (localPortInt e) (path e) (confID e) (decoder e) buf.

(** How [HandleConnection] leaves its scanning loop. *)
Inductive handler_exit : Type :=
| EndOfStream
| MessageTooLarge
| QueueError (e : error)
| HandlerPanic
| HandlerBlocked.

(** The body of [for scanner.Scan() { ... }] for one frame [buf] handed
    over by the scanner: [inl] goes on with the next frame, [inr] returns.
    The queue of the service ([tcp.Ring], declared in a package that is
    not embedded here) is a ring of raw TCP messages: it is the ring of
    [utils/queue/rawtcp.go].  The second component counts the increments
    of [IncomingMsgsCounter]. *)
Definition handle_frame (fuel : nat) (e : conn_env)
    (st : Ring.RawTCPRing RawTcpMessage * Z) (buf : list byte)
  : (Ring.RawTCPRing RawTcpMessage * Z) + handler_exit :=
  let '(rb, incoming) := st in
  if len buf =? 0 then inl st
  else if (0 <? MaxMessageSize e) && (MaxMessageSize e <? len buf)
  then inr MessageTooLarge
  else if poolCap e <? len buf then inr HandlerPanic
  else
    let rawmsg := rawmsg_of e buf in
    match Ring.Put fuel rb (Some rawmsg) with
    | Done rb' None => inl (rb', incoming + 1)
    | Done _ (Some err) => inr (QueueError err)
    | Panicked => inr HandlerPanic
    | Blocked => inr HandlerBlocked
    end.

(** The scanning loop of [HandleConnection] over the frames the scanner
    delivers, in order; the final state of the ring and of the counter, and
    the way out. *)
Fixpoint HandleConnection (fuel : nat) (e : conn_env)
    (st : Ring.RawTCPRing RawTcpMessage * Z) (frames : list (list byte))
  : (Ring.RawTCPRing RawTcpMessage * Z) * handler_exit :=
  match frames with
  | [] => (st, EndOfStream)
  | buf :: rest =>
      match handle_frame fuel e st buf with
      | inl st' => HandleConnection fuel e st' rest
      | inr exit => (st, exit)
      end
  end.

(** A frame the handler can take: not beyond [MaxMessageSize] when that
    limit is set, and not beyond the capacity of a buffer of the pool. *)
Definition accepted (e : conn_env) (buf : list byte) : bool :=
  negb ((0 <? MaxMessageSize e) && (MaxMessageSize e <? len buf))
  && negb (poolCap e <? len buf).

(** The frames that are not empty, in their order. *)
Definition nonempty (frames : list (list byte)) : list (list byte) :=
  List.filter (fun buf => negb (len buf =? 0)) frames.

End Handler.
Arguments RawTcpMessage : clear implicits.
Arguments conn_env : clear implicits.
End Network.

(** ** Package server: the earlier copy of the TCP splitter *)

Module Server.
Import Bytes.

(** [TcpSplit] of package [server]: the same framing, but a line without
    LF is "no token yet", and a leading token that is not a number is an
    error of the scanner instead of a line. *)
Definition TcpSplit (data : list byte) (atEOF : bool) : Network.split_result :=
  let trimmed_data := TrimLeft data ws in
  match trimmed_data with
  | [] => Network.SplitRet 0 [] None
  | first :: _ =>
      let trimmed := len data - len trimmed_data in
      if Byte.eqb first LT then
        let lf := IndexByte trimmed_data LF in
        if 0 <=? lf then
          match slice trimmed_data 0 lf with
          | None => Network.SplitPanic
          | Some line => Network.SplitRet (trimmed + lf + 1) (Trim line ws) None
          end
        else Network.SplitRet 0 [] None
      else
        let sp := IndexAny trimmed_data [SP; LF] in
        if sp <=? 0 then Network.SplitRet 0 [] None
        else
          match slice trimmed_data 0 sp with
          | None => Network.SplitPanic
          | Some tok =>
              let datalen_s := Trim tok ws in
              match Atoi datalen_s with
              | None => Network.SplitRet 0 [] (Some Network.NumError)
              | Some datalen =>
                  let advance := i64 (trimmed + sp + 1 + datalen) in
                  if advance <=? len data then
                    match slice trimmed_data (sp + 1)
                                (i64 (sp + 1 + datalen)) with
                    | None => Network.SplitPanic
                    | Some body => Network.SplitRet advance (Trim body ws) None
                    end
                  else Network.SplitRet 0 [] None
              end
          end
  end.

End Server.

(** ** Channels with a buffer *)

Module Chan.
Section WithValue.

Context {A : Type}.

(** A channel made by [make(chan A, capacity)] with [capacity] positive:
    the values sent and not yet received, oldest first, and whether the
    channel is closed. *)
Record chan : Type := mkChan {
  capacity : nat;
  buffer : list A;
  closed : bool
}.

Definition make (n : nat) : chan := mkChan n [] false.

(** [c <- v]: a panic on a closed channel; the sender waits while the
    buffer is full. *)
Definition send (c : chan) (v : A) : outcome chan unit :=
  if closed c then Panicked
  else if (length (buffer c) <? capacity c)%nat
  then Done (mkChan (capacity c) (buffer c ++ [v]) (closed c)) tt
  else Blocked.

(** [close(c)]: a panic on a closed channel. *)
Definition close (c : chan) : outcome chan unit :=
  if closed c then Panicked
  else Done (mkChan (capacity c) (buffer c) true) tt.

(** A reader takes the oldest value, if there is one. *)
Definition receive (c : chan) : chan :=
  mkChan (capacity c) (List.tl (buffer c)) (closed c).

End WithValue.
Arguments chan : clear implicits.
End Chan.

(** ** services/network and package server: the status of the TCP service *)

Module TcpService.

Inductive TcpServerStatus : Type :=
| TcpStopped
| TcpStarted.

Inductive start_error : Type :=
| ServerNotStopped.

(** [TcpServiceImpl] (and [TcpServer] of package [server], whose [Start]
    and [Stop] are the same with [ClosedChan] for [statusChan]) as far as
    its status goes: [status], [statusChan] ([None] is [nil]), and the
    channels that [Start] has replaced, each as it was at that moment. *)
Record TcpServiceImpl : Type := mkTcp {
  status : TcpServerStatus;
  statusChan : option (Chan.chan TcpServerStatus);
  replaced : list (Chan.chan TcpServerStatus)
}.

Definition NewTcpService : TcpServiceImpl := mkTcp TcpStopped None [].

(** [Start]; [listeners] is [len(infos)], the number of listeners that
    [initTCPListeners] could open. *)
Definition Start (s : TcpServiceImpl) (listeners : nat)
  : outcome TcpServiceImpl (option start_error) :=
  match status s with
  | TcpStarted => Done s (Some ServerNotStopped)
  | TcpStopped =>
      let c := Chan.make 1 in
      let old := option_list (statusChan s) ++ replaced s in
      if (0 <? listeners)%nat then Done (mkTcp TcpStarted (Some c) old) None
      else
        match Chan.close c with
        | Done c' _ => Done (mkTcp TcpStopped (Some c') old) None
        | Panicked => Panicked
        | Blocked => Blocked
        end
  end.

(** [Stop]; the listeners are closed and the goroutines waited for before
    the status changes.  A send on a [nil] channel waits for ever. *)
Definition Stop (s : TcpServiceImpl) : outcome TcpServiceImpl unit :=
  match status s with
  | TcpStopped => Done s tt
  | TcpStarted =>
      match statusChan s with
      | None => Blocked
      | Some c =>
          match Chan.send c TcpStopped with
          | Done c' _ =>
              match Chan.close c' with
              | Done c'' _ => Done (mkTcp TcpStopped (Some c'') (replaced s)) tt
              | Panicked => Panicked
              | Blocked => Blocked
              end
          | Panicked => Panicked
          | Blocked => Blocked
          end
      end
  end.

(** What happens to the service: a call of [Start] or of [Stop], or a
    reader takes a value from [statusChan]. *)
Inductive action : Type :=
| CallStart (listeners : nat)
| CallStop
| Receive.

Definition step (s : TcpServiceImpl) (a : action)
  : outcome TcpServiceImpl unit :=
  match a with
  | CallStart listeners =>
      match Start s listeners with
      | Done s' _ => Done s' tt
      | Panicked => Panicked
      | Blocked => Blocked
      end
  | CallStop => Stop s
  | Receive =>
      Done (mkTcp (status s) (Chan.receive <$> statusChan s) (replaced s)) tt
  end.

Fixpoint run (s : TcpServiceImpl) (acts : list action)
  : outcome TcpServiceImpl unit :=
  match acts with
  | [] => Done s tt
  | a :: acts' =>
      match step s a with
      | Done s' _ => run s' acts'
      | Panicked => Panicked
      | Blocked => Blocked
      end
  end.

End TcpService.

(** ** services/network/directrelp.go: the status of the RELP service *)

Module RelpService.

(** [RelpServerStatus]; the constants are declared in a file of package
    [network] that is not embedded here. *)
Inductive RelpServerStatus : Type :=
| Stopped
| Started
| FinalStopped
| Waiting.

Global Instance RelpServerStatus_eq_dec : EqDecision RelpServerStatus.
Proof. solve_decision. Defined.

Inductive start_error : Type :=
| ServerDefinitelyStopped
| ServerNotStopped
| ProducerError.

(** [DirectRelpServiceImpl] as far as its status goes: [status],
    [StatusChan], and the values sent on [StatusChan] so far. *)
Record DirectRelpServiceImpl : Type := mkImpl {
  status : RelpServerStatus;
  StatusChan : Chan.chan RelpServerStatus;
  sent : list RelpServerStatus
}.

Definition NewDirectRelpServiceImpl : DirectRelpServiceImpl :=
  mkImpl Stopped (Chan.make 10) [].

(** [s.status = v; s.StatusChan <- v] *)
Definition set_status (s : DirectRelpServiceImpl) (v : RelpServerStatus)
  : outcome DirectRelpServiceImpl unit :=
  match Chan.send (StatusChan s) v with
  | Done c _ => Done (mkImpl v c (sent s ++ [v])) tt
  | Panicked => Panicked
  | Blocked => Blocked
  end.

(** [s.status = FinalStopped; s.StatusChan <- FinalStopped;
    close(s.StatusChan)] *)
Definition set_final (s : DirectRelpServiceImpl)
  : outcome DirectRelpServiceImpl unit :=
  match set_status s FinalStopped with
  | Done s' _ =>
      match Chan.close (StatusChan s') with
      | Done c _ => Done (mkImpl (status s') c (sent s')) tt
      | Panicked => Panicked
      | Blocked => Blocked
      end
  | Panicked => Panicked
  | Blocked => Blocked
  end.

(** [Start]; [listeners] is [len(infos)], [producer_ok] tells whether
    [GetAsyncProducer] succeeds.  The first component of the result is
    [len(infos)], or [None] for [nil]. *)
Definition Start (s : DirectRelpServiceImpl) (listeners : nat)
    (producer_ok : bool)
  : outcome DirectRelpServiceImpl (option nat * option start_error) :=
  if decide (status s = FinalStopped)
  then Done s (None, Some ServerDefinitelyStopped)
  else if decide (status s ≠ Stopped ∧ status s ≠ Waiting)
  then Done s (None, Some ServerNotStopped)
  else if (listeners =? 0)%nat then Done s (Some listeners, None)
  else if negb producer_ok then Done s (None, Some ProducerError)
  else
    match set_status s Started with
    | Done s' _ => Done s' (Some listeners, None)
    | Panicked => Panicked
    | Blocked => Blocked
    end.

(** [doStop]; on the way from [Started] the listeners are closed, the
    queues disposed and the goroutines waited for before the status
    changes. *)
Definition doStop (s : DirectRelpServiceImpl) (final wait : bool)
  : outcome DirectRelpServiceImpl unit :=
  if final && (bool_decide (status s = Waiting)
               || bool_decide (status s = Stopped)
               || bool_decide (status s = FinalStopped))
  then
    if decide (status s ≠ FinalStopped) then set_final s else Done s tt
  else if bool_decide (status s = Stopped)
          || bool_decide (status s = FinalStopped)
          || bool_decide (status s = Waiting)
  then
    if bool_decide (status s = Stopped) && wait then set_status s Waiting
    else Done s tt
  else if final then set_final s
  else if wait then set_status s Waiting
  else set_status s Stopped.

Definition Stop (s : DirectRelpServiceImpl) := doStop s false false.

Definition FinalStop (s : DirectRelpServiceImpl) := doStop s true false.

Definition StopAndWait (s : DirectRelpServiceImpl) := doStop s false true.

Definition EndWait (s : DirectRelpServiceImpl)
  : outcome DirectRelpServiceImpl unit :=
  if decide (status s ≠ Waiting) then Done s tt
  else set_status s Stopped.

(** What happens to the service: one of its calls, or a reader takes a
    value from [StatusChan]. *)
Inductive action : Type :=
| CallStart (listeners : nat) (producer_ok : bool)
| CallStop
| CallFinalStop
| CallStopAndWait
| CallEndWait
| Receive.

Definition step (s : DirectRelpServiceImpl) (a : action)
  : outcome DirectRelpServiceImpl unit :=
  match a with
  | CallStart listeners producer_ok =>
      match Start s listeners producer_ok with
      | Done s' _ => Done s' tt
      | Panicked => Panicked
      | Blocked => Blocked
      end
  | CallStop => Stop s
  | CallFinalStop => FinalStop s
  | CallStopAndWait => StopAndWait s
  | CallEndWait => EndWait s
  | Receive =>
      Done (mkImpl (status s) (Chan.receive (StatusChan s)) (sent s)) tt
  end.

Fixpoint run (s : DirectRelpServiceImpl) (acts : list action)
  : outcome DirectRelpServiceImpl unit :=
  match acts with
  | [] => Done s tt
  | a :: acts' =>
      match step s a with
      | Done s' _ => run s' acts'
      | Panicked => Panicked
      | Blocked => Blocked
      end
  end.

(** The channel is closed exactly in the status [FinalStopped], the
    status is the last value sent, what waits in the channel are the last
    values sent, at most ten, and [FinalStopped] was sent at most once, as
    the last value. *)
Definition tidy (s : DirectRelpServiceImpl) : Prop :=
  (Chan.closed (StatusChan s) = true ↔ status s = FinalStopped)
  ∧ status s = List.last (sent s) Stopped
  ∧ Chan.buffer (StatusChan s) `suffix_of` sent s
  ∧ Chan.capacity (StatusChan s) = 10%nat
  ∧ (length (Chan.buffer (StatusChan s)) <= 10)%nat
  ∧ FinalStopped ∉ removelast (sent s).

End RelpService.

(** ** Store callbacks of the destinations (store/dests/base.go) *)

Module Dests.
Section WithUid.

(** [utils.MyULID] of a message, with its zero value [utils.ZeroUid]. *)
Context {MyULID : Type} `{EqDecision MyULID} (ZeroUid : MyULID).

(** A call of one of the three callbacks of [baseDestination]. *)
Inductive callback : Type :=
| Ack (uid : MyULID)
| Nack (uid : MyULID)
| Permerr (uid : MyULID).

Definition callback_uid (c : callback) : MyULID :=
  match c with
  | Ack u => u
  | Nack u => u
  | Permerr u => u
  end.

(** *** store/dests/tcpdest.go *)

(** What [d.clt.Send(message)] answers: [nil], an error for which
    [encoders.IsEncodingError] holds, or any other error. *)
Inductive send_result : Type :=
| SendOk
| SendEncodingError
| SendWriteError.

(** The destination: [previousUid], whether [fatal] is closed, and the
    callbacks called so far, oldest first. *)
Record TCPDestination : Type := mkTCP {
  previousUid : MyULID;
  fatal : bool;
  calls : list callback
}.

Definition NewTCPDestination : TCPDestination := mkTCP ZeroUid false [].

Definition call (d : TCPDestination) (c : callback) : TCPDestination :=
  mkTCP (previousUid d) (fatal d) (calls d ++ [c]).

Definition dofatal (d : TCPDestination) : TCPDestination :=
  mkTCP (previousUid d) true (calls d).

Definition set_previousUid (d : TCPDestination) (u : MyULID) : TCPDestination :=
  mkTCP u (fatal d) (calls d).

(** [sendOne]; the boolean is [err != nil]. *)
Definition sendOne (d : TCPDestination) (uid : MyULID) (err : send_result)
  : TCPDestination * bool :=
  match err with
  | SendOk =>
      let d := if decide (previousUid d = ZeroUid) then d
               else call d (Ack (previousUid d)) in
      (set_previousUid d uid, false)
  | SendEncodingError => (call d (Permerr uid), true)
  | SendWriteError =>
      let d := call d (Nack uid) in
      let d := if decide (previousUid d = ZeroUid) then d
               else set_previousUid (call d (Nack (previousUid d))) ZeroUid in
      (dofatal d, true)
  end.

(** The callbacks one [sendOne] adds to [calls]. *)
Definition new_calls (d : TCPDestination) (uid : MyULID) (err : send_result)
  : list callback :=
  match err with
  | SendOk =>
      if decide (previousUid d = ZeroUid) then [] else [Ack (previousUid d)]
  | SendEncodingError => [Permerr uid]
  | SendWriteError =>
      Nack uid ::
      (if decide (previousUid d = ZeroUid) then []
       else [Nack (previousUid d)])
  end.

(** [Send]: every message of the batch in turn, with what the client
    answered for it. *)
Definition Send (d : TCPDestination) (msgs : list (MyULID * send_result))
  : TCPDestination :=
  fold_left (fun d m => (sendOne d m.1 m.2).1) msgs d.

(** What happens to the destination once [NewTCPDestination] has made it:
    the store sends a message, or the rebind period expires before the
    store asks for a stop.  [NewTCPDestination] starts the goroutine that
    waits for the period only when [rebind] is positive; when the period
    expires the goroutine calls [dofatal]. *)
Inductive tcp_event : Type :=
| Sent (uid : MyULID) (err : send_result)
| RebindExpired.

Definition tcp_step (rebind : Z) (d : TCPDestination) (ev : tcp_event)
  : TCPDestination :=
  match ev with
  | Sent uid err => (sendOne d uid err).1
  | RebindExpired => if 0 <? rebind then dofatal d else d
  end.

Definition tcp_run (rebind : Z) (evs : list tcp_event) : TCPDestination :=
  fold_left (tcp_step rebind) evs NewTCPDestination.

(** The messages sent along the events, in order. *)
Definition sent_of (evs : list tcp_event) : list (MyULID * send_result) :=
  omap (fun ev => match ev with
                  | Sent uid err => Some (uid, err)
                  | RebindExpired => None
                  end) evs.

Definition is_expiry (ev : tcp_event) : bool :=
  match ev with
  | Sent _ _ => false
  | RebindExpired => true
  end.

(** *** HTTP destination: [dosendOne] *)

(** What the environment answers along [dosendOne]: whether the URL
    template executes, whether the encoder succeeds, whether
    [http.NewRequest] succeeds, and what [d.clt.Do(req)] gives: [None] for
    a transport error, otherwise the status code of the response. *)
Record http_answers : Type := mkAnswers {
  url_ok : bool;
  encode_ok : bool;
  request_ok : bool;
  response : option Z
}.

(** The callbacks [dosendOne] calls, in order, and whether it returns an
    error (which makes [dosend] close the [fatal] channel). *)
Definition dosendOne (a : http_answers) (uid : MyULID) : list callback * bool :=
  if negb (url_ok a) then ([Permerr uid], false)
  else if negb (encode_ok a) then ([Permerr uid], false)
  else if negb (request_ok a) then ([Permerr uid], false)
  else
    match response a with
    | None => ([Nack uid], true)
    | Some StatusCode =>
        if (200 <=? StatusCode) && (StatusCode <? 300) then ([Ack uid], false)
        else if (400 <=? StatusCode) && (StatusCode <? 500) then ([Nack uid], true)
        else if (500 <=? StatusCode) && (StatusCode <? 600) then ([Nack uid], true)
        else ([Nack uid], true)
    end.

(** The request left for the server: nothing failed before [d.clt.Do]. *)
Definition http_sent (a : http_answers) : bool :=
  url_ok a && encode_ok a && request_ok a.

(** A response came back with a 2xx status. *)
Definition http_success (a : http_answers) : bool :=
  match response a with
  | Some code => (200 <=? code) && (code <? 300)
  | None => false
  end.

End WithUid.
Arguments callback : clear implicits.
Arguments TCPDestination : clear implicits.
Arguments tcp_event : clear implicits.

(** *** HTTP destination: the send queue, its workers and [Close] *)

Module HTTP.
Section WithMessage.

(** [model.FullMessage] and its field [Uid]. *)
Context {MyULID FullMessage : Type} (Uid : FullMessage -> MyULID).

(** The destination as far as its messages go: the send queue, whether
    [fatal] is closed, and the callbacks called so far, oldest first.  The
    queue is a [message.Ring], declared in a package that is not embedded
    here: it is the ring of [utils/queue/rawtcp.go] for full messages. *)
Record HTTPDestination : Type := mkHTTP {
  sendQueue : Ring.RawTCPRing FullMessage;
  fatal : bool;
  calls : list (callback MyULID)
}.

(** [sendOne]; the boolean is [err != nil].  [Blocked]: the queue is full
    and [Put] waits. *)
Definition sendOne (fuel : nat) (d : HTTPDestination) (msg : FullMessage)
  : outcome HTTPDestination bool :=
  match Ring.Put fuel (sendQueue d) (Some msg) with
  | Done rb None => Done (mkHTTP rb (fatal d) (calls d)) false
  | Done rb (Some _) =>
      Done (mkHTTP rb true (calls d ++ [Nack (Uid msg)])) true
  | Panicked => Panicked
  | Blocked => Blocked
  end.

(** [Send]: the messages of the batch in turn; the boolean tells whether
    one of them returned an error. *)
Fixpoint Send (fuel : nat) (d : HTTPDestination) (msgs : list FullMessage)
  : outcome HTTPDestination bool :=
  match msgs with
  | [] => Done d false
  | msg :: rest =>
      match sendOne fuel d msg with
      | Done d' e =>
          match Send fuel d' rest with
          | Done d'' err => Done d'' (if err then true else e)
          | Panicked => Panicked
          | Blocked => Blocked
          end
      | Panicked => Panicked
      | Blocked => Blocked
      end
  end.

(** One turn of the loop of [dosend]: a message is taken from the queue
    and sent, [a] being what the environment answers along [dosendOne].
    The boolean tells whether the worker returns after this turn. *)
Definition dosend_turn (fuel : nat) (a : http_answers) (d : HTTPDestination)
  : outcome HTTPDestination bool :=
  match Ring.Get fuel (sendQueue d) with
  | Done rb (Some msg, None) =>
      let '(cbs, err) := dosendOne a (Uid msg) in
      Done (mkHTTP rb (if err then true else fatal d) (calls d ++ cbs)) err
  | Done rb (_, _) => Done (mkHTTP rb (fatal d) (calls d)) true
  | Panicked => Panicked
  | Blocked => Blocked
  end.

(** The state a call leaves: a call that waits has changed nothing. *)
Definition after {R : Type} (d : HTTPDestination)
    (o : outcome HTTPDestination R) : HTTPDestination :=
  match o with
  | Done d' _ => d'
  | _ => d
  end.

(** The loop of [Close] that nacks what is left in the queue, run for at
    most [n] turns. *)
Fixpoint nack_remaining (n : nat) (d : HTTPDestination)
  : outcome HTTPDestination unit :=
  match n with
  | O => Blocked
  | S n' =>
      match Ring.Get 1 (sendQueue d) with
      | Done rb (Some msg, None) =>
          nack_remaining n'
            (mkHTTP rb (fatal d) (calls d ++ [Nack (Uid msg)]))
      | Done rb (_, _) => Done (mkHTTP rb (fatal d) (calls d)) tt
      | Panicked => Panicked
      | Blocked => Blocked
      end
  end.

(** [Close]: the queue is disposed, the workers finish ([workers] holds
    the answers of the environment for the turns they still make before
    [d.wg.Wait()] returns), and what they left is nacked. *)
Definition Close (workers : list http_answers) (d : HTTPDestination)
  : outcome HTTPDestination unit :=
  let d := mkHTTP (Ring.Dispose (sendQueue d)) (fatal d) (calls d) in
  let d := fold_left (fun d a => after d (dosend_turn 1 a d)) workers d in
  nack_remaining (S (Z.to_nat (Ring.Len (sendQueue d)))) d.

(** What happens to the destination before [Close]: the store sends a
    message, or a worker makes a turn. *)
Inductive action : Type :=
| Sends (msg : FullMessage)
| Works (a : http_answers).

(** The destination along a schedule, with the messages for which
    [sendOne] has returned, in the order of the calls. *)
Definition step (fuel : nat) (st : HTTPDestination * list FullMessage)
    (act : action) : HTTPDestination * list FullMessage :=
  match act with
  | Sends msg =>
      match sendOne fuel st.1 msg with
      | Done d' _ => (d', st.2 ++ [msg])
      | _ => st
      end
  | Works a => (after st.1 (dosend_turn fuel a st.1), st.2)
  end.

Definition run (fuel : nat) (sched : list action)
    (st : HTTPDestination * list FullMessage)
  : HTTPDestination * list FullMessage :=
  fold_left (step fuel) sched st.

(** Every message for which [sendOne] has returned either waits in the
    queue or has been given its callback: the identifiers of the
    callbacks, followed by those of the messages [queued], are the
    identifiers of the messages [returned]. *)
Definition accounted (flag : Z) (d : HTTPDestination)
    (returned : list FullMessage) : Prop :=
  Ring.wf (sendQueue d)
  ∧ 2 <= Ring.Cap (sendQueue d)
  ∧ Ring.disposed (sendQueue d) = flag
  ∧ ∃ queued : list FullMessage,
      Ring.contents (sendQueue d) = map Some queued
      ∧ map callback_uid (calls d) ++ map Uid queued = map Uid returned.

End WithMessage.
Arguments HTTPDestination : clear implicits.
Arguments action : clear implicits.
End HTTP.

(** *** The destination that writes to stderr *)

Module Stderr.
Section WithUid.

Context {MyULID : Type}.

(** The destination as far as its messages go: whether [fatal] is closed,
    whether [once] has run, and the callbacks called so far, oldest
    first. *)
Record stderrDestination : Type := mkStderr {
  fatal : bool;
  once : bool;
  calls : list (callback MyULID)
}.

Definition NewStderrDestination : stderrDestination := mkStderr false false [].

(** [d.once.Do(func() { close(d.fatal) })]; [None] is the panic of closing
    a closed channel. *)
Definition close_fatal (d : stderrDestination) : option stderrDestination :=
  if once d then Some d
  else if fatal d then None
  else Some (mkStderr true true (calls d)).

(** [Send]; [encode_ok] tells whether [model.ChainEncode] succeeds,
    [write_ok] whether [os.Stderr.Write] does.  The boolean is
    [err != nil]. *)
Definition Send (d : stderrDestination) (uid : MyULID)
    (encode_ok write_ok : bool) : option (stderrDestination * bool) :=
  if negb encode_ok then
    Some (mkStderr (fatal d) (once d) (calls d ++ [Permerr uid]), true)
  else if negb write_ok then
    match close_fatal (mkStderr (fatal d) (once d) (calls d ++ [Nack uid])) with
    | Some d' => Some (d', true)
    | None => None
    end
  else Some (mkStderr (fatal d) (once d) (calls d ++ [Ack uid]), false).

(** The calls of [Send] one after the other, for messages given with the
    two answers of the environment. *)
Fixpoint send_all (d : stderrDestination)
    (msgs : list (MyULID * bool * bool)) : option stderrDestination :=
  match msgs with
  | [] => Some d
  | (uid, encode_ok, write_ok) :: rest =>
      match Send d uid encode_ok write_ok with
      | Some (d', _) => send_all d' rest
      | None => None
      end
  end.

(** The callback a message gets. *)
Definition callback_of (m : MyULID * bool * bool) : callback MyULID :=
  let '(uid, encode_ok, write_ok) := m in
  if negb encode_ok then Permerr uid
  else if negb write_ok then Nack uid
  else Ack uid.

End WithUid.
Arguments stderrDestination : clear implicits.
End Stderr.

End Dests.

(** ** Configuration provider child: [LaunchConfProvider] *)

Module ConfProvider.
Section WithParams.

(** [consul.ConnParams] with its zero value, and [json.Unmarshal] into a
    value of that type: [Unmarshal data v] is the value [v] holds after a
    successful decoding of [data] into it, [None] when decoding fails. *)
Context {ConnParams : Type} (zero : ConnParams)
        (Unmarshal : string -> ConnParams -> option ConnParams).

(** What the [confdir] case makes of the rest of the line
    ([strings.TrimSpace], and the join under [/tmp/conf] of the confined
    second copy). *)
Context (clean_confdir : string -> string).

(** The locals of the command loop, and the calls of [start] made so far
    with their arguments [confdir] and [params]. *)
Record provider : Type := mkProvider {
  confdir : string;
  params : ConnParams;
  started : list (string * ConnParams)
}.

Definition initial : provider := mkProvider "" zero [].

(** A command line, split by [strings.SplitN(text, " ", 2)]: the command
    and, when there is a second part, the rest of the line.  [start_ok] and
    [wconf_ok] tell whether [start] and [WConf] succeed for this command. *)
Record command_line : Type := mkCommand {
  command : string;
  rest : option string;
  start_ok : bool;
  wconf_ok : bool
}.

(** A command line for which [start] and [WConf] succeed. *)
Definition line (command : string) (rest : option string) : command_line :=
  mkCommand command rest true true.

(** How [LaunchConfProvider] returns: with [nil] or with an error. *)
Inductive exit : Type :=
| ExitOk
| ExitError.

(** The [consulparams] case of [services/configuration.go]; [None] in the
    second component: the loop goes on. *)
Definition consulparams_named (p : provider) (payload : string)
  : provider * option exit :=
  let newparams := zero in
  match Unmarshal payload (params p) with
  | Some _ => (mkProvider (confdir p) newparams (started p), None)
  | None => (p, Some ExitError)
  end.

(** The [consulparams] case of the second copy of the function (the file
    of package [services] that sets up the encrypted writer). *)
Definition consulparams_second (p : provider) (payload : string)
  : provider * option exit :=
  match Unmarshal payload zero with
  | Some newparams => (mkProvider (confdir p) newparams (started p), None)
  | None => (p, Some ExitError)
  end.

(** [start(confdir, params, r, logger)], as far as its arguments go. *)
Definition start (p : provider) : provider :=
  mkProvider (confdir p) (params p) (started p ++ [(confdir p, params p)]).

(** One turn of the command loop; [consulparams] is one of the two
    functions above. *)
Definition provider_step
    (consulparams : provider -> string -> provider * option exit)
    (p : provider) (c : command_line) : provider * option exit :=
  if String.eqb (command c) "start" then
    (start p, if start_ok c then None else Some ExitError)
  else if String.eqb (command c) "reload" then
    (start p,
     if start_ok c then (if wconf_ok c then None else Some ExitError)
     else None)
  else if String.eqb (command c) "confdir" then
    match rest c with
    | Some d => (mkProvider (clean_confdir d) (params p) (started p), None)
    | None => (p, Some ExitError)
    end
  else if String.eqb (command c) "consulparams" then
    match rest c with
    | Some payload => consulparams p payload
    | None => (p, Some ExitError)
    end
  else if String.eqb (command c) "stop" then (p, Some ExitOk)
  else (p, Some ExitError).

(** The loop over the command lines the scanner delivers: the state when
    the function returns or the input ends. *)
Fixpoint LaunchConfProvider
    (consulparams : provider -> string -> provider * option exit)
    (p : provider) (cs : list command_line) : provider :=
  match cs with
  | [] => p
  | c :: cs' =>
      match provider_step consulparams p c with
      | (p', None) => LaunchConfProvider consulparams p' cs'
      | (p', Some _) => p'
      end
  end.

End WithParams.
Arguments provider : clear implicits.
End ConfProvider.

(** ** services/configuration.go: the goroutine that reads the
    configuration child *)

Module ConfService.
Section WithConf.

(** [conf.BaseConfig] with [json.Unmarshal] into a new value of that
    type, and the errors that [fmt.Errorf] makes of a message. *)
Context {BaseConfig error_value : Type}
        (Unmarshal : string -> option BaseConfig)
        (Errorf : string -> error_value).

(** The goroutine of [Start]: [once], its local [kill], and the two
    channels it writes to, [startedChan] and [c.output], each with the
    values sent on it and whether it is closed.  The channels have no
    buffer: a send goes through because [Start] waits at [<-startedChan]
    and the serve child takes what comes on [c.output]. *)
Record reader : Type := mkReader {
  once : bool;
  kill : bool;
  started_sent : list error_value;
  started_closed : bool;
  output_sent : list BaseConfig;
  output_closed : bool
}.

Definition new_reader : reader := mkReader false false [] false [] false.

Definition set_kill (r : reader) : reader :=
  mkReader (once r) true (started_sent r) (started_closed r)
           (output_sent r) (output_closed r).

(** [startedChan <- e], [close(startedChan)], [c.output <- &newconf] and
    [close(c.output)]; [None] is the panic on a closed channel. *)
Definition send_started (e : error_value) (r : reader) : option reader :=
  if started_closed r then None
  else Some (mkReader (once r) (kill r) (started_sent r ++ [e])
                      (started_closed r) (output_sent r) (output_closed r)).

Definition close_started (r : reader) : option reader :=
  if started_closed r then None
  else Some (mkReader (once r) (kill r) (started_sent r) true
                      (output_sent r) (output_closed r)).

Definition send_output (newconf : BaseConfig) (r : reader) : option reader :=
  if output_closed r then None
  else Some (mkReader (once r) (kill r) (started_sent r) (started_closed r)
                      (output_sent r ++ [newconf]) (output_closed r)).

Definition close_output (r : reader) : option reader :=
  if output_closed r then None
  else Some (mkReader (once r) (kill r) (started_sent r) (started_closed r)
                      (output_sent r) true).

(** [once.Do(f)] *)
Definition once_Do (f : reader -> option reader) (r : reader)
  : option reader :=
  if once r then Some r
  else f (mkReader true (kill r) (started_sent r) (started_closed r)
                   (output_sent r) (output_closed r)).

(** [once.Do(func() { startedChan <- fmt.Errorf(msg); close(startedChan) })] *)
Definition report_error (msg : string) (r : reader) : option reader :=
  once_Do (fun r => match send_started (Errorf msg) r with
                    | Some r' => close_started r'
                    | None => None
                    end) r.

(** A line of the child, split by [strings.SplitN(text, " ", 2)]. *)
Record child_line : Type := mkLine {
  command : string;
  rest : option string
}.

(** The body of [for scanner.Scan() { ... }] for one line; the boolean
    tells whether the goroutine returns. *)
Definition on_line (r : reader) (l : child_line) : option (reader * bool) :=
  if String.eqb (command l) "newconf" then
    match rest l with
    | Some payload =>
        match Unmarshal payload with
        | Some newconf =>
            match send_output newconf r with
            | Some r' => Some (r', false)
            | None => None
            end
        | None => Some (set_kill r, true)
        end
    | None => Some (set_kill r, true)
    end
  else if String.eqb (command l) "started" then
    match once_Do close_started r with
    | Some r' => Some (r', false)
    | None => None
    end
  else if String.eqb (command l) "starterror" then
    let '(msg, r) :=
      match rest l with
      | Some msg => (msg, r)
      | None => ("Received empty starterror from child"%string, set_kill r)
      end in
    match report_error msg r with
    | Some r' => Some (r', true)
    | None => None
    end
  else if String.eqb (command l) "reloaded" then Some (r, false)
  else
    match report_error
            ("Unknown command received from configuration child" ++ ": "
             ++ command l) (set_kill r) with
    | Some r' => Some (r', true)
    | None => None
    end.

(** The deferred function, as far as the channels go. *)
Definition deferred (r : reader) : option reader :=
  match report_error "Unexpected end of configuration service" r with
  | Some r' => close_output r'
  | None => None
  end.

(** The goroutine over the lines that the scanner delivers. *)
Fixpoint scan (r : reader) (lines : list child_line) : option reader :=
  match lines with
  | [] => deferred r
  | l :: lines' =>
      match on_line r l with
      | Some (r', false) => scan r' lines'
      | Some (r', true) => deferred r'
      | None => None
      end
  end.

(** What [Start] receives at [err = <-startedChan]: [Some None] is [nil],
    the value of a closed channel; [None]: nothing to receive yet. *)
Definition started_answer (r : reader) : option (option error_value) :=
  match started_sent r with
  | e :: _ => Some (Some e)
  | [] => if started_closed r then Some None else None
  end.

(** A line after which the goroutine reads on. *)
Definition goes_on (l : child_line) : bool :=
  if String.eqb (command l) "newconf"
  then bool_decide (is_Some (rest l ≫= Unmarshal))
  else String.eqb (command l) "started" || String.eqb (command l) "reloaded".

(** The configuration a line carries. *)
Definition conf_of (l : child_line) : option BaseConfig :=
  if String.eqb (command l) "newconf" then rest l ≫= Unmarshal else None.

Definition says_started (l : child_line) : bool :=
  String.eqb (command l) "started".

(** While the goroutine runs: the channel of configurations is open, and
    the channel of the start is closed exactly when [once] has run, after
    at most one error. *)
Definition reading (r : reader) : Prop :=
  output_closed r = false
  ∧ started_closed r = once r
  ∧ (once r = false → started_sent r = [])
  ∧ (length (started_sent r) <= 1)%nat.

End WithConf.
Arguments reader : clear implicits.
End ConfService.

(** ** Serve child: what a new configuration replaces *)

Module Serve.
Section WithSections.

(** The sections of [conf.BaseConfig] are declared in package [conf], which
    is not embedded here: [StoreConfig] is the type of the [Store] section, [MainFields]
    the fields of [Main] other than [EncryptIPC], [Sections] all the other
    sections together. *)
Context {StoreConfig MainFields Sections : Type}.

Record MainConfig : Type := mkMain {
  EncryptIPC : bool;
  main_fields : MainFields
}.

Record BaseConfig : Type := mkConf {
  Main : MainConfig;
  Store : StoreConfig;
  sections : Sections
}.

(** The serve child as far as its main loop goes: the active
    configuration, whether [shutdown] was called, and the number of calls
    of [Reload]. *)
Record serveChild : Type := mkChild {
  conf : BaseConfig;
  shutdown : bool;
  reloads : nat
}.

(** What the second [select] of the main loop receives. *)
Inductive event : Type :=
| NewConf (newConf : option BaseConfig) (reload_ok : bool)
| ShutdownDone
| SigHup
| SigTerm
| SigOther.

(** The case [newConf := <-ch.confChan]. *)
Definition on_newConf (ch : serveChild) (newConf : option BaseConfig)
    (reload_ok : bool) : serveChild :=
  match newConf with
  | Some newConf =>
      let newConf := mkConf (Main newConf) (Store (conf ch)) (sections newConf) in
      let newConf := mkConf (mkMain (EncryptIPC (Main (conf ch)))
                                    (main_fields (Main newConf)))
                            (Store newConf) (sections newConf) in
      mkChild newConf (if reload_ok then shutdown ch else true)
              (S (reloads ch))
  | None => mkChild (conf ch) true (reloads ch)
  end.

Definition serve_step (ch : serveChild) (e : event) : serveChild :=
  if shutdown ch then ch
  else
    match e with
    | NewConf newConf reload_ok => on_newConf ch newConf reload_ok
    | ShutdownDone => ch
    | SigHup => ch
    | SigTerm => mkChild (conf ch) true (reloads ch)
    | SigOther => ch
    end.

Definition Serve (ch : serveChild) (es : list event) : serveChild :=
  fold_left serve_step es ch.

End WithSections.
Arguments BaseConfig : clear implicits.
Arguments MainConfig : clear implicits.
Arguments serveChild : clear implicits.
Arguments event : clear implicits.
End Serve.

(** ** Package conf of the store server: [GConfig.Reload] *)

Module Conf.
Section WithConfig.

(** [SyslogConfig] and [KafkaConfig] stand for the [Syslog] and [Kafka]
    sections; [Handles] for the fields of [GConfig] that are not
    configuration values ([Updated], [Client], [Logger]). *)
Context {SyslogConfig KafkaConfig ConnParams Handles : Type}.

Record StoreConfig : Type := mkStore {
  Dirname : string
}.

Record BaseConfig : Type := mkBase {
  Syslog : list SyslogConfig;
  Kafka : KafkaConfig;
  Store : StoreConfig
}.

Record GConfig : Type := mkG {
  base : BaseConfig;
  GDirname : string;
  ConsulPrefix : string;
  ConsulParams : ConnParams;
  handles : Handles
}.

(** [Reload]: [InitLoad] stands for the call
    [InitLoad(c.Dirname, c.ConsulParams, c.ConsulPrefix, c.Logger)], which
    answers a new configuration or an error. *)
Definition Reload
    (InitLoad : string -> ConnParams -> string -> option GConfig)
    (c : GConfig) : option GConfig :=
  match InitLoad (GDirname c) (ConsulParams c) (ConsulPrefix c) with
  | None => None
  | Some newConf =>
      Some (mkG (mkBase (Syslog (base newConf)) (Kafka (base newConf))
                        (mkStore (Dirname (Store (base c)))))
                (GDirname newConf) (ConsulPrefix newConf)
                (ConsulParams newConf) (handles newConf))
  end.

End WithConfig.
Arguments GConfig : clear implicits.
Arguments BaseConfig : clear implicits.

(** *** Kafka versions *)

(** [type KafkaVersion [4]int]: the four components, [k0] for index 0. *)
Record KafkaVersion : Type := mkVersion {
  k0 : Z;
  k1 : Z;
  k2 : Z;
  k3 : Z
}.

(** [ver[i] = x]; [None] is the panic "index out of range". *)
Definition set_index (ver : KafkaVersion) (i : nat) (x : Z)
  : option KafkaVersion :=
  match i with
  | 0%nat => Some (mkVersion x (k1 ver) (k2 ver) (k3 ver))
  | 1%nat => Some (mkVersion (k0 ver) x (k2 ver) (k3 ver))
  | 2%nat => Some (mkVersion (k0 ver) (k1 ver) x (k3 ver))
  | 3%nat => Some (mkVersion (k0 ver) (k1 ver) (k2 ver) x)
  | _ => None
  end.

Definition V0_8_2_0 : KafkaVersion := mkVersion 0 8 2 0.
Definition V0_8_2_1 : KafkaVersion := mkVersion 0 8 2 1.
Definition V0_8_2_2 : KafkaVersion := mkVersion 0 8 2 2.
Definition V0_9_0_0 : KafkaVersion := mkVersion 0 9 0 0.
Definition V0_9_0_1 : KafkaVersion := mkVersion 0 9 0 1.
Definition V0_10_0_0 : KafkaVersion := mkVersion 0 10 0 0.
Definition V0_10_0_1 : KafkaVersion := mkVersion 0 10 0 1.
Definition V0_10_1_0 : KafkaVersion := mkVersion 0 10 1 0.
Definition V0_10_2_0 : KafkaVersion := mkVersion 0 10 2 0.

(** The constants of package [sarama] that [ToSaramaVersion] names. *)
Inductive sarama_version : Type :=
| sarama_V0_8_2_0
| sarama_V0_8_2_1
| sarama_V0_8_2_2
| sarama_V0_9_0_0
| sarama_V0_9_0_1
| sarama_V0_10_0_0
| sarama_V0_10_1_0
| sarama_V0_10_2_0.

(** The version number a constant of [sarama] stands for. *)
Definition number_of (s : sarama_version) : KafkaVersion :=
  match s with
  | sarama_V0_8_2_0 => V0_8_2_0
  | sarama_V0_8_2_1 => V0_8_2_1
  | sarama_V0_8_2_2 => V0_8_2_2
  | sarama_V0_9_0_0 => V0_9_0_0
  | sarama_V0_9_0_1 => V0_9_0_1
  | sarama_V0_10_0_0 => V0_10_0_0
  | sarama_V0_10_1_0 => V0_10_1_0
  | sarama_V0_10_2_0 => V0_10_2_0
  end.

Definition Greater (l r : KafkaVersion) : bool :=
  if k0 l >? k0 r then true
  else if k0 l <? k0 r then false
  else if k1 l >? k1 r then true
  else if k1 l <? k1 r then false
  else if k2 l >? k2 r then true
  else if k2 l <? k2 r then false
  else if k3 l >=? k3 r then true
  else false.

(** The two errors of [ParseVersion], both a [ConfigurationCheckError]. *)
Inductive version_error : Type :=
| InvalidFormat
| MinimalVersion.

(** [ToSaramaVersion], with its chain of tests in the order of the
    source. *)
Definition ToSaramaVersion (l : KafkaVersion)
  : sarama_version + version_error :=
  if Greater l V0_10_2_0 then inl sarama_V0_10_2_0
  else if Greater l V0_10_1_0 then inl sarama_V0_10_1_0
  else if Greater l V0_10_0_1 then inl sarama_V0_10_1_0
  else if Greater l V0_10_0_0 then inl sarama_V0_10_0_0
  else if Greater l V0_9_0_1 then inl sarama_V0_9_0_1
  else if Greater l V0_9_0_0 then inl sarama_V0_9_0_0
  else if Greater l V0_8_2_2 then inl sarama_V0_8_2_2
  else if Greater l V0_8_2_1 then inl sarama_V0_8_2_1
  else if Greater l V0_8_2_0 then inl sarama_V0_8_2_0
  else inr MinimalVersion.

(** The loop of [ParseVersion] over the parts of the string, from index
    [i] on: [ver[i], e = strconv.Atoi(n)] stores the number (zero when
    [Atoi] fails) before [e] is tested.  The outer [None] is the panic of
    an index out of range. *)
Fixpoint parse_parts (ver : KafkaVersion) (i : nat) (parts : list (list byte))
  : option (KafkaVersion + version_error) :=
  match parts with
  | [] => Some (inl ver)
  | n :: rest =>
      match set_index ver i (default 0 (Bytes.Atoi n)) with
      | None => None
      | Some ver' =>
          match Bytes.Atoi n with
          | None => Some (inr InvalidFormat)
          | Some _ => parse_parts ver' (S i) rest
          end
      end
  end.

Definition ParseVersion (v : list byte)
  : option (sarama_version + version_error) :=
  match parse_parts (mkVersion 0 0 0 0) 0 (Bytes.SplitN v Bytes.DOT 4) with
  | None => None
  | Some (inr e) => Some (inr e)
  | Some (inl ver) => Some (ToSaramaVersion ver)
  end.

(** *** [Complete] *)

(** [sarama.CompressionCodec]. *)
Inductive CompressionCodec : Type :=
| CompressionNone
| CompressionGZIP
| CompressionSnappy
| CompressionLZ4.

(** What the verb [%d] prints for an [int]. *)
Definition FormatInt (i : Z) : string := NilZero.string_of_int (Z.to_int i).

(** The errors [Complete] returns, each a [ConfigurationCheckError]. *)
Inductive check_error : Type :=
| VersionError (e : version_error)
| TopicTemplateError
| PartitionTemplateError
| BindAddrError (BindAddr : string).

Section WithTemplates.

(** [Template] and [IP] stand for [*template.Template] and [net.IP].
    [Parse name text] is [template.New(name).Parse(text)], [None] when it
    returns an error; [ParseIP] is [net.ParseIP], [None] for [nil];
    [IsUnspecified] and [IPString] are the methods of [net.IP].
    [KafkaFields] holds the fields of [KafkaConfig] that [Complete] does not
    touch; [ConnParams] and [Handles] are as for [GConfig]. *)
Context {Template IP KafkaFields ConnParams Handles : Type}.
Context (Parse : string -> string -> option Template)
        (ParseIP : string -> option IP)
        (IsUnspecified : IP -> bool)
        (IPString : IP -> string).

Record KafkaConfig : Type := mkKafka {
  Version : string;
  Compression : string;
  pVersion : option sarama_version;
  pCompression : CompressionCodec;
  kafka_fields : KafkaFields
}.

Record SyslogConfig : Type := mkSyslog {
  Port : Z;
  BindAddr : string;
  Format : string;
  TopicTmpl : string;
  PartitionTmpl : string;
  Protocol : string;
  DontParseSD : bool;
  TopicTemplate : option Template;
  PartitionKeyTemplate : option Template;
  BindIP : option IP;
  ListenAddr : string
}.

(** The entry [Complete] installs when the configuration has none. *)
Definition default_syslog : SyslogConfig :=
  {| Port := 2514;
     BindAddr := "127.0.0.1";
     Format := "rfc5424";
     TopicTmpl := "rsyslog-{{.Fields.Appname}}";
     PartitionTmpl := "mypk-{{.Fields.Hostname}}";
     Protocol := "relp";
     DontParseSD := false;
     TopicTemplate := None;
     PartitionKeyTemplate := None;
     BindIP := None;
     ListenAddr := "" |}.

(** The defaults the loop writes into [c.Syslog[i]] for the fields that
    the copy [syslogConf] of the entry has empty. *)
Definition fill_defaults (syslogConf : SyslogConfig) : SyslogConfig :=
  {| Port := if Port syslogConf =? 0 then 2514 else Port syslogConf;
     BindAddr := if String.eqb (BindAddr syslogConf) "" then "127.0.0.1"
                 else BindAddr syslogConf;
     Format := if String.eqb (Format syslogConf) "" then "rfc5424"
               else Format syslogConf;
     TopicTmpl := if String.eqb (TopicTmpl syslogConf) ""
                  then "rsyslog-{{.Fields.Appname}}"
                  else TopicTmpl syslogConf;
     PartitionTmpl := if String.eqb (PartitionTmpl syslogConf) ""
                      then "mypk-{{.Fields.Hostname}}"
                      else PartitionTmpl syslogConf;
     Protocol := if String.eqb (Protocol syslogConf) "" then "relp"
                 else Protocol syslogConf;
     DontParseSD := DontParseSD syslogConf;
     TopicTemplate := TopicTemplate syslogConf;
     PartitionKeyTemplate := PartitionKeyTemplate syslogConf;
     BindIP := BindIP syslogConf;
     ListenAddr := ListenAddr syslogConf |}.

(** One pass through the loop over [c.Syslog]: the entry as the pass
    leaves it, and the error it returns with, if any. *)
Definition complete_entry (syslogConf : SyslogConfig)
  : SyslogConfig * option check_error :=
  let s := fill_defaults syslogConf in
  let s := {| Port := Port s; BindAddr := BindAddr s; Format := Format s;
              TopicTmpl := TopicTmpl s; PartitionTmpl := PartitionTmpl s;
              Protocol := Protocol s; DontParseSD := DontParseSD s;
              TopicTemplate := Parse "topic" (TopicTmpl s);
              PartitionKeyTemplate := PartitionKeyTemplate s;
              BindIP := BindIP s; ListenAddr := ListenAddr s |} in
  match TopicTemplate s with
  | None => (s, Some TopicTemplateError)
  | Some _ =>
      let s := {| Port := Port s; BindAddr := BindAddr s; Format := Format s;
                  TopicTmpl := TopicTmpl s; PartitionTmpl := PartitionTmpl s;
                  Protocol := Protocol s; DontParseSD := DontParseSD s;
                  TopicTemplate := TopicTemplate s;
                  PartitionKeyTemplate := Parse "partition" (PartitionTmpl s);
                  BindIP := BindIP s; ListenAddr := ListenAddr s |} in
      match PartitionKeyTemplate s with
      | None => (s, Some PartitionTemplateError)
      | Some _ =>
          let s := {| Port := Port s; BindAddr := BindAddr s;
                      Format := Format s; TopicTmpl := TopicTmpl s;
                      PartitionTmpl := PartitionTmpl s; Protocol := Protocol s;
                      DontParseSD := DontParseSD s;
                      TopicTemplate := TopicTemplate s;
                      PartitionKeyTemplate := PartitionKeyTemplate s;
                      BindIP := ParseIP (BindAddr s);
                      ListenAddr := ListenAddr s |} in
          match BindIP s with
          | None => (s, Some (BindAddrError (BindAddr s)))
          | Some ip =>
              ({| Port := Port s; BindAddr := BindAddr s; Format := Format s;
                  TopicTmpl := TopicTmpl s; PartitionTmpl := PartitionTmpl s;
                  Protocol := Protocol s; DontParseSD := DontParseSD s;
                  TopicTemplate := TopicTemplate s;
                  PartitionKeyTemplate := PartitionKeyTemplate s;
                  BindIP := BindIP s;
                  ListenAddr :=
                    if IsUnspecified ip
                    then (":" ++ FormatInt (Port s))%string
                    else (IPString ip ++ ":" ++ FormatInt (Port s))%string |},
               None)
          end
      end
  end.

(** The loop: the entries in turn, up to the first error. *)
Fixpoint complete_entries (l : list SyslogConfig)
  : list SyslogConfig * option check_error :=
  match l with
  | [] => ([], None)
  | syslogConf :: rest =>
      match complete_entry syslogConf with
      | (s, Some e) => (s :: rest, Some e)
      | (s, None) =>
          let '(rest', e) := complete_entries rest in (s :: rest', e)
      end
  end.

(** [Complete]: the configuration as the call leaves it and the error it
    returns; the outer [None] is a panic. *)
Definition Complete
    (c : GConfig SyslogConfig KafkaConfig ConnParams Handles)
  : option (GConfig SyslogConfig KafkaConfig ConnParams Handles
            * option check_error) :=
  let k := Kafka (base c) in
  let codec :=
    if String.eqb (Compression k) "snappy" then CompressionSnappy
    else if String.eqb (Compression k) "gzip" then CompressionGZIP
    else if String.eqb (Compression k) "lz4" then CompressionLZ4
    else CompressionNone in
  let with_kafka (v : option sarama_version) (syslog : list SyslogConfig) :=
    mkG (mkBase syslog
                (mkKafka (Version k) (Compression k) v codec (kafka_fields k))
                (Store (base c)))
        (GDirname c) (ConsulPrefix c) (ConsulParams c) (handles c) in
  match ParseVersion (Bytes.of_string (Version k)) with
  | None => None
  | Some (inr e) =>
      Some (with_kafka None (Syslog (base c)), Some (VersionError e))
  | Some (inl v) =>
      let syslog :=
        match Syslog (base c) with
        | [] => [default_syslog]
        | _ :: _ => Syslog (base c)
        end in
      let '(syslog', e) := complete_entries syslog in
      Some (with_kafka (Some v) syslog', e)
  end.

(** An entry that lacks nothing a listener needs: no empty field, the two
    templates compiled, the address parsed, the listening address
    printed. *)
Definition completed (s : SyslogConfig) : Prop :=
  Port s ≠ 0
  ∧ BindAddr s ≠ ""
  ∧ Format s ≠ ""
  ∧ Protocol s ≠ ""
  ∧ TopicTmpl s ≠ ""
  ∧ PartitionTmpl s ≠ ""
  ∧ TopicTemplate s = Parse "topic" (TopicTmpl s)
  ∧ PartitionKeyTemplate s = Parse "partition" (PartitionTmpl s)
  ∧ BindIP s = ParseIP (BindAddr s)
  ∧ is_Some (TopicTemplate s)
  ∧ is_Some (PartitionKeyTemplate s)
  ∧ ∃ ip, BindIP s = Some ip
          ∧ ListenAddr s
            = ((if IsUnspecified ip then "" else IPString ip)
               ++ ":" ++ FormatInt (Port s))%string.

End WithTemplates.
Arguments KafkaConfig : clear implicits.
Arguments SyslogConfig : clear implicits.

End Conf.

(** ** sys/binderserver.go: the connection tables of the binder *)

Module Binder.

(** [strings.SplitN(addr, ":", 2)[0]] *)
Fixpoint lnet_of (addr : string) : string :=
  match addr with
  | EmptyString => EmptyString
  | String c rest =>
      if Ascii.eqb c ":"%char then EmptyString else String c (lnet_of rest)
  end.

(** The dynamic type of a [net.Conn] or [net.PacketConn] value, which the
    type assertions of the goroutine test. *)
Inductive conn_type : Type :=
| UnixConn
| TCPConn
| UDPConn.

Global Instance conn_type_eq_dec : EqDecision conn_type.
Proof. solve_decision. Defined.

(** A connection: its dynamic type and the socket it stands for. *)
Record conn : Type := mkSock {
  sock_type : conn_type;
  sock : nat
}.

(** [BinderConn] and [BinderPacketConn] have the same three fields. *)
Record BinderConn : Type := mkBC {
  Uid : string;
  Conn : option conn;
  Addr : string
}.

(** What the binder wrote to the child: [newconn <uid> <addr>] with the
    rights of the descriptor of [file]. *)
Record newconn : Type := mkNewconn {
  newconn_uid : string;
  newconn_addr : string;
  newconn_fd : nat
}.

Inductive status : Type :=
| Running
| Exited
| Crashed.

(** The three maps of the goroutine of [Binder], the connections and files
    it has closed, and the messages it has written to the child. *)
Record binder : Type := mkBinder {
  connections : gmap string conn;
  packetconnections : gmap string conn;
  connfiles : gmap string nat;
  closed_conns : list conn;
  closed_files : list nat;
  sent : list newconn;
  state : status
}.

Definition start : binder := mkBinder ∅ ∅ ∅ [] [] [] Running.

Definition values {A : Type} (m : gmap string A) : list A :=
  (map_to_list m).*2.

(** The branch [len(bc.Uid) == 0]: every connection of [table] is closed,
    with its file when it has one, and the table is replaced by an empty
    one. *)
Definition files_of (table : gmap string conn) (files : gmap string nat)
  : gmap string nat :=
  filter (fun kv => is_Some (table !! kv.1)) files.

Definition files_but (table : gmap string conn) (files : gmap string nat)
  : gmap string nat :=
  filter (fun kv => table !! kv.1 = None) files.

(** The case [bc := <-schan]; [file] is what [conn.File()] answers when
    the case comes to call it. *)
Definition on_schan (b : binder) (bc : BinderConn) (file : option nat)
  : binder :=
  match Conn bc with
  | None =>
      if String.eqb (Uid bc) "" then
        mkBinder ∅ (packetconnections b)
                 (files_but (connections b) (connfiles b))
                 (closed_conns b ++ values (connections b))
                 (closed_files b
                    ++ values (files_of (connections b) (connfiles b)))
                 (sent b) (state b)
      else
        mkBinder (delete (Uid bc) (connections b)) (packetconnections b)
                 (delete (Uid bc) (connfiles b))
                 (closed_conns b
                    ++ option_list (connections b !! Uid bc))
                 (closed_files b ++ option_list (connfiles b !! Uid bc))
                 (sent b) (state b)
  | Some c =>
      let lnet := lnet_of (Addr bc) in
      let wanted := if String.eqb lnet "unix" then UnixConn else TCPConn in
      if decide (sock_type c = wanted) then
        match file with
        | Some connFile =>
            mkBinder (<[Uid bc := c]> (connections b)) (packetconnections b)
                     (<[Uid bc := connFile]> (connfiles b))
                     (closed_conns b) (closed_files b)
                     (sent b ++ [mkNewconn (Uid bc) (Addr bc) connFile])
                     (state b)
        | None => b
        end
      else
        mkBinder (connections b) (packetconnections b) (connfiles b)
                 (closed_conns b) (closed_files b) (sent b) Crashed
  end.

(** The case [bc := <-pchan]. *)
Definition on_pchan (b : binder) (bc : BinderConn) (file : option nat)
  : binder :=
  match Conn bc with
  | None =>
      if String.eqb (Uid bc) "" then
        mkBinder (connections b) ∅
                 (files_but (packetconnections b) (connfiles b))
                 (closed_conns b ++ values (packetconnections b))
                 (closed_files b
                    ++ values (files_of (packetconnections b) (connfiles b)))
                 (sent b) (state b)
      else
        mkBinder (connections b) (delete (Uid bc) (packetconnections b))
                 (delete (Uid bc) (connfiles b))
                 (closed_conns b
                    ++ option_list (packetconnections b !! Uid bc))
                 (closed_files b ++ option_list (connfiles b !! Uid bc))
                 (sent b) (state b)
  | Some c =>
      let lnet := lnet_of (Addr bc) in
      let wanted := if String.eqb lnet "unixgram" then UnixConn else UDPConn in
      if decide (sock_type c = wanted) then
        match file with
        | Some connFile =>
            mkBinder (connections b) (<[Uid bc := c]> (packetconnections b))
                     (<[Uid bc := connFile]> (connfiles b))
                     (closed_conns b) (closed_files b)
                     (sent b ++ [mkNewconn (Uid bc) (Addr bc) connFile])
                     (state b)
        | None => b
        end
      else
        mkBinder (connections b) (packetconnections b) (connfiles b)
                 (closed_conns b) (closed_files b) (sent b) Crashed
  end.

(** The case [<-ctx.Done()], reached when [Binder] returns. *)
Definition on_done (b : binder) : binder :=
  mkBinder (connections b) (packetconnections b) (connfiles b)
           (closed_conns b ++ values (packetconnections b))
           (closed_files b) (sent b) Exited.

(** What reaches the binder: a connection accepted by a listener (sent on
    [schan]), a packet socket bound by a [listen] command (sent on
    [pchan]), each with the answer of [File()], or a command line of the
    parent, already split into the command and its trimmed arguments. *)
Inductive input : Type :=
| Accepted (bc : BinderConn) (file : option nat)
| PacketBound (bc : BinderConn) (file : option nat)
| Command (command args : string).

(** The [switch command] of the main loop, as far as the tables of the
    goroutine go: [closeconn] and [reset] send on both channels, [byebye]
    returns; [listen] acts through [Accepted] and [PacketBound];
    [stoplisten] touches the listeners only. *)
Definition on_command (b : binder) (command args : string) : binder :=
  if String.eqb command "closeconn" then
    on_pchan (on_schan b (mkBC args None "") None) (mkBC args None "") None
  else if String.eqb command "reset" then
    on_pchan (on_schan b (mkBC "" None "") None) (mkBC "" None "") None
  else if String.eqb command "byebye" then on_done b
  else b.

Definition step (b : binder) (i : input) : binder :=
  match state b with
  | Running =>
      match i with
      | Accepted bc file => on_schan b bc file
      | PacketBound bc file => on_pchan b bc file
      | Command command args => on_command b command args
      end
  | _ => b
  end.

(** [Binder]: the inputs one after the other, from the state [b]. *)
Definition Binder (b : binder) (inputs : list input) : binder :=
  fold_left step inputs b.

(** An input that is neither a [closeconn] for [uid] or for all, nor a
    [reset], nor [byebye], nor a connection under the identifier [uid]
    (the generator hands out each identifier once). *)
Definition keeps (uid : string) (i : input) : bool :=
  match i with
  | Accepted bc _ | PacketBound bc _ =>
      bool_decide (is_Some (Conn bc)) && negb (String.eqb (Uid bc) uid)
  | Command command args =>
      negb (String.eqb command "reset")
      && negb (String.eqb command "byebye")
      && negb (String.eqb command "closeconn"
               && (String.eqb args uid || String.eqb args ""))
  end.

(** The three tables at [uid]. *)
Definition entry (b : binder) (uid : string)
  : option conn * option conn * option nat :=
  (connections b !! uid, packetconnections b !! uid, connfiles b !! uid).

(** Every file of [connfiles] belongs to a connection of one of the two
    tables. *)
Definition files_owned (b : binder) : Prop :=
  ∀ uid, is_Some (connfiles b !! uid) →
         is_Some (connections b !! uid)
         ∨ is_Some (packetconnections b !! uid).

(** The inputs as the listeners and the command loop produce them: what
    comes from a listener carries a connection; the messages without
    connection come in pairs, from [closeconn] and [reset]. *)
Definition from_listener (i : input) : bool :=
  match i with
  | Accepted bc _ | PacketBound bc _ => bool_decide (is_Some (Conn bc))
  | Command _ _ => true
  end.

End Binder.

(** * Properties *)

(** ** Runs of the model on small inputs *)

(** A ring asked for three slots has four; a fifth [Put] waits. *)
Example ring_of_three_holds_four :
  Ring.Len (Ring.run_calls 5 (Ring.NewRawTCPRing 3)
              [Ring.CallPut (Some 7%nat); Ring.CallPut (Some 8%nat);
               Ring.CallPut (Some 7%nat); Ring.CallPut (Some 8%nat);
               Ring.CallPut (Some 8%nat)]) = 4.
Proof. vm_compute. reflexivity. Qed.

(** A line that starts with ['<'], once its LF is there. *)
Example tcpsplit_line :
  Network.TcpSplit (Bytes.of_string "<14>hello" ++ [Bytes.LF]) false
  = Network.SplitRet 10 (Bytes.of_string "<14>hello") None.
Proof. vm_compute. reflexivity. Qed.

(** The same line before its LF has arrived: [getline] slices up to
    [-1]. *)
Example tcpsplit_line_without_lf :
  Network.TcpSplit (Bytes.of_string "<14>hello") false = Network.SplitPanic.
Proof. vm_compute. reflexivity. Qed.

(** A leading token that is not a number: the line is the frame. *)
Example tcpsplit_not_a_number :
  Network.TcpSplit
    (Bytes.of_string " hello world" ++ [Bytes.LF] ++ Bytes.of_string "x") false
  = Network.SplitRet 13 (Bytes.of_string "hello world") None.
Proof. vm_compute. reflexivity. Qed.

(** A negative count is a number for [Atoi]; the slice that follows has
    its upper bound below its lower bound. *)
Example tcpsplit_negative_count :
  Network.TcpSplit
    (Bytes.of_string "-1 hello world" ++ [Bytes.LF]) false
  = Network.SplitPanic.
Proof. vm_compute. reflexivity. Qed.

(** ** The TCP destination acknowledges one message late *)

Section TCPDestinationProperties.

Context {MyULID : Type} `{EqDecision MyULID} (ZeroUid : MyULID).

Local Abbreviation dest := (Dests.TCPDestination MyULID).
Local Abbreviation sendOne := (Dests.sendOne ZeroUid).
Local Abbreviation Send := (Dests.Send ZeroUid).
Local Abbreviation fresh_dest := (Dests.NewTCPDestination ZeroUid).

Lemma sendOne_calls (d : dest) uid err :
  Dests.calls (sendOne d uid err).1 = Dests.calls d ++ Dests.new_calls ZeroUid d uid err.
Proof.
  destruct err; simpl.
  - destruct (decide (Dests.previousUid d = ZeroUid)); simpl;
      [by rewrite app_nil_r | done].
  - done.
  - destruct (decide (Dests.previousUid d = ZeroUid)); simpl;
      [done | by rewrite <- app_assoc].
Qed.

Lemma sendOne_previousUid (d : dest) uid err :
  Dests.previousUid (sendOne d uid err).1 =
  match err with
  | Dests.SendOk => uid
  | Dests.SendEncodingError => Dests.previousUid d
  | Dests.SendWriteError => ZeroUid
  end.
Proof.
  destruct err; simpl; try done;
    by destruct (decide (Dests.previousUid d = ZeroUid)).
Qed.

Lemma sendOne_fatal (d : dest) uid err :
  Dests.fatal (sendOne d uid err).1 =
  match err with
  | Dests.SendWriteError => true
  | _ => Dests.fatal d
  end.
Proof.
  destruct err; simpl; try done.
  by destruct (decide (Dests.previousUid d = ZeroUid)).
Qed.

Lemma Send_snoc (d : dest) msgs m :
  Send d (msgs ++ [m]) = (sendOne (Send d msgs) m.1 m.2).1.
Proof. unfold Dests.Send. by rewrite fold_left_app. Qed.

(** The pending uid is the uid of a message written with success. *)
Lemma Send_pending_was_written msgs :
  Dests.previousUid (Send fresh_dest msgs) ≠ ZeroUid →
  In (Dests.previousUid (Send fresh_dest msgs), Dests.SendOk) msgs.
Proof.
  induction msgs as [|m msgs IH] using rev_ind.
  - simpl. congruence.
  - rewrite Send_snoc, sendOne_previousUid. destruct m as [uid err].
    simpl. intros Hne. apply in_or_app.
    destruct err; [right; left; done | left; auto | congruence].
Qed.

(** C10. In the TCP destination, a send that succeeds acknowledges the uid
    of the message sent before (if one is pending) and nothing else, and
    leaves the current uid pending; an encoding error reports a permanent
    error for the current uid only and keeps the pending uid; a write
    error nacks the current uid and the pending one, forgets the pending
    uid and closes the fatal channel.  Hence along any sequence of sends
    from a new destination, a uid is acknowledged only in the step in
    which a later message is written with success, after it was itself
    written with success. *)
Theorem C10_tcp_dest_acks_one_message_late :
  (∀ (d : dest) uid,
     Dests.calls (sendOne d uid Dests.SendOk).1
       = Dests.calls d ++
         (if decide (Dests.previousUid d = ZeroUid) then []
          else [Dests.Ack (Dests.previousUid d)])
     ∧ Dests.previousUid (sendOne d uid Dests.SendOk).1 = uid
     ∧ Dests.fatal (sendOne d uid Dests.SendOk).1 = Dests.fatal d
     ∧ (sendOne d uid Dests.SendOk).2 = false)
  ∧ (∀ (d : dest) uid,
     Dests.calls (sendOne d uid Dests.SendEncodingError).1
       = Dests.calls d ++ [Dests.Permerr uid]
     ∧ Dests.previousUid (sendOne d uid Dests.SendEncodingError).1
       = Dests.previousUid d
     ∧ Dests.fatal (sendOne d uid Dests.SendEncodingError).1 = Dests.fatal d)
  ∧ (∀ (d : dest) uid,
     Dests.calls (sendOne d uid Dests.SendWriteError).1
       = Dests.calls d ++ Dests.Nack uid ::
         (if decide (Dests.previousUid d = ZeroUid) then []
          else [Dests.Nack (Dests.previousUid d)])
     ∧ Dests.previousUid (sendOne d uid Dests.SendWriteError).1 = ZeroUid
     ∧ Dests.fatal (sendOne d uid Dests.SendWriteError).1 = true)
  ∧ (∀ msgs m, ∃ new,
     Dests.calls (Send fresh_dest (msgs ++ [m]))
       = Dests.calls (Send fresh_dest msgs) ++ new
     ∧ ∀ u, In (Dests.Ack u) new →
            m.2 = Dests.SendOk ∧ In (u, Dests.SendOk) msgs ∧ u ≠ ZeroUid).
Proof.
  split; [|split; [|split]].
  - intros d uid. split; [apply (sendOne_calls d uid Dests.SendOk)|].
    split; [apply (sendOne_previousUid d uid Dests.SendOk)|].
    split; [apply (sendOne_fatal d uid Dests.SendOk)|done].
  - intros d uid.
    split; [apply (sendOne_calls d uid Dests.SendEncodingError)|].
    split; [apply (sendOne_previousUid d uid Dests.SendEncodingError)|].
    apply (sendOne_fatal d uid Dests.SendEncodingError).
  - intros d uid.
    split; [apply (sendOne_calls d uid Dests.SendWriteError)|].
    split; [apply (sendOne_previousUid d uid Dests.SendWriteError)|].
    apply (sendOne_fatal d uid Dests.SendWriteError).
  - intros msgs [uid err].
    exists (Dests.new_calls ZeroUid (Send fresh_dest msgs) uid err). split.
    + rewrite Send_snoc. apply sendOne_calls.
    + intros u Hin. destruct err; simpl in Hin.
      * destruct (decide (Dests.previousUid (Send fresh_dest msgs) = ZeroUid))
          as [|Hne]; simpl in Hin; [done|].
        destruct Hin as [[= <-]|[]].
        split; [done|]. split; [|done].
        by apply Send_pending_was_written.
      * destruct Hin as [[=]|[]].
      * destruct Hin as [[=]|Hin].
        destruct (decide (Dests.previousUid (Send fresh_dest msgs) = ZeroUid));
          simpl in Hin; [done|]. destruct Hin as [[=]|[]].
Qed.

End TCPDestinationProperties.

(** ** The HTTP destination reports one outcome per message *)

Section HTTPDestinationProperties.

Context {MyULID : Type}.

Local Abbreviation dosendOne := (@Dests.dosendOne MyULID).

(** C5, amended. For every message the HTTP destination processes in
    [dosendOne], exactly one callback is called, for the uid of the
    message: permerr when the URL template, the encoder or the
    construction of the request fails; otherwise ack when the response has
    a 2xx status; otherwise nack, that is on a transport error and on every
    other status, the 4xx ones included. *)
Theorem C5_http_dest_one_callback (a : Dests.http_answers) (uid : MyULID) :
  (dosendOne a uid).1 =
    [ if negb (Dests.http_sent a) then Dests.Permerr uid
      else if Dests.http_success a then Dests.Ack uid
      else Dests.Nack uid ]
  ∧ (dosendOne a uid).2 = Dests.http_sent a && negb (Dests.http_success a).
Proof.
  unfold Dests.dosendOne, Dests.http_sent, Dests.http_success.
  destruct a as [u e r resp]; simpl.
  destruct u, e, r; simpl; try done.
  destruct resp as [code|]; [|done].
  destruct ((200 <=? code) && (code <? 300)); [done|].
  by destruct ((400 <=? code) && (code <? 500)),
             ((500 <=? code) && (code <? 600)).
Qed.

End HTTPDestinationProperties.

(** C5, as stated, fails: a response with status 404 is answered by a nack
    of the message, not by a permanent error. *)
Lemma C5_status_404_is_nacked :
  (Dests.dosendOne (Dests.mkAnswers true true true (Some 404)) 1%nat).1
    = [Dests.Nack 1%nat]
  ∧ (Dests.dosendOne (Dests.mkAnswers true true true (Some 404)) 1%nat).1
    ≠ [Dests.Permerr 1%nat].
Proof. split; [reflexivity | discriminate]. Qed.

(** ** The configuration provider and the consul parameters *)

Section ConfProviderProperties.

Context {ConnParams : Type} (zero : ConnParams)
        (Unmarshal : string → ConnParams → option ConnParams)
        (clean_confdir : string → string).

Local Abbreviation provider := (ConfProvider.provider ConnParams).
Local Abbreviation named := (ConfProvider.consulparams_named zero Unmarshal).
Local Abbreviation second := (ConfProvider.consulparams_second zero Unmarshal).
Local Abbreviation Launch := (ConfProvider.LaunchConfProvider clean_confdir).

(** The second copy of the provider does what the specification expects:
    the parameters decoded from the payload are those of the next [start]
    and of the next [reload]. *)
Lemma second_copy_uses_decoded_params (p : provider) payload v command :
  Unmarshal payload zero = Some v →
  command = "start" ∨ command = "reload" →
  ConfProvider.started
    (Launch second p [ConfProvider.line "consulparams" (Some payload);
       ConfProvider.line command None])
  = ConfProvider.started p ++ [(ConfProvider.confdir p, v)].
Proof.
  intros Hv [-> | ->]; simpl;
    unfold ConfProvider.provider_step, ConfProvider.consulparams_second; simpl;
    by rewrite Hv.
Qed.

(** C6. In [services/configuration.go] the payload of [consulparams] is
    decoded into [params], which is then overwritten by the empty
    [newparams]: the next [start] or [reload] runs with the zero
    parameters, whatever the payload held. *)
Theorem C6_named_copy_discards_consulparams (p : provider) payload v command :
  Unmarshal payload (ConfProvider.params p) = Some v →
  command = "start" ∨ command = "reload" →
  ConfProvider.started
    (Launch named p [ConfProvider.line "consulparams" (Some payload);
       ConfProvider.line command None])
  = ConfProvider.started p ++ [(ConfProvider.confdir p, zero)].
Proof.
  intros Hv [-> | ->]; simpl;
    unfold ConfProvider.provider_step, ConfProvider.consulparams_named; simpl;
    by rewrite Hv.
Qed.

End ConfProviderProperties.

(** The failing run: the parent sends [consulparams] with the address of a
    consul agent, then [start].  The parameters are a consul address here,
    decoded as the payload itself; [start] is called with the empty
    address, and with the address sent in the second copy. *)
Lemma C6_named_copy_discards_consulparams_witness :
  ConfProvider.started
    (ConfProvider.LaunchConfProvider id
       (ConfProvider.consulparams_named "" (fun data _ => Some data))
       (ConfProvider.initial "")
       [ConfProvider.line "consulparams" (Some "consul:8500"); ConfProvider.line "start" None])
  = [("", "")]
  ∧ ConfProvider.started
    (ConfProvider.LaunchConfProvider id
       (ConfProvider.consulparams_second "" (fun data _ => Some data))
       (ConfProvider.initial "")
       [ConfProvider.line "consulparams" (Some "consul:8500"); ConfProvider.line "start" None])
  = [("", "consul:8500")].
Proof.
  split.
  - apply (C6_named_copy_discards_consulparams "" (fun data _ => Some data) id
             (ConfProvider.initial "") "consul:8500" "consul:8500" "start");
      [reflexivity | left; reflexivity].
  - reflexivity.
Defined.

(** ** The serve child keeps its store section across reloads *)

Section ServeProperties.

Context {StoreConfig MainFields Sections : Type}.
Context {SyslogConfig KafkaConfig ConnParams Handles : Type}.

Local Abbreviation child := (Serve.serveChild StoreConfig MainFields Sections).
Local Abbreviation config := (Serve.BaseConfig StoreConfig MainFields Sections).
Local Abbreviation gconfig :=
  (Conf.GConfig SyslogConfig KafkaConfig ConnParams Handles).

Lemma serve_step_keeps_store (ch : child) e :
  Serve.Store (Serve.conf (Serve.serve_step ch e)) = Serve.Store (Serve.conf ch).
Proof.
  unfold Serve.serve_step. destruct (Serve.shutdown ch); [done|].
  destruct e as [[newConf|] ok| | | |]; done.
Qed.

(** C7. When the serve child receives a new configuration, the
    configuration it makes active has the [Store] section (store path
    included) of the previously active one, whatever the snapshot carries;
    the other sections are those of the snapshot, except that
    [Main.EncryptIPC] is kept as well.  The [Store] section is therefore
    the same after any sequence of events of the main loop.  [Reload] of
    package [conf] likewise hands out a configuration with the store
    directory of the configuration it is called on. *)
Theorem C7_reload_keeps_store_section :
  (∀ (ch : child) (newConf : config) reload_ok,
     Serve.conf (Serve.on_newConf ch (Some newConf) reload_ok)
     = Serve.mkConf
         (Serve.mkMain (Serve.EncryptIPC (Serve.Main (Serve.conf ch)))
                       (Serve.main_fields (Serve.Main newConf)))
         (Serve.Store (Serve.conf ch))
         (Serve.sections newConf))
  ∧ (∀ (ch : child) es,
     Serve.Store (Serve.conf (Serve.Serve ch es))
     = Serve.Store (Serve.conf ch))
  ∧ (∀ InitLoad (c : gconfig),
     from_option
       (fun newConf : gconfig =>
          Conf.Store (Conf.base newConf) = Conf.Store (Conf.base c))
       True (Conf.Reload InitLoad c)).
Proof.
  split; [|split].
  - intros ch newConf ok. reflexivity.
  - intros ch es. unfold Serve.Serve. revert ch.
    induction es as [|e es IH]; intros ch; simpl; [done|].
    rewrite IH. apply serve_step_keeps_store.
  - intros InitLoad c. unfold Conf.Reload.
    destruct (InitLoad _ _ _) as [newConf|]; simpl; [|done].
    by destruct (Conf.Store (Conf.base c)).
Qed.

End ServeProperties.

(** ** The binder keeps what it hands out *)

Section BinderProperties.

Lemma values_lookup {A : Type} (m : gmap string A) k x :
  m !! k = Some x → x ∈ Binder.values m.
Proof.
  intros Hk. unfold Binder.values.
  apply list_elem_of_fmap. exists (k, x). split; [done|].
  by apply elem_of_map_to_list.
Qed.

Lemma snoc_not_self {A : Type} (l : list A) x : l ≠ l ++ [x].
Proof.
  intros Heq. apply (f_equal length) in Heq.
  rewrite length_app in Heq. simpl in Heq. lia.
Qed.

(** A connection the goroutine announces on [schan] is in its tables. *)
Lemma on_schan_newconn b bc file n :
  Binder.sent (Binder.on_schan b bc file) = Binder.sent b ++ [n] →
  ∃ c, Binder.Conn bc = Some c
       ∧ file = Some (Binder.newconn_fd n)
       ∧ Binder.newconn_uid n = Binder.Uid bc
       ∧ Binder.newconn_addr n = Binder.Addr bc
       ∧ Binder.connections (Binder.on_schan b bc file) !! Binder.Uid bc
         = Some c
       ∧ Binder.connfiles (Binder.on_schan b bc file) !! Binder.Uid bc
         = Some (Binder.newconn_fd n).
Proof.
  unfold Binder.on_schan. destruct (Binder.Conn bc) as [c|].
  - destruct (decide _); [|simpl; intros Hs; by apply snoc_not_self in Hs].
    destruct file as [connFile|];
      [|simpl; intros Hs; by apply snoc_not_self in Hs].
    simpl. intros Hs. apply app_inv_head in Hs. injection Hs as <-.
    exists c. simpl. by rewrite !lookup_insert_eq.
  - destruct (String.eqb _ _); simpl; intros Hs; by apply snoc_not_self in Hs.
Qed.

Lemma on_pchan_newconn b bc file n :
  Binder.sent (Binder.on_pchan b bc file) = Binder.sent b ++ [n] →
  ∃ c, Binder.Conn bc = Some c
       ∧ file = Some (Binder.newconn_fd n)
       ∧ Binder.newconn_uid n = Binder.Uid bc
       ∧ Binder.newconn_addr n = Binder.Addr bc
       ∧ Binder.packetconnections (Binder.on_pchan b bc file) !! Binder.Uid bc
         = Some c
       ∧ Binder.connfiles (Binder.on_pchan b bc file) !! Binder.Uid bc
         = Some (Binder.newconn_fd n).
Proof.
  unfold Binder.on_pchan. destruct (Binder.Conn bc) as [c|].
  - destruct (decide _); [|simpl; intros Hs; by apply snoc_not_self in Hs].
    destruct file as [connFile|];
      [|simpl; intros Hs; by apply snoc_not_self in Hs].
    simpl. intros Hs. apply app_inv_head in Hs. injection Hs as <-.
    exists c. simpl. by rewrite !lookup_insert_eq.
  - destruct (String.eqb _ _); simpl; intros Hs; by apply snoc_not_self in Hs.
Qed.

Lemma on_schan_other b bc file uid :
  Binder.Uid bc ≠ uid →
  is_Some (Binder.Conn bc) ∨ Binder.Uid bc ≠ "" →
  Binder.entry (Binder.on_schan b bc file) uid = Binder.entry b uid.
Proof.
  intros Hne Hsome. unfold Binder.on_schan, Binder.entry.
  destruct (Binder.Conn bc) as [c|].
  - destruct (decide _); [|done]. destruct file; [|done]. simpl.
    by rewrite !lookup_insert_ne.
  - destruct Hsome as [[? [=]]|Hnz].
    destruct (String.eqb_spec (Binder.Uid bc) ""); [done|]. simpl.
    by rewrite !lookup_delete_ne.
Qed.

Lemma on_pchan_other b bc file uid :
  Binder.Uid bc ≠ uid →
  is_Some (Binder.Conn bc) ∨ Binder.Uid bc ≠ "" →
  Binder.entry (Binder.on_pchan b bc file) uid = Binder.entry b uid.
Proof.
  intros Hne Hsome. unfold Binder.on_pchan, Binder.entry.
  destruct (Binder.Conn bc) as [c|].
  - destruct (decide _); [|done]. destruct file; [|done]. simpl.
    by rewrite !lookup_insert_ne.
  - destruct Hsome as [[? [=]]|Hnz].
    destruct (String.eqb_spec (Binder.Uid bc) ""); [done|]. simpl.
    by rewrite !lookup_delete_ne.
Qed.

Lemma step_keeps b i uid :
  Binder.keeps uid i = true → Binder.entry (Binder.step b i) uid = Binder.entry b uid.
Proof.
  intros Hk. unfold Binder.step. destruct (Binder.state b); [|done..].
  destruct i as [bc file|bc file|command args]; simpl in Hk.
  - apply andb_prop in Hk as [Hc Hu]. apply bool_decide_eq_true in Hc.
    apply negb_true_iff in Hu. apply String.eqb_neq in Hu.
    apply on_schan_other; auto.
  - apply andb_prop in Hk as [Hc Hu]. apply bool_decide_eq_true in Hc.
    apply negb_true_iff in Hu. apply String.eqb_neq in Hu.
    apply on_pchan_other; auto.
  - unfold Binder.on_command.
    apply andb_prop in Hk as [Hk Hcl]. apply andb_prop in Hk as [Hr Hb].
    apply negb_true_iff in Hr, Hb, Hcl. rewrite Hr, Hb.
    destruct (String.eqb command "closeconn"); [|done].
    simpl in Hcl. apply orb_false_elim in Hcl as [Hu Hz].
    apply String.eqb_neq in Hu, Hz.
    rewrite on_pchan_other by (simpl; auto).
    apply on_schan_other; simpl; auto.
Qed.

Lemma run_keeps b inputs uid :
  forallb (Binder.keeps uid) inputs = true →
  Binder.entry (Binder.Binder b inputs) uid = Binder.entry b uid.
Proof.
  unfold Binder.Binder. revert b.
  induction inputs as [|i inputs IH]; intros b Hall; simpl; [done|].
  simpl in Hall. apply andb_prop in Hall as [Hi Hall].
  rewrite IH by done. by apply step_keeps.
Qed.

Lemma files_owned_on_schan b bc file :
  Binder.files_owned b → Binder.files_owned (Binder.on_schan b bc file).
Proof.
  intros Hinv uid. unfold Binder.on_schan.
  destruct (Binder.Conn bc) as [c|].
  - destruct (decide _); [|apply Hinv]. destruct file; [|apply Hinv]. simpl.
    destruct (decide (Binder.Uid bc = uid)) as [->|Hne].
    + rewrite !lookup_insert_eq. eauto.
    + rewrite !lookup_insert_ne by done. apply Hinv.
  - destruct (String.eqb _ _); simpl.
    + intros [f Hf]. unfold Binder.files_but in Hf.
      apply map_lookup_filter_Some in Hf as [Hf Hnone]. simpl in Hnone.
      destruct (Hinv uid) as [[c Hc]|Hp]; [eauto|congruence|by right].
    + destruct (decide (Binder.Uid bc = uid)) as [->|Hne].
      * rewrite lookup_delete_eq. by intros [? [=]].
      * rewrite !lookup_delete_ne by done. apply Hinv.
Qed.

Lemma files_owned_on_pchan b bc file :
  Binder.files_owned b → Binder.files_owned (Binder.on_pchan b bc file).
Proof.
  intros Hinv uid. unfold Binder.on_pchan.
  destruct (Binder.Conn bc) as [c|].
  - destruct (decide _); [|apply Hinv]. destruct file; [|apply Hinv]. simpl.
    destruct (decide (Binder.Uid bc = uid)) as [->|Hne].
    + rewrite !lookup_insert_eq. eauto.
    + rewrite !lookup_insert_ne by done. apply Hinv.
  - destruct (String.eqb _ _); simpl.
    + intros [f Hf]. unfold Binder.files_but in Hf.
      apply map_lookup_filter_Some in Hf as [Hf Hnone]. simpl in Hnone.
      destruct (Hinv uid) as [Hc|[c Hp]]; [eauto|by left|congruence].
    + destruct (decide (Binder.Uid bc = uid)) as [->|Hne].
      * rewrite lookup_delete_eq. by intros [? [=]].
      * rewrite !lookup_delete_ne by done. apply Hinv.
Qed.

Lemma files_owned_step b i :
  Binder.files_owned b → Binder.files_owned (Binder.step b i).
Proof.
  intros Hinv. unfold Binder.step. destruct (Binder.state b); [|done..].
  destruct i as [bc file|bc file|command args].
  - by apply files_owned_on_schan.
  - by apply files_owned_on_pchan.
  - unfold Binder.on_command.
    repeat (destruct (String.eqb command _));
      try (by apply files_owned_on_pchan, files_owned_on_schan); done.
Qed.

Lemma files_owned_run inputs :
  Binder.files_owned (Binder.Binder Binder.start inputs).
Proof.
  induction inputs as [|i inputs IH] using rev_ind.
  - intros uid [f Hf]. simpl in Hf. by rewrite lookup_empty in Hf.
  - unfold Binder.Binder. rewrite fold_left_app. simpl.
    by apply files_owned_step.
Qed.

(** What the two messages with an empty [Uid] do to the tables. *)
Lemma drop_all b :
  Binder.files_owned b →
  let b' := Binder.on_pchan (Binder.on_schan b (Binder.mkBC "" None "") None)
                            (Binder.mkBC "" None "") None in
  Binder.connections b' = ∅
  ∧ Binder.packetconnections b' = ∅
  ∧ Binder.connfiles b' = ∅
  ∧ (∀ uid c, Binder.connections b !! uid = Some c
              → c ∈ Binder.closed_conns b')
  ∧ (∀ uid c, Binder.packetconnections b !! uid = Some c
              → c ∈ Binder.closed_conns b')
  ∧ (∀ uid f, Binder.connfiles b !! uid = Some f
              → f ∈ Binder.closed_files b').
Proof.
  intros Hinv. simpl. unfold Binder.on_pchan, Binder.on_schan. simpl.
  split; [done|]. split; [done|]. split; [|split; [|split]].
  - apply map_empty. intros uid. unfold Binder.files_but.
    apply map_lookup_filter_None. destruct (Binder.connfiles b !! uid) as [f|] eqn:Hf.
    + right. intros x Hx. apply map_lookup_filter_Some in Hx as [Hx Hc].
      simpl in *. destruct (Hinv uid) as [[c Hc']|[c Hp]]; [eauto| |]; congruence.
    + left. apply map_lookup_filter_None. by left.
  - intros uid c Hc. rewrite !elem_of_app. left. right.
    by eapply values_lookup.
  - intros uid c Hc. rewrite !elem_of_app. right. by eapply values_lookup.
  - intros uid f Hf. rewrite !elem_of_app.
    destruct (Binder.connections b !! uid) as [c|] eqn:Hc.
    + left. right. apply (values_lookup _ uid). unfold Binder.files_of.
      apply map_lookup_filter_Some. split; [done|]. simpl. by rewrite Hc.
    + right. apply (values_lookup _ uid). unfold Binder.files_of.
      apply map_lookup_filter_Some. split.
      * unfold Binder.files_but. apply map_lookup_filter_Some. by split.
      * simpl. destruct (Hinv uid) as [[c' Hc']|Hp]; [eauto|congruence|done].
Qed.


End BinderProperties.


(** ** TCP framing: octet counting first, lines otherwise *)

Section FramingProperties.
Import Bytes.

Lemma len_app (a b : list byte) : len (a ++ b) = len a + len b.
Proof. unfold len. rewrite length_app. lia. Qed.

Lemma len_cons (x : byte) (a : list byte) : len (x :: a) = len a + 1.
Proof. unfold len. simpl. lia. Qed.

Lemma len_nonneg (a : list byte) : 0 <= len a.
Proof. unfold len. lia. Qed.

Lemma TrimLeft_skip (pre s : list byte) cutset :
  Forall (fun b => mem b cutset = true) pre →
  TrimLeft (pre ++ s) cutset = TrimLeft s cutset.
Proof.
  induction 1 as [|b pre Hb _ IH]; simpl; [done|]. by rewrite Hb.
Qed.

Lemma TrimLeft_stop (first : byte) (s : list byte) cutset :
  mem first cutset = false → TrimLeft (first :: s) cutset = first :: s.
Proof. intros Hb. simpl. by rewrite Hb. Qed.

Lemma index_where_found p (tok : list byte) sep rest :
  Forall (fun b => p b = false) tok → p sep = true →
  index_where p (tok ++ sep :: rest) = len tok.
Proof.
  intros Htok Hsep. induction Htok as [|b tok Hb _ IH]; simpl.
  - by rewrite Hsep.
  - rewrite Hb, IH, len_cons.
    pose proof (len_nonneg tok). by destruct (Z.ltb_spec (len tok) 0); [lia|].
Qed.

Lemma slice_middle (a b c : list byte) :
  slice (a ++ b ++ c) (len a) (len a + len b) = Some b.
Proof.
  unfold slice. rewrite !len_app.
  pose proof (len_nonneg a). pose proof (len_nonneg b).
  pose proof (len_nonneg c).
  destruct (Z.leb_spec 0 (len a)); [|lia].
  destruct (Z.leb_spec (len a) (len a + len b)); [|lia].
  destruct (Z.leb_spec (len a + len b) (len a + (len b + len c))); [|lia].
  simpl. f_equal. unfold len.
  replace (Z.to_nat (Z.of_nat (length a) + Z.of_nat (length b)
                     - Z.of_nat (length a))) with (length b) by lia.
  rewrite Nat2Z.id, drop_app_length. apply take_app_length.
Qed.

Lemma slice_front (b c : list byte) : slice (b ++ c) 0 (len b) = Some b.
Proof. apply (slice_middle [] b c). Qed.

Lemma leading_token_spec (line : list byte) :
  Forall (fun b => mem b [SP; LF] = false) (leading_token line)
  ∧ (leading_token line = line
     ∨ ∃ sep more, mem sep [SP; LF] = true
                   ∧ line = leading_token line ++ sep :: more).
Proof.
  induction line as [|b line [IH1 IH2]]; simpl.
  - split; [constructor | by left].
  - destruct (mem b [SP; LF]) eqn:Hb.
    + split; [constructor|]. right. by exists b, line.
    + split; [by constructor|].
      destruct IH2 as [->|(sep & more & Hsep & Hline)]; [by left|].
      right. exists sep, more. split; [done|]. simpl. by f_equal.
Qed.

(** What both copies of the splitter compute before they look at the
    leading token. *)
Lemma framing_prefix (pre tok : list byte) first tok' sep more :
  Forall (fun b => mem b ws = true) pre →
  tok = first :: tok' →
  mem first ws = false →
  Forall (fun b => mem b [SP; LF] = false) tok →
  mem sep [SP; LF] = true →
  let data := pre ++ tok ++ sep :: more in
  TrimLeft data ws = first :: tok' ++ sep :: more
  ∧ TrimLeft data ws = tok ++ sep :: more
  ∧ len data - len (TrimLeft data ws) = len pre
  ∧ IndexAny (TrimLeft data ws) [SP; LF] = len tok
  ∧ (len tok <=? 0) = false
  ∧ slice (TrimLeft data ws) 0 (len tok) = Some tok.
Proof.
  intros Hpre -> Hfirst Htok Hsep data.
  assert (TrimLeft data ws = (first :: tok') ++ sep :: more) as Htrim.
  { unfold data. rewrite TrimLeft_skip by done. by apply TrimLeft_stop. }
  split; [done|]. split; [done|]. rewrite Htrim.
  split; [|split; [|split]].
  - unfold data. rewrite !len_app. lia.
  - by apply index_where_found.
  - rewrite len_cons. pose proof (len_nonneg tok'). lia.
  - apply slice_front.
Qed.

Lemma i64_small z : - 2 ^ 63 <= z < 2 ^ 63 → i64 z = z.
Proof. intros Hz. unfold i64. rewrite Z.mod_small; lia. Qed.

Lemma Network_TcpSplit_octet (pre tok body rest : list byte) first tok' sep
    atEOF N :
  len (pre ++ tok ++ sep :: body ++ rest) < 2 ^ 63 →
  Forall (fun b => mem b ws = true) pre →
  tok = first :: tok' →
  mem first ws = false →
  Byte.eqb first LT = false →
  Forall (fun b => mem b [SP; LF] = false) tok →
  mem sep [SP; LF] = true →
  Atoi (Trim tok ws) = Some N →
  len body = N →
  Network.TcpSplit (pre ++ tok ++ sep :: body ++ rest) atEOF
  = Network.SplitRet (len pre + len tok + 1 + N) (Trim body ws) None.
Proof.
  intros Hint Hpre Htok Hfirst Hlt Hnosep Hsep Hatoi Hbody.
  destruct (framing_prefix pre tok first tok' sep (body ++ rest))
    as (Htrim & Htrim2 & Htrimmed & Hsp & Hpos & Hslice); try done.
  assert (0 <= len pre ∧ 0 <= len tok ∧ 0 <= N ∧ 0 <= len rest
          ∧ len (pre ++ tok ++ sep :: body ++ rest)
            = len pre + len tok + 1 + N + len rest) as (? & ? & ? & ? & Hdata).
  { rewrite !len_app, len_cons, len_app, <- Hbody.
    pose proof (len_nonneg pre). pose proof (len_nonneg tok).
    pose proof (len_nonneg body). pose proof (len_nonneg rest). lia. }
  unfold Network.TcpSplit. cbv zeta. rewrite Htrimmed, Hsp. rewrite Htrim at 1.
  rewrite Hlt, Hpos, Hslice, Hatoi.
  rewrite !i64_small by lia.
  assert ((len (pre ++ tok ++ sep :: body ++ rest)
           <? len pre + len tok + 1 + N) = false) as ->.
  { lia. }
  assert (slice (TrimLeft (pre ++ tok ++ sep :: body ++ rest) ws)
                (len tok + 1) (len tok + 1 + N) = Some body) as ->; [|done].
  rewrite Htrim2, <- Hbody.
  replace (tok ++ sep :: body ++ rest) with ((tok ++ [sep]) ++ body ++ rest)
    by (by rewrite <- app_assoc).
  replace (len tok + 1) with (len (tok ++ [sep]))
    by (rewrite len_app; reflexivity).
  apply slice_middle.
Qed.

Lemma Server_TcpSplit_octet (pre tok body rest : list byte) first tok' sep
    atEOF N :
  len (pre ++ tok ++ sep :: body ++ rest) < 2 ^ 63 →
  Forall (fun b => mem b ws = true) pre →
  tok = first :: tok' →
  mem first ws = false →
  Byte.eqb first LT = false →
  Forall (fun b => mem b [SP; LF] = false) tok →
  mem sep [SP; LF] = true →
  Atoi (Trim tok ws) = Some N →
  len body = N →
  Server.TcpSplit (pre ++ tok ++ sep :: body ++ rest) atEOF
  = Network.SplitRet (len pre + len tok + 1 + N) (Trim body ws) None.
Proof.
  intros Hint Hpre Htok Hfirst Hlt Hnosep Hsep Hatoi Hbody.
  destruct (framing_prefix pre tok first tok' sep (body ++ rest))
    as (Htrim & Htrim2 & Htrimmed & Hsp & Hpos & Hslice); try done.
  assert (0 <= len pre ∧ 0 <= len tok ∧ 0 <= N ∧ 0 <= len rest
          ∧ len (pre ++ tok ++ sep :: body ++ rest)
            = len pre + len tok + 1 + N + len rest) as (? & ? & ? & ? & Hdata).
  { rewrite !len_app, len_cons, len_app, <- Hbody.
    pose proof (len_nonneg pre). pose proof (len_nonneg tok).
    pose proof (len_nonneg body). pose proof (len_nonneg rest). lia. }
  unfold Server.TcpSplit. cbv zeta. rewrite Htrimmed, Hsp. rewrite Htrim at 1.
  rewrite Hlt, Hpos, Hslice, Hatoi.
  rewrite !i64_small by lia.
  assert ((len pre + len tok + 1 + N
           <=? len (pre ++ tok ++ sep :: body ++ rest)) = true) as ->.
  { lia. }
  assert (slice (TrimLeft (pre ++ tok ++ sep :: body ++ rest) ws)
                (len tok + 1) (len tok + 1 + N) = Some body) as ->; [|done].
  rewrite Htrim2, <- Hbody.
  replace (tok ++ sep :: body ++ rest) with ((tok ++ [sep]) ++ body ++ rest)
    by (by rewrite <- app_assoc).
  replace (len tok + 1) with (len (tok ++ [sep]))
    by (rewrite len_app; reflexivity).
  apply slice_middle.
Qed.

Lemma sep_is_ws (b : byte) : mem b [SP; LF] = true → mem b ws = true.
Proof.
  unfold mem, ws. simpl. rewrite !orb_false_r.
  destruct (Byte.eqb b SP), (Byte.eqb b LF); simpl; try done.
  by rewrite orb_true_r.
Qed.

Lemma not_ws_not_sep (b : byte) : mem b ws = false → mem b [SP; LF] = false.
Proof.
  intros Hb. destruct (mem b [SP; LF]) eqn:Hs; [|done].
  apply sep_is_ws in Hs. congruence.
Qed.

(** The data up to the end of a line, seen from its leading token. *)
Lemma line_prefix (pre line rest : list byte) first line' :
  Forall (fun b => mem b ws = true) pre →
  line = first :: line' →
  mem first ws = false →
  Forall (fun b => Byte.eqb LF b = false) line →
  let data := pre ++ line ++ LF :: rest in
  let tok := leading_token line in
  TrimLeft data ws = first :: line' ++ LF :: rest
  ∧ TrimLeft data ws = line ++ LF :: rest
  ∧ len data - len (TrimLeft data ws) = len pre
  ∧ IndexAny (TrimLeft data ws) [SP; LF] = len tok
  ∧ (len tok <=? 0) = false
  ∧ slice (TrimLeft data ws) 0 (len tok) = Some tok
  ∧ IndexByte (TrimLeft data ws) LF = len line
  ∧ (len line =? 0) = false
  ∧ slice (TrimLeft data ws) 0 (len line) = Some line.
Proof.
  intros Hpre Hline Hfirst Hnolf data tok. subst tok.
  remember (leading_token line) as tok eqn:Etok.
  assert (Hfs := not_ws_not_sep _ Hfirst).
  destruct (leading_token_spec line) as [Htok Hsplit].
  rewrite <- Etok in Htok, Hsplit.
  assert (∃ tok', tok = first :: tok') as [tok' Htok'].
  { rewrite Etok, Hline. simpl. rewrite Hfs. eauto. }
  assert (∃ sep more, mem sep [SP; LF] = true
                      ∧ line ++ LF :: rest = tok ++ sep :: more)
    as (sep & more & Hsep & Hdata).
  { destruct Hsplit as [Heq|(sep & more & Hsep & Hl)].
    - exists LF, rest. split; [done|]. by rewrite Heq.
    - exists sep, (more ++ LF :: rest). split; [done|].
      rewrite Hl at 1. by rewrite <- app_assoc. }
  destruct (framing_prefix pre tok first tok' sep more)
    as (Ha & Hb & Hc & Hd & He & Hf); try done.
  simpl in Ha, Hb, Hc, Hd, Hf. rewrite <- Hdata in Ha, Hb, Hc, Hd, Hf.
  subst data.
  split; [rewrite Hb; by rewrite Hline|].
  split; [exact Hb|]. split; [exact Hc|]. split; [exact Hd|].
  split; [exact He|]. split; [exact Hf|].
  rewrite Hb. split; [|split].
  - apply index_where_found; [done|]. by apply Byte.byte_dec_lb.
  - rewrite Hline, len_cons. pose proof (len_nonneg line'). lia.
  - apply slice_front.
Qed.

Lemma Network_TcpSplit_line (pre line rest : list byte) first line' atEOF :
  Forall (fun b => mem b ws = true) pre →
  line = first :: line' →
  mem first ws = false →
  Byte.eqb first LT = false →
  Forall (fun b => Byte.eqb LF b = false) line →
  Atoi (Trim (leading_token line) ws) = None →
  Network.TcpSplit (pre ++ line ++ LF :: rest) atEOF
  = Network.SplitRet (len pre + len line + 1) (Trim line ws) None.
Proof.
  intros Hpre Hline Hfirst Hlt Hnolf Hatoi.
  destruct (line_prefix pre line rest first line')
    as (Htrim & Htrim2 & Htrimmed & Hsp & Hpos & Hslice & Hlf & Hlfpos & Hsl);
    try done.
  unfold Network.TcpSplit, Network.getline. cbv zeta.
  rewrite Htrimmed, Hsp, Hlf. rewrite Htrim at 1.
  rewrite Hlt, Hpos, Hslice, Hatoi, Hlfpos, Hsl. f_equal. lia.
Qed.

Lemma Server_TcpSplit_not_number (pre line rest : list byte) first line' atEOF :
  Forall (fun b => mem b ws = true) pre →
  line = first :: line' →
  mem first ws = false →
  Byte.eqb first LT = false →
  Forall (fun b => Byte.eqb LF b = false) line →
  Atoi (Trim (leading_token line) ws) = None →
  Server.TcpSplit (pre ++ line ++ LF :: rest) atEOF
  = Network.SplitRet 0 [] (Some Network.NumError).
Proof.
  intros Hpre Hline Hfirst Hlt Hnolf Hatoi.
  destruct (line_prefix pre line rest first line')
    as (Htrim & Htrim2 & Htrimmed & Hsp & Hpos & Hslice & Hlf & Hlfpos & Hsl);
    try done.
  unfold Server.TcpSplit. cbv zeta.
  rewrite Htrimmed, Hsp. rewrite Htrim at 1.
  by rewrite Hlt, Hpos, Hslice, Hatoi.
Qed.

(** The leading token that [Atoi] is given is never empty: after the
    leading white space is trimmed, the first space or LF is not at
    index 0. *)
Lemma leading_token_not_empty (data : list byte) first t :
  TrimLeft data ws = first :: t → IndexAny (first :: t) [SP; LF] ≠ 0.
Proof.
  intros Htrim.
  assert (mem first ws = false) as Hfirst.
  { revert Htrim. induction data as [|b data IH]; intros Htrim;
      [discriminate|].
    simpl in Htrim. destruct (mem b ws) eqn:Hb; [eauto|congruence]. }
  unfold IndexAny. simpl. rewrite (not_ws_not_sep _ Hfirst).
  destruct (index_where _ t <? 0) eqn:Hneg; lia.
Qed.

(** C3, amended. The data (shorter than 2^63 bytes, as every slice) start
    with white space [pre] and then a byte [first] that is neither white
    space nor ['<'].
    - When the leading token [tok] (the bytes up to the first space or LF,
      [sep]) is read by [strconv.Atoi], after trimming, as the number [N],
      and [N] bytes [body] follow the separator, both copies of the
      splitter consume the white space, the token, the separator and the
      [N] bytes, and return these [N] bytes with the spaces, CRs and LFs at
      both ends removed.
    - When the leading token of the first line is not such a number and
      the data hold the LF that ends this line, the splitter of package
      [network] consumes the line and returns it, trimmed likewise; the
      copy of package [server] stops the scanner with the error of
      [Atoi]. *)
Theorem C3_tcp_split_octet_count_then_lines
    (pre : list byte) (first : byte) (tok' : list byte) (atEOF : bool) :
  Forall (fun b => mem b ws = true) pre →
  mem first ws = false →
  Byte.eqb first LT = false →
  (∀ sep body rest N,
     len (pre ++ (first :: tok') ++ sep :: body ++ rest) < 2 ^ 63 →
     Forall (fun b => mem b [SP; LF] = false) (first :: tok') →
     mem sep [SP; LF] = true →
     Atoi (Trim (first :: tok') ws) = Some N →
     len body = N →
     Network.TcpSplit (pre ++ (first :: tok') ++ sep :: body ++ rest) atEOF
     = Network.SplitRet (len pre + len (first :: tok') + 1 + N)
                        (Trim body ws) None
     ∧ Server.TcpSplit (pre ++ (first :: tok') ++ sep :: body ++ rest) atEOF
       = Network.SplitRet (len pre + len (first :: tok') + 1 + N)
                          (Trim body ws) None)
  ∧ (∀ rest,
     Forall (fun b => Byte.eqb LF b = false) (first :: tok') →
     Atoi (Trim (leading_token (first :: tok')) ws) = None →
     Network.TcpSplit (pre ++ (first :: tok') ++ LF :: rest) atEOF
     = Network.SplitRet (len pre + len (first :: tok') + 1)
                        (Trim (first :: tok') ws) None
     ∧ Server.TcpSplit (pre ++ (first :: tok') ++ LF :: rest) atEOF
       = Network.SplitRet 0 [] (Some Network.NumError)).
Proof.
  intros Hpre Hfirst Hlt. split.
  - intros sep body rest N Hint Hnosep Hsep Hatoi Hbody. split.
    + by eapply Network_TcpSplit_octet.
    + by eapply Server_TcpSplit_octet.
  - intros rest Hnolf Hatoi. split.
    + by eapply Network_TcpSplit_line.
    + by eapply Server_TcpSplit_not_number.
Qed.

End FramingProperties.

(** C3, as stated, fails: on [3 ab<LF>] the count is 3 and the three bytes
    after the space are [ab<LF>], but the frame returned is [ab]. *)
Lemma C3_frame_is_trimmed :
  Network.TcpSplit (Bytes.of_string "3 ab" ++ [Bytes.LF]) false
    = Network.SplitRet 5 (Bytes.of_string "ab") None
  ∧ Bytes.of_string "ab" ≠ Bytes.of_string "ab" ++ [Bytes.LF].
Proof. split; [vm_compute; reflexivity | discriminate]. Qed.

(** The amended statement on [ 5 hello<CR><LF>...] (count 5, separator
    space) and on the line [hello world<LF>]. *)
Lemma C3_tcp_split_octet_count_then_lines_witness :
  Network.TcpSplit (Bytes.of_string " 5 hello" ++ [Bytes.CR; Bytes.LF]) true
    = Network.SplitRet 8 (Bytes.of_string "hello") None
  ∧ Network.TcpSplit (Bytes.of_string "hello world" ++ [Bytes.LF]) false
    = Network.SplitRet 12 (Bytes.of_string "hello world") None.
Proof.
  split.
  - destruct (C3_tcp_split_octet_count_then_lines
                [Bytes.SP] Byte.x35 [] true) as [Hoctet _];
      [repeat constructor | reflexivity | reflexivity |].
    destruct (Hoctet Bytes.SP (Bytes.of_string "hello") [Bytes.CR; Bytes.LF] 5)
      as [Hnet _]; [reflexivity | repeat constructor | reflexivity
                   | reflexivity | reflexivity |].
    exact Hnet.
  - destruct (C3_tcp_split_octet_count_then_lines
                [] Byte.x68 (Bytes.of_string "ello world") false) as [_ Hline];
      [constructor | reflexivity | reflexivity |].
    destruct (Hline []) as [Hnet _]; [repeat constructor | reflexivity |].
    exact Hnet.
Defined.

(** ** RELP responses follow the order of the transaction numbers *)

Section DirectRelpProperties.

Import DirectRelp.

Context {MyULID : Type} `{Countable MyULID}.

Local Abbreviation writer := (@DirectRelp.writer MyULID _ _).
Local Abbreviation fwd := (gmap MyULID DirectRelp.connQueues).

Lemma received_of_snoc (connID : MyULID) sched a :
  received_of connID (sched ++ [a])
  = received_of connID sched
    ++ match a with
       | Env (EvReceived c t) =>
           if decide (c = connID) then [t] else []
       | _ => []
       end.
Proof.
  unfold received_of. rewrite omap_app. f_equal. simpl.
  destruct a as [[c t|c t|c t|c|c|]|err]; simpl; try done.
  by destruct (decide (c = connID)).
Qed.

(** The environment keeps the order, as long as it does not add the
    connection a second time. *)
Lemma env_step_in_commit_order (connID : MyULID) recorded (w : writer) e :
  e ≠ EvAddConn connID →
  in_commit_order connID recorded w →
  in_commit_order connID
    (recorded ++ match e with
                 | EvReceived c t =>
                     if decide (c = connID) then [t] else []
                 | _ => []
                 end)
    (step connID (Env e) w).
Proof.
  intros Hadd. unfold in_commit_order. simpl.
  destruct e as [c t|c t|c t|c|c|]; simpl.
  - unfold Received. destruct (decide (c = connID)) as [->|Hne].
    + rewrite lookup_alter_eq.
      destruct (forwarder w !! connID) as [q|]; simpl.
      * intros [Hd Heq]. unfold IntQueue.Put, IntQueue.Disposed.
        rewrite Hd. simpl. split; [done|]. by rewrite app_assoc, Heq.
      * intros Hp. by apply prefix_app_r.
    + rewrite lookup_alter_ne by done. by rewrite app_nil_r.
  - rewrite app_nil_r. unfold ForwardSucc.
    destruct (decide (c = connID)) as [->|Hne].
    + rewrite lookup_alter_eq. by destruct (forwarder w !! connID).
    + by rewrite lookup_alter_ne.
  - rewrite app_nil_r. unfold ForwardFail.
    destruct (decide (c = connID)) as [->|Hne].
    + rewrite lookup_alter_eq. by destruct (forwarder w !! connID).
    + by rewrite lookup_alter_ne.
  - rewrite app_nil_r. unfold AddConn.
    rewrite lookup_insert_ne; [done|congruence].
  - rewrite app_nil_r. unfold RemoveConn.
    destruct (decide (c = connID)) as [->|Hne].
    + rewrite lookup_delete_eq.
      destruct (forwarder w !! connID) as [q|]; [|done].
      intros [_ <-]. by apply prefix_app_r.
    + by rewrite lookup_delete_ne.
  - rewrite app_nil_r. unfold RemoveAll. rewrite lookup_empty.
    destruct (forwarder w !! connID) as [q|]; [|done].
    intros [_ <-]. by apply prefix_app_r.
Qed.

Lemma in_commit_order_same (connID : MyULID) recorded (w w' : writer) :
  written w' = written w →
  comm <$> (forwarder w' !! connID) = comm <$> (forwarder w !! connID) →
  in_commit_order connID recorded w → in_commit_order connID recorded w'.
Proof.
  unfold in_commit_order. intros -> Hc.
  destruct (forwarder w' !! connID), (forwarder w !! connID);
    simpl in Hc; try done. by injection Hc as ->.
Qed.

Lemma GetSucc_comm (f : fwd) (connID : MyULID) :
  comm <$> ((GetSucc f connID).1 !! connID) = comm <$> (f !! connID).
Proof.
  unfold GetSucc. destruct (f !! connID) as [c|] eqn:Hc; simpl; [|by rewrite Hc].
  destruct (IntQueue.Get (succ c)) as [[q t] [e|]]; simpl.
  - by rewrite Hc.
  - by rewrite lookup_insert_eq.
Qed.

Lemma GetFail_comm (f : fwd) (connID : MyULID) :
  comm <$> ((GetFail f connID).1 !! connID) = comm <$> (f !! connID).
Proof.
  unfold GetFail. destruct (f !! connID) as [c|] eqn:Hc; simpl; [|by rewrite Hc].
  destruct (IntQueue.Get (fail c)) as [[q t] [e|]]; simpl.
  - by rewrite Hc.
  - by rewrite lookup_insert_eq.
Qed.

(** When the next txnr to commit is [next], it is the head of the queue of
    pending txnrs, and [Commit] removes it. *)
Lemma NextToCommit_head (f : fwd) (connID : MyULID) next :
  NextToCommit f connID = next → next ≠ -1 →
  ∃ c rest,
    f !! connID = Some c
    ∧ IntQueue.disposed (comm c) = false
    ∧ IntQueue.items (comm c) = next :: rest
    ∧ Commit f connID !! connID
      = Some (mkConn (succ c) (fail c) (IntQueue.mkQ rest false)).
Proof.
  unfold NextToCommit, Commit. intros Hnext Hne.
  destruct (f !! connID) as [c|]; [|congruence].
  unfold IntQueue.Peek, IntQueue.Get, IntQueue.Disposed in *.
  destruct (IntQueue.disposed (comm c)) eqn:Hd; [simpl in Hnext; congruence|].
  destruct (IntQueue.items (comm c)) as [|x rest] eqn:Hi;
    [simpl in Hnext; congruence|].
  simpl in Hnext. subst x. exists c, rest. repeat split; try done.
  simpl. by rewrite lookup_insert_eq.
Qed.

Lemma handleResponses_writes_next (connID : MyULID) err (w w' : writer) :
  handleResponses connID err w = Some w' → writes_next connID err w w'.
Proof.
  unfold handleResponses, writes_next. destruct (pc w).
  - destruct (Wait _ _) as [[|]|]; intros [= <-]; by left.
  - destruct (GetSucc _ _) as [f t]. intros [= <-]. by left.
  - destruct (GetFail _ _) as [f t]. intros [= <-]. by left.
  - destruct (Z.eqb_spec (NextToCommit (forwarder w) connID) (-1)) as [|Hne];
      [intros [= <-]; by left|].
    destruct (index (successes w) _) eqn:Hs;
      [|destruct (index (failures w) _) eqn:Hf].
    + destruct err; intros [= <-]; simpl; try by left.
      right. destruct (NextToCommit_head _ _ _ eq_refl Hne)
        as (c & rest & Hc & Hd & Hi & Hcommit).
      exists (Rsp200 (NextToCommit (forwarder w) connID)), c, rest.
      simpl. repeat split; try done. by left.
    + destruct err; intros [= <-]; simpl; try by left.
      right. destruct (NextToCommit_head _ _ _ eq_refl Hne)
        as (c & rest & Hc & Hd & Hi & Hcommit).
      exists (Rsp500 (NextToCommit (forwarder w) connID)), c, rest.
      simpl. repeat split; try done. by right.
    + intros [= <-]. by left.
  - done.
Qed.

Lemma handleResponses_in_commit_order (connID : MyULID) recorded err
    (w w' : writer) :
  handleResponses connID err w = Some w' →
  in_commit_order connID recorded w → in_commit_order connID recorded w'.
Proof.
  intros Hstep Hinv.
  destruct (handleResponses_writes_next _ _ _ _ Hstep)
    as [Hsame|(r & c & rest & Hw & _ & _ & Hc & Hd & Hi & Hc' & _)].
  - revert Hinv. apply in_commit_order_same; [done|].
    revert Hstep. unfold handleResponses. destruct (pc w).
    + destruct (Wait _ _) as [[|]|]; by intros [= <-].
    + pose proof (GetSucc_comm (forwarder w) connID) as Hg.
      destruct (GetSucc _ _) as [f t]. by intros [= <-].
    + pose proof (GetFail_comm (forwarder w) connID) as Hg.
      destruct (GetFail _ _) as [f t]. by intros [= <-].
    + destruct (_ =? _); [by intros [= <-]|].
      destruct (index (successes w) _);
        [|destruct (index (failures w) _); [|by intros [= <-]]].
      * destruct err; intros [= <-]; simpl in *; try done.
        symmetry in Hsame. by apply snoc_not_self in Hsame.
      * destruct err; intros [= <-]; simpl in *; try done.
        symmetry in Hsame. by apply snoc_not_self in Hsame.
    + done.
  - unfold in_commit_order in *. rewrite Hc in Hinv. rewrite Hc', Hw.
    destruct Hinv as [_ <-]. simpl. split; [done|].
    rewrite map_app, Hi, <- app_assoc. done.
Qed.

Lemma run_snoc (connID : MyULID) sched a (w : writer) :
  run connID (sched ++ [a]) w = step connID a (run connID sched w).
Proof. unfold run. by rewrite fold_left_app. Qed.

Lemma run_in_commit_order (connID : MyULID) (f : fwd) sched :
  Forall (fun a => a ≠ Env (EvAddConn connID)) sched →
  in_commit_order connID (received_of connID sched)
    (run connID sched (start_writer (AddConn f connID))).
Proof.
  induction sched as [|a sched IH] using rev_ind; intros Hadd.
  - unfold in_commit_order, AddConn. simpl. by rewrite lookup_insert_eq.
  - apply Forall_app in Hadd as [Hsched Ha].
    rewrite Forall_singleton in Ha. specialize (IH Hsched).
    rewrite run_snoc, received_of_snoc. destruct a as [e|err].
    + apply env_step_in_commit_order; [intros ->; by apply Ha|done].
    + rewrite app_nil_r. simpl.
      destruct (handleResponses connID err _) as [w'|] eqn:Hstep; simpl;
        [|done]. by eapply handleResponses_in_commit_order.
Qed.

Lemma in_commit_order_prefix (connID : MyULID) recorded (w : writer) :
  in_commit_order connID recorded w →
  map rsp_txnr (written w) `prefix_of` recorded.
Proof.
  unfold in_commit_order. destruct (forwarder w !! connID) as [c|]; [|done].
  intros [_ <-]. by eexists.
Qed.


End DirectRelpProperties.


(** ** The ring buffer *)

Section RingArithmetic.

Lemma u64_range z : 0 <= u64 z < 2 ^ 64.
Proof. unfold u64. apply Z.mod_pos_bound. lia. Qed.

Lemma u64_not_neg z : (u64 z <? 0) = false.
Proof. pose proof (u64_range z). lia. Qed.

Lemma u64_small z : 0 <= z < 2 ^ 64 → u64 z = z.
Proof. intros Hz. unfold u64. by apply Z.mod_small. Qed.

Lemma u64_add_l a b : u64 (u64 a + b) = u64 (a + b).
Proof. unfold u64. by rewrite Zplus_mod_idemp_l. Qed.

Lemma u64_sub_l a b : u64 (u64 a - b) = u64 (a - b).
Proof. unfold u64. by rewrite Zminus_mod_idemp_l. Qed.

Lemma u64_sub_r a b : u64 (a - u64 b) = u64 (a - b).
Proof. unfold u64. by rewrite Zminus_mod_idemp_r. Qed.

Lemma pow2_bounds e : 0 <= e <= 63 → 1 <= 2 ^ e <= 2 ^ 63.
Proof.
  intros He. split.
  - pose proof (Z.pow_pos_nonneg 2 e). lia.
  - apply Z.pow_le_mono_r; lia.
Qed.

(** The low bits of a wrapped number are the low bits of the number. *)
Lemma mod_u64 e x : 0 <= e <= 63 → u64 x mod 2 ^ e = x mod 2 ^ e.
Proof.
  intros He. unfold u64. apply Z.mod_mod_divide.
  exists (2 ^ (64 - e)). rewrite <- Z.pow_add_r by lia. f_equal. lia.
Qed.

Lemma land_mask e x : 0 <= e → Z.land x (2 ^ e - 1) = x mod 2 ^ e.
Proof.
  intros He. rewrite <- Z.land_ones by done. f_equal.
  rewrite Z.ones_equiv. lia.
Qed.

Lemma mod_offset_inj c d k k' :
  0 <= k' <= k → k < c → (d + k) mod c = (d + k') mod c → k = k'.
Proof.
  intros Hk Hc Heq.
  assert ((k - k') mod c = 0) as Hz.
  { replace (k - k') with ((d + k) - (d + k')) by lia.
    rewrite Zminus_mod, Heq, Z.sub_diag. apply Z.mod_0_l. lia. }
  rewrite Z.mod_small in Hz by lia. lia.
Qed.

Lemma mod_offset_inj' c d k k' :
  0 <= k < c → 0 <= k' < c → (d + k) mod c = (d + k') mod c → k = k'.
Proof.
  intros Hk Hk' Heq. destruct (Z.le_gt_cases k' k).
  - apply (mod_offset_inj c d); [lia|lia|done].
  - symmetry. apply (mod_offset_inj c d); [lia|lia|done].
Qed.

End RingArithmetic.

Section RingProperties.
Import Ring.

Context {T : Type}.

Local Abbreviation ring := (Ring.RawTCPRing T).

Lemma Len_range (rb : ring) : 0 <= Len rb < 2 ^ 64.
Proof. apply u64_range. Qed.

Lemma slot_u64 (rb : ring) e x :
  0 <= e <= 63 → mask rb = 2 ^ e - 1 →
  slot rb (u64 x) = Z.to_nat (x mod 2 ^ e).
Proof.
  intros He Hmask. unfold slot. rewrite Hmask, land_mask by lia.
  by rewrite mod_u64.
Qed.

Lemma slot_eq (rb : ring) e x :
  0 <= e <= 63 → mask rb = 2 ^ e - 1 → 0 <= x < 2 ^ 64 →
  slot rb x = Z.to_nat (x mod 2 ^ e).
Proof.
  intros He Hmask Hx. rewrite <- (u64_small x) at 1 by done.
  by apply slot_u64.
Qed.

Lemma slot_inj (rb : ring) d k k' :
  sized rb → 0 <= k < Cap rb → 0 <= k' < Cap rb →
  slot rb (u64 (d + k)) = slot rb (u64 (d + k')) → k = k'.
Proof.
  intros (e & He & Hcap & Hmask) Hk Hk'.
  rewrite !(slot_u64 rb e) by done. intros Heq.
  pose proof (pow2_bounds e He).
  apply Z2Nat.inj in Heq; try (apply Z.mod_pos_bound; lia).
  apply (mod_offset_inj' (2 ^ e) d); lia.
Qed.

Lemma queue_is_dequeue_plus_len (rb : ring) :
  sequenced rb → queue rb = u64 (dequeue rb + Len rb).
Proof.
  intros (Hq & Hd & _). unfold Len, u64.
  rewrite Zplus_mod_idemp_r. replace (dequeue rb + (queue rb - dequeue rb))
    with (queue rb) by lia.
  symmetry. by apply Z.mod_small.
Qed.

Lemma node_at (rb : ring) k :
  sequenced rb → 0 <= k < Cap rb →
  ∃ n, nodes rb !! slot rb (u64 (dequeue rb + k)) = Some n
       ∧ position n = expected rb k.
Proof.
  intros (_ & _ & _ & Hnodes) Hk. specialize (Hnodes k Hk).
  destruct (nodes rb !! _) as [n|]; [|done].
  exists n. split; [done|]. simpl in Hnodes. congruence.
Qed.

(** With room in the ring, the first pass of [put] wins the slot. *)
Lemma put_iter_room (rb : ring) offer :
  wf rb → disposed rb ≠ 1 → Len rb < Cap rb →
  ∃ n, nodes rb !! slot rb (queue rb) = Some n
       ∧ put_iter rb (queue rb) offer
         = Break (set_queue rb (u64 (queue rb + 1))) (queue rb).
Proof.
  intros [Hsized Hseq] Hdisp Hroom.
  pose proof (Len_range rb) as HL.
  destruct (node_at rb (Len rb) Hseq) as (n & Hn & Hpos); [lia|].
  rewrite <- queue_is_dequeue_plus_len in Hn by done.
  exists n. split; [done|]. unfold put_iter.
  destruct (Z.eqb_spec (disposed rb) 1); [done|]. rewrite Hn, Hpos.
  unfold expected. rewrite Z.ltb_irrefl, Z.add_0_r.
  rewrite <- queue_is_dequeue_plus_len by done.
  rewrite Z.sub_diag. change (u64 0 =? 0) with true. cbv iota.
  by rewrite Z.eqb_refl.
Qed.

(** A full ring of at least two slots turns [put] away. *)
Lemma put_iter_full (rb : ring) offer :
  wf rb → disposed rb ≠ 1 → Len rb = Cap rb → 2 <= Cap rb →
  put_iter rb (queue rb) offer
  = if offer then Return (false, None) else Again (queue rb).
Proof.
  intros [Hsized Hseq] Hdisp Hfull Hcap.
  destruct (node_at rb 0 Hseq) as (n & Hn & Hpos); [lia|].
  assert (slot rb (queue rb) = slot rb (u64 (dequeue rb + 0))) as Hslot.
  { destruct Hsized as (e & He & Hc & Hmask).
    rewrite (queue_is_dequeue_plus_len rb Hseq), Hfull, Hc.
    rewrite !(slot_u64 rb e) by done. f_equal.
    rewrite Z.add_0_r. rewrite <- Zplus_mod_idemp_r, Z.mod_same.
    - by rewrite Z.add_0_r.
    - pose proof (pow2_bounds e He). lia. }
  unfold put_iter. destruct (Z.eqb_spec (disposed rb) 1); [done|].
  rewrite Hslot, Hn, Hpos. unfold expected.
  destruct (Z.ltb_spec 0 (Len rb)); [|lia].
  rewrite (queue_is_dequeue_plus_len rb Hseq) at 1.
  rewrite u64_sub_l, u64_sub_r, Hfull.
  replace (dequeue rb + 0 + 1 - (dequeue rb + Cap rb)) with (1 - Cap rb)
    by lia.
  assert (u64 (1 - Cap rb) = 2 ^ 64 + 1 - Cap rb) as ->.
  { destruct Hsized as (e & He & Hc & _). pose proof (pow2_bounds e He).
    unfold u64. symmetry. apply (Z.mod_unique_pos _ _ (-1)). all: lia. }
  destruct Hsized as (e & He & Hc & _). pose proof (pow2_bounds e He).
  destruct (Z.eqb_spec (2 ^ 64 + 1 - Cap rb) 0); [lia|].
  by rewrite u64_not_neg.
Qed.

Lemma put_done_wf (rb : ring) item :
  wf rb → Len rb < Cap rb →
  wf (put_done rb item)
  ∧ Len (put_done rb item) = Len rb + 1
  ∧ Cap (put_done rb item) = Cap rb.
Proof.
  intros [Hsized Hseq] Hroom.
  pose proof (Len_range rb) as HL.
  assert (Cap (put_done rb item) = Cap rb) as Hcap.
  { unfold Cap, put_done. simpl. by rewrite length_insert. }
  assert (Len (put_done rb item) = Len rb + 1) as Hlen.
  { unfold Len, put_done. simpl. rewrite u64_sub_l.
    replace (queue rb + 1 - dequeue rb) with (queue rb - dequeue rb + 1) by lia.
    rewrite <- u64_add_l. fold (Len rb). apply u64_small.
    destruct Hsized as (e & He & Hc & _). pose proof (pow2_bounds e He). lia. }
  split; [|done]. split.
  - destruct Hsized as (e & He & Hc & Hmask). exists e.
    split; [done|]. split; [congruence|done].
  - destruct (node_at rb (Len rb) Hseq) as (n & Hn & _); [lia|].
    rewrite <- queue_is_dequeue_plus_len in Hn by done.
    apply lookup_lt_Some in Hn.
    pose proof Hseq as (Hq & Hd & _ & _).
    split; [apply u64_range|]. split; [done|]. split; [lia|].
    rewrite Hcap. intros k Hk. unfold expected. rewrite Hlen.
    change (dequeue (put_done rb item)) with (dequeue rb).
    change (slot (put_done rb item)) with (slot rb).
    change (nodes (put_done rb item))
      with (<[slot rb (queue rb) := mkNode (u64 (queue rb + 1)) item]>
              (nodes rb)).
    destruct (decide (k = Len rb)) as [->|Hne].
    + rewrite <- queue_is_dequeue_plus_len by done.
      rewrite list_lookup_insert_eq by done. simpl.
      destruct (Z.ltb_spec (Len rb) (Len rb + 1)); [|lia].
      rewrite (queue_is_dequeue_plus_len rb Hseq) at 1.
      by rewrite u64_add_l.
    + rewrite list_lookup_insert_ne.
      * destruct (node_at rb k Hseq) as (n' & -> & Hpos); [lia|]. simpl.
        rewrite Hpos. unfold expected.
        by destruct (Z.ltb_spec k (Len rb)), (Z.ltb_spec k (Len rb + 1));
          try lia.
      * rewrite (queue_is_dequeue_plus_len rb Hseq). intros Heq.
        apply slot_inj in Heq; [lia|done|lia|lia].
Qed.

Lemma slot_dequeue (rb : ring) :
  sequenced rb → slot rb (dequeue rb) = slot rb (u64 (dequeue rb + 0)).
Proof.
  intros (_ & Hd & _). by rewrite Z.add_0_r, u64_small.
Qed.

(** With an item in the ring, the first pass of [Poll] wins its slot. *)
Lemma poll_iter_item (rb : ring) timeout since :
  wf rb → 0 < Len rb →
  ∃ n, nodes rb !! slot rb (dequeue rb) = Some n
       ∧ poll_iter rb (dequeue rb) timeout since
         = Break (set_dequeue rb (u64 (dequeue rb + 1))) (dequeue rb).
Proof.
  intros [Hsized Hseq] Hitem.
  destruct (node_at rb 0 Hseq) as (n & Hn & Hpos).
  { destruct Hseq as (_ & _ & Hle & _). lia. }
  rewrite <- slot_dequeue in Hn by done.
  exists n. split; [done|]. unfold poll_iter. rewrite Hn, Hpos.
  unfold expected. destruct (Z.ltb_spec 0 (Len rb)); [|lia].
  rewrite Z.add_0_r, u64_sub_l, u64_sub_r, Z.sub_diag.
  change (u64 0 =? 0) with true. cbv iota. by rewrite Z.eqb_refl.
Qed.

Lemma u64_minus_one : u64 (-1) = 2 ^ 64 - 1.
Proof. reflexivity. Qed.

(** On an empty ring a pass of [Poll] that reads [dequeue] finds nothing. *)
Lemma poll_iter_empty (rb : ring) timeout since :
  wf rb → Len rb = 0 →
  poll_iter rb (dequeue rb) timeout since
  = poll_wait rb (dequeue rb) timeout since.
Proof.
  intros [Hsized Hseq] Hempty.
  destruct (node_at rb 0 Hseq) as (n & Hn & Hpos).
  { destruct Hsized as (e & He & Hc & _). pose proof (pow2_bounds e He). lia. }
  rewrite <- slot_dequeue in Hn by done.
  unfold poll_iter. rewrite Hn, Hpos. unfold expected. rewrite Hempty.
  rewrite Z.ltb_irrefl, !Z.add_0_r, u64_sub_l, u64_sub_r.
  replace (dequeue rb - (dequeue rb + 1)) with (-1) by lia.
  by rewrite u64_minus_one.
Qed.

(** On an empty ring no pass of [Poll] wins a slot, whatever copy of
    [dequeue] it holds: it goes to the test of the timeout and of the
    disposal. *)
Lemma poll_iter_empty_any (rb : ring) pos timeout since :
  wf rb → Len rb = 0 →
  ∃ pos', poll_iter rb pos timeout since = poll_wait rb pos' timeout since.
Proof.
  intros Hwf Hempty. destruct (decide (pos = dequeue rb)) as [->|Hne].
  { exists (dequeue rb). by apply poll_iter_empty. }
  destruct Hwf as [(e & He & Hc & Hmask) Hseq].
  pose proof (pow2_bounds e He).
  assert (is_Some (nodes rb !! slot rb pos)) as [n Hn].
  { apply lookup_lt_is_Some. unfold slot. rewrite Hmask, land_mask by lia.
    unfold Cap in Hc. pose proof (Z.mod_pos_bound pos (2 ^ e)). lia. }
  unfold poll_iter. rewrite Hn, u64_not_neg.
  destruct (_ =? 0); [|by eexists].
  destruct (Z.eqb_spec (dequeue rb) pos); [congruence|by eexists].
Qed.

Lemma poll_done_wf (rb : ring) :
  wf rb → 0 < Len rb →
  wf (poll_done rb)
  ∧ Len (poll_done rb) = Len rb - 1
  ∧ Cap (poll_done rb) = Cap rb.
Proof.
  intros [Hsized Hseq] Hitem.
  pose proof (Len_range rb) as HL.
  assert (Cap (poll_done rb) = Cap rb) as Hcap.
  { unfold Cap, poll_done. simpl. by rewrite length_insert. }
  assert (Len (poll_done rb) = Len rb - 1) as Hlen.
  { unfold Len, poll_done. simpl. rewrite u64_sub_r.
    replace (queue rb - (dequeue rb + 1)) with (queue rb - dequeue rb - 1)
      by lia.
    rewrite <- u64_sub_l. fold (Len rb). apply u64_small. lia. }
  split; [|done]. split.
  - destruct Hsized as (e & He & Hc & Hmask). exists e.
    split; [done|]. split; [congruence|done].
  - pose proof Hseq as (Hq & Hd & Hle & _).
    destruct (node_at rb 0 Hseq) as (n & Hn & _); [lia|].
    apply lookup_lt_Some in Hn.
    split; [done|]. split; [apply u64_range|]. split; [lia|].
    rewrite Hcap. intros k Hk. unfold expected. rewrite Hlen.
    change (dequeue (poll_done rb)) with (u64 (dequeue rb + 1)).
    change (slot (poll_done rb)) with (slot rb).
    change (nodes (poll_done rb))
      with (<[slot rb (dequeue rb)
              := mkNode (u64 (dequeue rb + mask rb + 1)) None]> (nodes rb)).
    rewrite slot_dequeue by done.
    rewrite !u64_add_l.
    replace (dequeue rb + 1 + k) with (dequeue rb + (k + 1)) by lia.
    assert (∀ x, u64 (u64 (dequeue rb + 1) + k + x)
                 = u64 (dequeue rb + (k + 1) + x)) as ->.
    { intros x. rewrite <- Z.add_assoc, u64_add_l. f_equal. lia. }
    destruct (decide (k = Cap rb - 1)) as [->|Hne].
    + assert (slot rb (u64 (dequeue rb + (Cap rb - 1 + 1)))
              = slot rb (u64 (dequeue rb + 0))) as ->.
      { destruct Hsized as (e & He & Hc & Hmask).
        rewrite !(slot_u64 rb e) by done. f_equal.
        replace (dequeue rb + (Cap rb - 1 + 1)) with (dequeue rb + 0 + 2 ^ e)
          by lia.
        rewrite <- Zplus_mod_idemp_r, Z.mod_same.
        - by rewrite Z.add_0_r.
        - pose proof (pow2_bounds e He). lia. }
      rewrite list_lookup_insert_eq by done. simpl.
      destruct (Z.ltb_spec (Cap rb - 1) (Len rb - 1)); [lia|].
      destruct Hsized as (e & He & Hc & Hmask). rewrite Hmask, <- Hc.
      do 2 f_equal. lia.
    + rewrite list_lookup_insert_ne.
      * destruct (node_at rb (k + 1) Hseq) as (n' & -> & Hpos); [lia|].
        simpl. rewrite Hpos. unfold expected.
        destruct (Z.ltb_spec (k + 1) (Len rb)), (Z.ltb_spec k (Len rb - 1));
          try lia; do 2 f_equal; lia.
      * intros Heq. apply slot_inj in Heq; [lia|done|lia|lia].
Qed.

(** *** The calls of the interface *)

Lemma put_disposed (rb : ring) fuel item offer :
  disposed rb = 1 →
  put (S fuel) rb item offer = Done rb (false, Some ErrDisposed).
Proof.
  intros Hd. unfold put. simpl. unfold put_iter. by rewrite Hd.
Qed.

Lemma put_room (rb : ring) fuel item offer :
  wf rb → disposed rb ≠ 1 → Len rb < Cap rb →
  put (S fuel) rb item offer = Done (put_done rb item) (true, None).
Proof.
  intros Hwf Hd Hroom. unfold put. simpl.
  destruct (put_iter_room rb offer Hwf Hd Hroom) as (n & _ & ->). done.
Qed.

Lemma put_full_blocks (rb : ring) fuel item :
  wf rb → disposed rb ≠ 1 → Len rb = Cap rb → 2 <= Cap rb →
  put fuel rb item false = Blocked.
Proof.
  intros Hwf Hd Hfull Hcap. unfold put.
  induction fuel as [|fuel IH]; simpl; [done|].
  by rewrite (put_iter_full rb false Hwf Hd Hfull Hcap).
Qed.

Lemma offer_full (rb : ring) fuel item :
  wf rb → disposed rb ≠ 1 → Len rb = Cap rb → 2 <= Cap rb →
  put (S fuel) rb item true = Done rb (false, None).
Proof.
  intros Hwf Hd Hfull Hcap. unfold put. simpl.
  by rewrite (put_iter_full rb true Hwf Hd Hfull Hcap).
Qed.

Lemma poll_item (rb : ring) fuel timeout clock :
  wf rb → 0 < Len rb →
  ∃ n, nodes rb !! slot rb (dequeue rb) = Some n
       ∧ Poll (S fuel) rb timeout clock = Done (poll_done rb) (data n, None).
Proof.
  intros Hwf Hitem. unfold Poll. simpl.
  destruct (poll_iter_item rb timeout (clock 0%nat) Hwf Hitem)
    as (n & Hn & ->).
  exists n. split; [done|]. simpl. unfold slot in *. simpl. by rewrite Hn.
Qed.

Lemma poll_empty (rb : ring) fuel timeout clock nb :
  wf rb → Len rb = 0 →
  ring_of rb (poll_loop fuel rb (dequeue rb) timeout clock nb) = rb.
Proof.
  intros Hwf Hempty. revert nb.
  induction fuel as [|fuel IH]; intros nb; simpl; [done|].
  rewrite poll_iter_empty by done. unfold poll_wait.
  destruct (_ && _); [done|]. destruct (_ =? _); [done|]. apply IH.
Qed.

Lemma wf_set_disposed (rb : ring) v : wf rb → wf (set_disposed rb v).
Proof. by intros [Hsized Hseq]. Qed.

Lemma wf_Dispose (rb : ring) : wf rb → wf (Dispose rb).
Proof.
  intros Hwf. unfold Dispose. destruct (_ =? _); [|done].
  by apply wf_set_disposed.
Qed.

(** Every call keeps the ring well formed, and its capacity, provided the
    ring has at least two slots. *)
Lemma run_call_wf (rb : ring) fuel c :
  wf rb → 2 <= Cap rb →
  wf (run_call fuel rb c) ∧ Cap (run_call fuel rb c) = Cap rb.
Proof.
  intros Hwf Hcap.
  assert (∀ item offer,
            wf (ring_of rb (put fuel rb item offer))
            ∧ Cap (ring_of rb (put fuel rb item offer)) = Cap rb) as Hput.
  { intros item offer. destruct fuel as [|fuel]; [done|].
    destruct (decide (disposed rb = 1)) as [Hd|Hd].
    { by rewrite put_disposed. }
    pose proof Hwf as (_ & _ & _ & Hle & _).
    destruct (decide (Len rb < Cap rb)) as [Hroom|Hfull].
    - rewrite put_room by done. simpl.
      by destruct (put_done_wf rb item Hwf Hroom) as (? & _ & ?).
    - destruct offer.
      + rewrite offer_full by (done || lia). done.
      + rewrite put_full_blocks by (done || lia). done. }
  assert (∀ timeout clock,
            wf (ring_of rb (Poll fuel rb timeout clock))
            ∧ Cap (ring_of rb (Poll fuel rb timeout clock)) = Cap rb) as Hpoll.
  { intros timeout clock. pose proof (Len_range rb).
    destruct (decide (0 < Len rb)) as [Hitem|Hempty].
    - destruct fuel as [|fuel]; [done|].
      destruct (poll_item rb fuel timeout clock Hwf Hitem) as (n & _ & ->).
      simpl. by destruct (poll_done_wf rb Hwf Hitem) as (? & _ & ?).
    - unfold Poll. rewrite poll_empty by (done || lia). done. }
  destruct c as [item|item| |timeout clock|]; simpl.
  - unfold Put. specialize (Hput item false).
    by destruct (put fuel rb item false) as [rb' [b err]| |].
  - apply Hput.
  - apply Hpoll.
  - apply Hpoll.
  - split; [by apply wf_Dispose|]. unfold Dispose. by destruct (_ =? _).
Qed.

Lemma run_calls_wf (rb : ring) fuel cs :
  wf rb → 2 <= Cap rb →
  wf (run_calls fuel rb cs) ∧ Cap (run_calls fuel rb cs) = Cap rb.
Proof.
  unfold run_calls. revert rb.
  induction cs as [|c cs IH]; intros rb Hwf Hcap; simpl; [done|].
  destruct (run_call_wf rb fuel c Hwf Hcap) as [Hwf' Hcap'].
  destruct (IH (run_call fuel rb c)) as [Hwf'' Hcap'']; [done|lia|].
  split; [done|congruence].
Qed.

(** *** A new ring *)

Lemma roundUp_from_spec fuel i v :
  0 <= i → v <= 2 ^ (i + Z.of_nat fuel) →
  ∃ j, i <= j <= i + Z.of_nat fuel
       ∧ roundUp_from fuel (2 ^ i) v = 2 ^ j
       ∧ v <= 2 ^ j
       ∧ (j = i ∨ 2 ^ (j - 1) < v).
Proof.
  revert i. induction fuel as [|fuel IH]; intros i Hi Hv.
  - exists i. simpl in *. rewrite Z.add_0_r in Hv. repeat split; auto; lia.
  - simpl. destruct (Z.leb_spec v (2 ^ i)) as [Hle|Hgt].
    + exists i. repeat split; auto; lia.
    + replace (2 * 2 ^ i) with (2 ^ (i + 1))
        by (rewrite Z.pow_add_r by lia; lia).
      destruct (IH (i + 1)) as (j & Hj & Hr & Hvj & Hmin); [lia| |].
      { replace (i + 1 + Z.of_nat fuel) with (i + Z.of_nat (S fuel)) by lia.
        done. }
      exists j. split; [lia|]. split; [done|]. split; [done|].
      right. destruct Hmin as [->|Hmin]; [|done].
      by replace (i + 1 - 1) with i by lia.
Qed.

(** The capacity the specification asks for: the least power of two that
    is not below the requested size. *)
Lemma roundUp_least_power_of_two v :
  v <= 2 ^ 63 →
  ∃ j, 0 <= j <= 63
       ∧ roundUp v = 2 ^ j
       ∧ v <= 2 ^ j
       ∧ ∀ j', 0 <= j' → v <= 2 ^ j' → 2 ^ j <= 2 ^ j'.
Proof.
  intros Hv.
  destruct (roundUp_from_spec 64 0 v) as (j & Hj & Hr & Hvj & Hmin); [lia| |].
  { simpl. lia. }
  assert (j <= 63) as Hj63.
  { destruct Hmin as [->|Hmin]; [lia|].
    destruct (Z.le_gt_cases j 63); [done|].
    assert (2 ^ 63 <= 2 ^ (j - 1)) by (apply Z.pow_le_mono_r; lia). lia. }
  exists j. split; [lia|]. split; [|split; [done|]].
  - unfold roundUp. change (2 ^ 0) with 1 in Hr. rewrite Hr.
    apply u64_small. pose proof (pow2_bounds j). lia.
  - intros j' Hj' Hvj'. destruct Hmin as [->|Hmin].
    + apply Z.pow_le_mono_r; lia.
    + apply Z.pow_le_mono_r; [lia|].
      destruct (Z.le_gt_cases j j'); [done|].
      assert (2 ^ j' <= 2 ^ (j - 1)) by (apply Z.pow_le_mono_r; lia). lia.
Qed.

Lemma init_nodes_lookup (size : Z) (i : nat) :
  (i < Z.to_nat (roundUp size))%nat →
  nodes (init (T := T) size) !! i = Some (mkNode (Z.of_nat i) None).
Proof.
  intros Hi. unfold init. simpl.
  rewrite list_lookup_fmap, lookup_seq_lt by done. done.
Qed.

(** A new ring is well formed, empty, and has the capacity that [roundUp]
    gives. *)
Lemma init_wf size :
  size <= 2 ^ 63 →
  wf (init (T := T) size)
  ∧ Cap (init (T := T) size) = roundUp size
  ∧ Len (init (T := T) size) = 0
  ∧ disposed (init (T := T) size) = 0.
Proof.
  intros Hsize.
  destruct (roundUp_least_power_of_two size Hsize) as (j & Hj & Hr & _).
  pose proof (pow2_bounds j Hj) as Hp.
  assert (Cap (init (T := T) size) = roundUp size) as Hcap.
  { unfold Cap, init. simpl. rewrite length_map, length_seq. lia. }
  assert (mask (init (T := T) size) = 2 ^ j - 1) as Hmask.
  { unfold init. simpl. rewrite Hr. apply u64_small. lia. }
  split; [|done]. split.
  - exists j. split; [done|]. split; [congruence|done].
  - split; [simpl; lia|]. split; [simpl; lia|]. rewrite Hcap, Hr.
    split; [change (Len (init (T := T) size)) with 0; lia|].
    intros k Hk. unfold expected.
    change (Len (init (T := T) size)) with 0.
    change (dequeue (init (T := T) size)) with 0.
    destruct (Z.ltb_spec k 0); [lia|]. rewrite !Z.add_0_l, Z.add_0_r.
    rewrite (slot_u64 _ j) by done.
    rewrite Z.mod_small by lia.
    rewrite init_nodes_lookup by (rewrite Hr; lia). simpl.
    rewrite Z2Nat.id by lia. f_equal. symmetry. apply u64_small. lia.
Qed.

(** Whatever calls are made on a new ring of at least two slots, its
    length stays within its capacity. *)
Lemma new_ring_len_le_cap size fuel cs :
  2 <= roundUp size → size <= 2 ^ 63 →
  Len (run_calls fuel (NewRawTCPRing (T := T) size) cs)
  <= Cap (run_calls fuel (NewRawTCPRing (T := T) size) cs)
  ∧ Cap (run_calls fuel (NewRawTCPRing (T := T) size) cs) = roundUp size.
Proof.
  intros Htwo Hsize. unfold NewRawTCPRing.
  destruct (init_wf size Hsize) as (Hwf & Hcap & _).
  destruct (run_calls_wf (init size) fuel cs Hwf) as [Hwf' Hcap']; [lia|].
  split; [|congruence]. by destruct Hwf' as (_ & _ & _ & Hle & _).
Qed.

(** *** The ring of one slot *)

(** On a full ring of one slot the sequence number of the only node is the
    queue position itself: the first pass of [put] wins it. *)
Lemma put_iter_full_one_slot (rb : ring) offer :
  wf rb → disposed rb ≠ 1 → Cap rb = 1 → Len rb = 1 →
  put_iter rb (queue rb) offer
  = Break (set_queue rb (u64 (queue rb + 1))) (queue rb).
Proof.
  intros [Hsized Hseq] Hdisp Hcap Hfull.
  destruct (node_at rb 0 Hseq) as (n & Hn & Hpos); [lia|].
  assert (slot rb (queue rb) = slot rb (u64 (dequeue rb + 0))) as Hslot.
  { destruct Hsized as (e & He & Hc & Hmask).
    rewrite (queue_is_dequeue_plus_len rb Hseq), Hfull.
    rewrite !(slot_u64 rb e) by done. f_equal.
    rewrite <- Hc, Hcap. by rewrite !Z.mod_1_r. }
  unfold put_iter. destruct (Z.eqb_spec (disposed rb) 1); [done|].
  rewrite Hslot, Hn, Hpos. unfold expected. rewrite Hfull.
  change (0 <? 1) with true. cbv iota.
  rewrite <- Hfull at 1. rewrite Z.add_0_r.
  rewrite <- (queue_is_dequeue_plus_len rb Hseq).
  rewrite Z.sub_diag. change (u64 0 =? 0) with true. cbv iota.
  by rewrite Z.eqb_refl.
Qed.

(** C8. A ring of one slot (what a requested size of 1 gives) that holds
    an item and is not disposed still accepts a [Put] or an [Offer]: the
    call returns at once with success, the item overwrites the one that
    waits, and the length becomes 2 while the capacity is 1. *)
Theorem C8_one_slot_ring_overruns (rb : ring) fuel item offer :
  wf rb → disposed rb ≠ 1 → Cap rb = 1 → Len rb = 1 →
  put (S fuel) rb item offer = Done (put_done rb item) (true, None)
  ∧ Len (put_done rb item) = 2
  ∧ Cap (put_done rb item) = 1.
Proof.
  intros Hwf Hd Hcap Hfull. split; [|split].
  - unfold put. simpl.
    by rewrite (put_iter_full_one_slot rb offer Hwf Hd Hcap Hfull).
  - unfold Len, put_done. simpl. rewrite u64_sub_l.
    replace (queue rb + 1 - dequeue rb) with (queue rb - dequeue rb + 1) by lia.
    rewrite <- u64_add_l. fold (Len rb). by rewrite Hfull.
  - unfold Cap, put_done in *. simpl. by rewrite length_insert.
Qed.

(** *** Disposal *)

Lemma Dispose_flag (rb : ring) :
  disposed rb = 0 ∨ disposed rb = 1 → disposed (Dispose rb) = 1.
Proof. unfold Dispose. intros [Hd|Hd]; rewrite Hd; simpl; done. Qed.

Lemma Dispose_idempotent (rb : ring) : Dispose (Dispose rb) = Dispose rb.
Proof.
  unfold Dispose. destruct (Z.eqb_spec (disposed rb) 0) as [Hz|Hnz]; simpl.
  - done.
  - by destruct (Z.eqb_spec (disposed rb) 0).
Qed.

Lemma Len_Dispose (rb : ring) : Len (Dispose rb) = Len rb.
Proof. unfold Dispose. by destruct (_ =? _). Qed.

Lemma poll_wait_disposed (rb : ring) pos timeout since :
  disposed rb = 1 →
  poll_wait rb pos timeout since = Return (None, Some (woken timeout since)).
Proof.
  intros Hd. unfold poll_wait, woken. rewrite Hd.
  by destruct (_ && _).
Qed.

(** C9, amended. [Dispose] is idempotent.  After it, [Put] and [Offer]
    return the error [Disposed] and leave the ring as it is, and so does a
    [put] that was waiting, in the pass it is in.  On an empty
    ring, [Get] returns [Disposed]; [Poll] returns [Disposed] unless its
    timeout is positive and has expired when it looks at the clock, in
    which case it returns the error [Timeout]; and a [Get] or [Poll] that
    was waiting, whatever copy of the dequeue position it holds, leaves
    with the same answer in the pass it is in.  None of them goes on
    waiting. *)
Theorem C9_dispose_wakes_callers (rb : ring) :
  disposed rb = 0 ∨ disposed rb = 1 →
  Dispose (Dispose rb) = Dispose rb
  ∧ (∀ fuel item,
       Put (S fuel) (Dispose rb) item = Done (Dispose rb) (Some ErrDisposed)
       ∧ Offer (S fuel) (Dispose rb) item
         = Done (Dispose rb) (false, Some ErrDisposed))
  ∧ (∀ pos offer,
       put_iter (Dispose rb) pos offer = Return (false, Some ErrDisposed))
  ∧ (wf rb → Len rb = 0 →
       (∀ fuel,
          Get (S fuel) (Dispose rb) = Done (Dispose rb) (None, Some ErrDisposed))
       ∧ (∀ fuel timeout clock,
            Poll (S fuel) (Dispose rb) timeout clock
            = Done (Dispose rb) (None, Some (woken timeout (clock 0%nat))))
       ∧ (∀ pos timeout since,
            poll_iter (Dispose rb) pos timeout since
            = Return (None, Some (woken timeout since)))).
Proof.
  intros Hflag. pose proof (Dispose_flag rb Hflag) as Hd.
  split; [apply Dispose_idempotent|]. split; [|split].
  - intros fuel item. unfold Put, Offer. by rewrite !put_disposed.
  - intros pos offer. unfold put_iter. by rewrite Hd.
  - intros Hwf Hempty.
    assert (∀ pos timeout since,
              poll_iter (Dispose rb) pos timeout since
              = Return (None, Some (woken timeout since))) as Hiter.
    { intros pos timeout since.
      destruct (poll_iter_empty_any (Dispose rb) pos timeout since)
        as [pos' ->]; [by apply wf_Dispose|by rewrite Len_Dispose|].
      by apply poll_wait_disposed. }
    assert (∀ fuel timeout clock,
              Poll (S fuel) (Dispose rb) timeout clock
              = Done (Dispose rb) (None, Some (woken timeout (clock 0%nat))))
      as Hpoll.
    { intros fuel timeout clock. unfold Poll. simpl. by rewrite Hiter. }
    split; [|split; [done|done]].
    intros fuel. unfold Get. by rewrite Hpoll.
Qed.

End RingProperties.

(** C9, as stated, fails: a [Poll] with a timeout of one nanosecond that
    reads the clock one nanosecond after its start, on an empty ring that
    was disposed, returns the error [Timeout], not [Disposed]. *)
Lemma C9_poll_times_out_on_disposed_ring :
  Ring.Poll 1 (Ring.Dispose (Ring.NewRawTCPRing (T := nat) 2)) 1 (fun _ => 1)
  = Done (Ring.Dispose (Ring.NewRawTCPRing 2)) (None, Some ErrTimeout).
Proof. vm_compute. reflexivity. Qed.

(** The amended statement on a new ring of four slots. *)
Lemma C9_dispose_wakes_callers_witness :
  let rb := Ring.Dispose (Ring.NewRawTCPRing (T := nat) 4) in
  Ring.Dispose rb = rb
  ∧ Ring.Put 1 rb (Some 7%nat) = Done rb (Some ErrDisposed)
  ∧ Ring.Get 1 rb = Done rb (None, Some ErrDisposed)
  ∧ Ring.Poll 1 rb 5 (fun _ => 3) = Done rb (None, Some ErrDisposed).
Proof.
  intros rb.
  destruct (C9_dispose_wakes_callers (Ring.NewRawTCPRing (T := nat) 4))
    as (Hidem & Hput & _ & Hget); [left; reflexivity|].
  destruct Hget as (Hget & Hpoll & _).
  - apply init_wf. lia.
  - reflexivity.
  - split; [exact Hidem|]. split; [apply (Hput 0%nat)|].
    split; [apply (Hget 0%nat)|]. apply (Hpoll 0%nat 5 (fun _ => 3)).
Defined.

(** The failing run: [NewRawTCPRing(1)], [Put(7)], then [Offer(8)] with no
    [Get] in between.  The offer is accepted on the full ring, the only
    node now holds 8, and the length is 2 for a capacity of 1. *)
Lemma C8_one_slot_ring_overruns_witness :
  let rb0 := Ring.NewRawTCPRing (T := nat) 1 in
  let rb1 := Ring.run_calls 1 rb0 [Ring.CallPut (Some 7%nat)] in
  let rb2 := Ring.run_calls 1 rb1 [Ring.CallOffer (Some 8%nat)] in
  Ring.Cap rb0 = 1
  ∧ Ring.Len rb1 = 1
  ∧ Ring.Offer 1 rb1 (Some 8%nat) = Done rb2 (true, None)
  ∧ Ring.Len rb2 = 2
  ∧ Ring.Cap rb2 = 1
  ∧ Ring.nodes rb2 = [Ring.mkNode 2 (Some 8%nat)].
Proof.
  intros rb0 rb1 rb2.
  assert (Ring.wf rb1) as Hwf.
  { apply (put_done_wf rb0 (Some 7%nat)); [apply init_wf; lia|reflexivity]. }
  destruct (C8_one_slot_ring_overruns rb1 0%nat (Some 8%nat) true Hwf)
    as (Hoffer & Hlen & Hcap); [discriminate | reflexivity | reflexivity |].
  split; [reflexivity|]. split; [reflexivity|].
  split; [exact Hoffer|]. split; [exact Hlen|]. split; [exact Hcap|].
  reflexivity.
Defined.

(** ** The TCP handler and the size of a frame *)

Section HandlerProperties.
Import Network.

Context {MyULID DecoderConfig : Type}.

Local Abbreviation raw := (Network.RawTcpMessage MyULID DecoderConfig).
Local Abbreviation env := (Network.conn_env MyULID DecoderConfig).


End HandlerProperties.


(** ** Kafka versions *)

Section KafkaVersionProperties.
Import Conf.

(** The order [Greater] decides, written out: [r] is at most [l] in the
    lexicographic order of the four components. *)
Lemma Greater_spec (l r : KafkaVersion) :
  Greater l r = true ↔
  k0 r < k0 l
  ∨ k0 r = k0 l
    ∧ (k1 r < k1 l
       ∨ k1 r = k1 l
         ∧ (k2 r < k2 l ∨ k2 r = k2 l ∧ k3 r <= k3 l)).
Proof.
  unfold Greater.
  repeat match goal with
         | |- context [if ?c then _ else _] => destruct c eqn:?
         end; split; intros; try done; lia.
Qed.

Lemma version_eq (l r : KafkaVersion) :
  k0 l = k0 r → k1 l = k1 r → k2 l = k2 r → k3 l = k3 r → l = r.
Proof. destruct l, r. simpl. by intros -> -> -> ->. Qed.

Lemma Greater_refl (l : KafkaVersion) : Greater l l = true.
Proof. apply Greater_spec. lia. Qed.

Lemma Greater_trans (l m r : KafkaVersion) :
  Greater l m = true → Greater m r = true → Greater l r = true.
Proof.
  intros Hlm Hmr. apply Greater_spec in Hlm, Hmr. apply Greater_spec. lia.
Qed.

(** X1. [Greater] is "greater or equal" in the lexicographic order of the
    four components: it holds between a version and itself, it is
    transitive, any two versions are comparable, and two versions that are
    each [Greater] than the other are the same. *)
Theorem Greater_is_a_total_order :
  (∀ l, Greater l l = true)
  ∧ (∀ l m r, Greater l m = true → Greater m r = true → Greater l r = true)
  ∧ (∀ l r, Greater l r = true ∨ Greater r l = true)
  ∧ (∀ l r, Greater l r = true → Greater r l = true → l = r).
Proof.
  split; [|split; [|split]].
  - apply Greater_refl.
  - apply Greater_trans.
  - intros l r.
    destruct (Greater l r) eqn:Hlr; [by left|]. right.
    apply Greater_spec. apply not_true_iff_false in Hlr.
    rewrite Greater_spec in Hlr. lia.
  - intros l r Hlr Hrl. apply Greater_spec in Hlr, Hrl.
    apply version_eq; lia.
Qed.

Ltac sarama_cases :=
  unfold ToSaramaVersion;
  repeat match goal with
         | |- context [if ?c then _ else _] => destruct c eqn:?
         end.

(** A version above a constant is above the older constants. *)
Ltac older_constant :=
  match goal with
  | H : Greater ?l ?a = true, H' : Greater ?l ?b = false |- _ =>
      rewrite (Greater_trans l a b H eq_refl) in H'; discriminate
  end.

(** X2. [ToSaramaVersion] fails exactly below 0.8.2.0.  Between 0.10.0.1
    (included) and 0.10.1.0 (excluded) it answers the constant of
    0.10.1.0; everywhere else it answers the newest of the constants it
    names that is not above the version. *)
Theorem ToSaramaVersion_newest_supported (l : KafkaVersion) :
  (ToSaramaVersion l = inr MinimalVersion ↔ Greater l V0_8_2_0 = false)
  ∧ (Greater l V0_10_0_1 = true → Greater l V0_10_1_0 = false →
     ToSaramaVersion l = inl sarama_V0_10_1_0)
  ∧ (∀ s, ToSaramaVersion l = inl s →
          ¬ (Greater l V0_10_0_1 = true ∧ Greater l V0_10_1_0 = false) →
          Greater l (number_of s) = true
          ∧ ∀ s', Greater l (number_of s') = true →
                  Greater (number_of s) (number_of s') = true).
Proof.
  split; [|split].
  - sarama_cases; split; intros; try done; older_constant.
  - intros Ha Hb. sarama_cases; try done; try congruence; older_constant.
  - intros s Hs Hgap. revert Hs. sarama_cases; intros Hs; try done.
    all: injection Hs as <-.
    all: try (exfalso; by apply Hgap).
    all: split; [done|].
    all: intros s' Hs'; destruct s'; simpl in *;
         try reflexivity; try congruence; older_constant.
Qed.


(** *** [ParseVersion] *)

Lemma cut_found (p rest : list byte) sep :
  Bytes.cut p sep = None → Bytes.cut (p ++ sep :: rest) sep = Some (p, rest).
Proof.
  induction p as [|b p IH]; simpl.
  - intros _. by rewrite (Byte.byte_dec_lb (eq_refl sep)).
  - destruct (Byte.eqb b sep); [done|].
    destruct (Bytes.cut p sep) as [[? ?]|]; [done|].
    intros _. by rewrite IH.
Qed.

Lemma cut_not_found_app (p rest : list byte) sep :
  Bytes.cut (p ++ sep :: rest) sep ≠ None.
Proof.
  induction p as [|b p IH]; simpl.
  - by rewrite (Byte.byte_dec_lb (eq_refl sep)).
  - destruct (Byte.eqb b sep); [done|].
    by destruct (Bytes.cut (p ++ sep :: rest) sep) as [[? ?]|].
Qed.

Lemma SplitN_length (s : list byte) sep n :
  (length (Bytes.SplitN s sep n) ≤ n)%nat.
Proof.
  revert s. induction n as [|n IH]; intros s; simpl; [done|].
  destruct n as [|n]; [simpl; lia|].
  destruct (Bytes.cut s sep) as [[before after]|]; [|simpl; lia].
  cbn [length]. specialize (IH after). lia.
Qed.

Lemma SplitN_cut (s before after : list byte) sep n :
  Bytes.cut s sep = Some (before, after) →
  Bytes.SplitN s sep (S (S n)) = before :: Bytes.SplitN after sep (S n).
Proof. intros Hcut. simpl. by rewrite Hcut. Qed.

(** Splitting a joined list gives the list back, as long as the limit is
    not reached. *)
Lemma SplitN_Join (parts : list (list byte)) sep n :
  Forall (λ p, Bytes.cut p sep = None) parts →
  (1 ≤ length parts ≤ n)%nat →
  Bytes.SplitN (Bytes.Join parts sep) sep n = parts.
Proof.
  revert n. induction parts as [|p parts IH]; intros n Hparts Hlen.
  { simpl in Hlen. lia. }
  apply Forall_cons in Hparts as [Hp Hparts].
  destruct n as [|n]; [simpl in Hlen; lia|].
  destruct parts as [|q parts].
  - simpl. destruct n; [done|]. by rewrite Hp.
  - destruct n as [|n]; [simpl in Hlen; lia|].
    change (Bytes.Join (p :: q :: parts) sep)
      with (p ++ sep :: Bytes.Join (q :: parts) sep).
    rewrite (SplitN_cut _ p (Bytes.Join (q :: parts) sep))
      by (by apply cut_found).
    f_equal. apply IH; [done|]. simpl in *. lia.
Qed.

(** Beyond the limit, the last substring is the unsplit remainder. *)
Lemma SplitN_Join_4 (p0 p1 p2 p3 p4 : list byte) parts sep :
  Forall (λ p, Bytes.cut p sep = None) [p0; p1; p2] →
  Bytes.SplitN (Bytes.Join (p0 :: p1 :: p2 :: p3 :: p4 :: parts) sep) sep 4
  = [p0; p1; p2; p3 ++ sep :: Bytes.Join (p4 :: parts) sep].
Proof.
  intros Hparts.
  apply Forall_cons in Hparts as [H0 Hparts].
  apply Forall_cons in Hparts as [H1 Hparts].
  apply Forall_cons in Hparts as [H2 _].
  change (Bytes.Join (p0 :: p1 :: p2 :: p3 :: p4 :: parts) sep)
    with (p0 ++ sep :: p1 ++ sep :: p2 ++ sep
             :: p3 ++ sep :: Bytes.Join (p4 :: parts) sep).
  rewrite (SplitN_cut _ p0 _ _ _ (cut_found _ _ _ H0)).
  rewrite (SplitN_cut _ p1 _ _ _ (cut_found _ _ _ H1)).
  rewrite (SplitN_cut _ p2 _ _ _ (cut_found _ _ _ H2)).
  done.
Qed.

Lemma digits_value_cut (s : list byte) acc v :
  Bytes.digits_value acc s = Some v → Bytes.cut s Bytes.DOT = None.
Proof.
  revert acc. induction s as [|b s IH]; intros acc; simpl; [done|].
  destruct (Bytes.digit b) as [d|] eqn:Hd; [|done].
  intros Hv. rewrite (IH _ Hv).
  destruct (Byte.eqb b Bytes.DOT) eqn:E; [|done].
  apply Byte.byte_dec_bl in E. subst b. done.
Qed.

(** A string that [Atoi] accepts holds no dot. *)
Lemma Atoi_cut (n : list byte) a :
  Bytes.Atoi n = Some a → Bytes.cut n Bytes.DOT = None.
Proof.
  unfold Bytes.Atoi. destruct n as [|b n]; [done|].
  destruct (Byte.eqb b Byte.x2d) eqn:Eminus;
    [|destruct (Byte.eqb b Byte.x2b) eqn:Eplus].
  - apply Byte.byte_dec_bl in Eminus. subst b.
    destruct n as [|b' n]; [done|].
    destruct (Bytes.digits_value 0 (b' :: n)) as [v|] eqn:Hv; [|done].
    intros _. apply digits_value_cut in Hv.
    change (Bytes.cut (Byte.x2d :: b' :: n) Bytes.DOT)
      with (match Bytes.cut (b' :: n) Bytes.DOT with
            | Some (before, after) => Some (Byte.x2d :: before, after)
            | None => None
            end).
    by rewrite Hv.
  - apply Byte.byte_dec_bl in Eplus. subst b.
    destruct n as [|b' n]; [done|].
    destruct (Bytes.digits_value 0 (b' :: n)) as [v|] eqn:Hv; [|done].
    intros _. apply digits_value_cut in Hv.
    change (Bytes.cut (Byte.x2b :: b' :: n) Bytes.DOT)
      with (match Bytes.cut (b' :: n) Bytes.DOT with
            | Some (before, after) => Some (Byte.x2b :: before, after)
            | None => None
            end).
    by rewrite Hv.
  - destruct (Bytes.digits_value 0 (b :: n)) as [v|] eqn:Hv; [|done].
    intros _. by apply digits_value_cut in Hv.
Qed.

Lemma parse_parts_in_range ver i parts :
  (i + length parts ≤ 4)%nat → parse_parts ver i parts ≠ None.
Proof.
  revert ver i. induction parts as [|n parts IH]; intros ver i Hlen; [done|].
  simpl in *.
  assert (is_Some (set_index ver i (default 0 (Bytes.Atoi n)))) as [ver' ->].
  { do 4 (destruct i as [|i]; [by eexists|]). lia. }
  destruct (Bytes.Atoi n); [|done]. apply IH. lia.
Qed.

Lemma parse_parts_number ver i n a rest ver' :
  Bytes.Atoi n = Some a → set_index ver i a = Some ver' →
  parse_parts ver i (n :: rest) = parse_parts ver' (S i) rest.
Proof. intros Ha Hset. simpl. rewrite Ha. simpl. by rewrite Hset. Qed.

Lemma parse_parts_not_a_number ver i n rest :
  Bytes.Atoi n = None → (i < 4)%nat →
  parse_parts ver i (n :: rest) = Some (inr InvalidFormat).
Proof.
  intros Ha Hi. simpl. rewrite Ha. simpl.
  do 4 (destruct i as [|i]; [done|]). lia.
Qed.

Lemma ParseVersion_in_range (v : list byte) : ParseVersion v ≠ None.
Proof.
  unfold ParseVersion.
  pose proof (SplitN_length v Bytes.DOT 4) as Hlen.
  pose proof (parse_parts_in_range (mkVersion 0 0 0 0) 0
                (Bytes.SplitN v Bytes.DOT 4) Hlen) as Hsome.
  destruct (parse_parts _ _ _) as [[ver|e]|]; done.
Qed.

(** X3. [ParseVersion] never indexes the version out of range.  A string
    of one to four decimal numbers joined by dots is the version of these
    numbers, the missing ones being zero; with a fifth number, as with the
    empty string, the format is invalid. *)
Theorem ParseVersion_reads_up_to_four_numbers :
  (∀ v, ParseVersion v ≠ None)
  ∧ (∀ parts nums,
       Forall2 (λ p n, Bytes.Atoi p = Some n) parts nums →
       (1 ≤ length parts ≤ 4)%nat →
       ParseVersion (Bytes.Join parts Bytes.DOT)
       = Some (ToSaramaVersion
                 (mkVersion (nth 0 nums 0) (nth 1 nums 0)
                            (nth 2 nums 0) (nth 3 nums 0))))
  ∧ (∀ parts nums,
       Forall2 (λ p n, Bytes.Atoi p = Some n) parts nums →
       (4 < length parts)%nat →
       ParseVersion (Bytes.Join parts Bytes.DOT) = Some (inr InvalidFormat))
  ∧ ParseVersion [] = Some (inr InvalidFormat).
Proof.
  split; [|split; [|split]].
  - apply ParseVersion_in_range.
  - intros parts nums Hnums Hlen. unfold ParseVersion.
    rewrite SplitN_Join; [|by eapply Forall2_Forall_l;
                             [done|apply Forall_forall; intros; eapply Atoi_cut]
                          |done].
    destruct Hnums as [|p0 n0 parts nums H0 Hnums]; [simpl in Hlen; lia|].
    erewrite parse_parts_number; [|exact H0|reflexivity].
    destruct Hnums as [|p1 n1 parts nums H1 Hnums]; [done|].
    erewrite parse_parts_number; [|exact H1|reflexivity].
    destruct Hnums as [|p2 n2 parts nums H2 Hnums]; [done|].
    erewrite parse_parts_number; [|exact H2|reflexivity].
    destruct Hnums as [|p3 n3 parts nums H3 Hnums]; [done|].
    erewrite parse_parts_number; [|exact H3|reflexivity].
    destruct Hnums; [done|]. simpl in Hlen. lia.
  - intros parts nums Hnums Hlen. unfold ParseVersion.
    destruct Hnums as [|p0 n0 parts nums H0 Hnums]; [simpl in Hlen; lia|].
    destruct Hnums as [|p1 n1 parts nums H1 Hnums]; [simpl in Hlen; lia|].
    destruct Hnums as [|p2 n2 parts nums H2 Hnums]; [simpl in Hlen; lia|].
    destruct Hnums as [|p3 n3 parts nums H3 Hnums]; [simpl in Hlen; lia|].
    destruct Hnums as [|p4 n4 parts nums H4 Hnums]; [simpl in Hlen; lia|].
    rewrite SplitN_Join_4
      by (repeat constructor; by eapply Atoi_cut).
    erewrite parse_parts_number; [|exact H0|reflexivity].
    erewrite parse_parts_number; [|exact H1|reflexivity].
    erewrite parse_parts_number; [|exact H2|reflexivity].
    rewrite parse_parts_not_a_number; [done| |lia].
    destruct (Bytes.Atoi (p3 ++ Bytes.DOT :: Bytes.Join (p4 :: parts) Bytes.DOT))
      as [a|] eqn:Ha; [|done].
    apply Atoi_cut in Ha. by apply cut_not_found_app in Ha.
  - reflexivity.
Qed.

End KafkaVersionProperties.

(** 0.10.2.0 is above 0.9.0.1, which is above 0.8.2.2. *)
Lemma Greater_is_a_total_order_witness :
  Conf.Greater Conf.V0_10_2_0 Conf.V0_8_2_2 = true.
Proof.
  destruct Greater_is_a_total_order as (_ & Htrans & _).
  apply (Htrans Conf.V0_10_2_0 Conf.V0_9_0_1 Conf.V0_8_2_2); reflexivity.
Defined.

(** The version 0.10.0.5 is answered with the constant of 0.10.1.0, the
    version 0.9.3.0 with the constant of 0.9.0.1. *)
Lemma ToSaramaVersion_newest_supported_witness :
  Conf.ToSaramaVersion (Conf.mkVersion 0 10 0 5) = inl Conf.sarama_V0_10_1_0
  ∧ Conf.Greater (Conf.mkVersion 0 9 3 0) Conf.V0_9_0_1 = true.
Proof.
  split.
  - apply (ToSaramaVersion_newest_supported (Conf.mkVersion 0 10 0 5));
      reflexivity.
  - destruct (ToSaramaVersion_newest_supported (Conf.mkVersion 0 9 3 0))
      as (_ & _ & Hnewest).
    apply (Hnewest Conf.sarama_V0_9_0_1); [reflexivity|].
    intros [Hgap _]. discriminate Hgap.
Defined.

(** The version string [0.10.0.1] is read as its four numbers and falls in
    the range that is answered with the constant of 0.10.1.0; [0.9] is
    0.9.0.0. *)
Lemma ParseVersion_reads_up_to_four_numbers_witness :
  Conf.ParseVersion (Bytes.of_string "0.10.0.1")
  = Some (inl Conf.sarama_V0_10_1_0)
  ∧ Conf.ParseVersion (Bytes.of_string "0.9") = Some (inl Conf.sarama_V0_9_0_0)
  ∧ Conf.ParseVersion (Bytes.of_string "0.10.2.0.1")
    = Some (inr Conf.InvalidFormat).
Proof.
  destruct ParseVersion_reads_up_to_four_numbers as (_ & Hread & Hfive & _).
  split; [|split].
  - apply (Hread [Bytes.of_string "0"; Bytes.of_string "10";
                  Bytes.of_string "0"; Bytes.of_string "1"] [0; 10; 0; 1]).
    + repeat constructor.
    + simpl. lia.
  - apply (Hread [Bytes.of_string "0"; Bytes.of_string "9"] [0; 9]).
    + repeat constructor.
    + simpl. lia.
  - apply (Hfive [Bytes.of_string "0"; Bytes.of_string "10";
                  Bytes.of_string "2"; Bytes.of_string "0";
                  Bytes.of_string "1"] [0; 10; 2; 0; 1]).
    + repeat constructor.
    + simpl. lia.
Defined.

(** ** Completion of a configuration *)

Section CompleteProperties.
Import Conf.

Context {Template IP KafkaFields ConnParams Handles : Type}.
Context (Parse : string → string → option Template)
        (ParseIP : string → option IP)
        (IsUnspecified : IP → bool)
        (IPString : IP → string).

Local Abbreviation syslog := (Conf.SyslogConfig Template IP).
Local Abbreviation gconfig :=
  (Conf.GConfig syslog (Conf.KafkaConfig KafkaFields) ConnParams Handles).
Local Abbreviation complete_entry :=
  (Conf.complete_entry Parse ParseIP IsUnspecified IPString).
Local Abbreviation complete_entries :=
  (Conf.complete_entries Parse ParseIP IsUnspecified IPString).
Local Abbreviation Complete :=
  (Conf.Complete (KafkaFields := KafkaFields) (ConnParams := ConnParams)
     (Handles := Handles) Parse ParseIP IsUnspecified IPString).

Local Abbreviation completed :=
  (Conf.completed Parse ParseIP IsUnspecified IPString).

Lemma eqb_empty (x : string) : String.eqb x "" = false → x ≠ "".
Proof. intros Hx ->. done. Qed.

Lemma fill_defaults_filled (s : syslog) :
  Port (fill_defaults s) ≠ 0
  ∧ BindAddr (fill_defaults s) ≠ ""
  ∧ Format (fill_defaults s) ≠ ""
  ∧ Protocol (fill_defaults s) ≠ ""
  ∧ TopicTmpl (fill_defaults s) ≠ ""
  ∧ PartitionTmpl (fill_defaults s) ≠ "".
Proof.
  unfold fill_defaults. simpl.
  destruct (Z.eqb_spec (Port s) 0);
    destruct (String.eqb (BindAddr s) "") eqn:?;
    destruct (String.eqb (Format s) "") eqn:?;
    destruct (String.eqb (Protocol s) "") eqn:?;
    destruct (String.eqb (TopicTmpl s) "") eqn:?;
    destruct (String.eqb (PartitionTmpl s) "") eqn:?;
    repeat split; try done; by apply eqb_empty.
Qed.

Lemma complete_entry_completed (s s' : syslog) :
  complete_entry s = (s', None) → completed s'.
Proof.
  unfold Conf.complete_entry. cbn zeta.
  pose proof (fill_defaults_filled s) as (HP & HB & HF & HPr & HT & HPa).
  remember (fill_defaults s) as f eqn:Hf. clear Hf. simpl.
  destruct (Parse "topic" _) as [t|] eqn:Ht; [|done].
  destruct (Parse "partition" _) as [t'|] eqn:Ht'; [|done].
  destruct (ParseIP _) as [ip|] eqn:Hip; [|done].
  intros [= <-]. unfold Conf.completed. simpl.
  rewrite Ht, Ht', Hip.
  repeat (split; [done|]). exists ip. split; [done|].
  by destruct (IsUnspecified ip).
Qed.

(** A completed entry goes through the loop unchanged. *)
Lemma complete_entry_fixed (s : syslog) :
  completed s → complete_entry s = (s, None).
Proof.
  intros (HP & HB & HF & HPr & HT & HPa & Ht & Ht' & Hip & [t Hst] & [t' Hst']
          & ip & Hsip & Hl).
  assert (fill_defaults s = s) as Hfill.
  { unfold fill_defaults. destruct s. simpl in *.
    destruct (Z.eqb_spec Port0 0); [done|].
    repeat match goal with
           | |- context [String.eqb ?x ""] =>
               destruct (String.eqb_spec x ""); [done|]
           end.
    done. }
  unfold Conf.complete_entry. cbn zeta. rewrite Hfill. simpl.
  rewrite <- Ht, Hst, <- Ht', Hst', <- Hip, Hsip.
  f_equal. destruct s. simpl in *. rewrite Hl, Hst, Hst', Hsip.
  by destruct (IsUnspecified ip).
Qed.

Lemma complete_entries_completed (l l' : list syslog) :
  complete_entries l = (l', None) →
  Forall completed l' ∧ length l' = length l.
Proof.
  revert l'. induction l as [|s l IH]; intros l'; simpl.
  { by intros [= <-]. }
  destruct (complete_entry s) as [s' [e|]] eqn:Hs; [done|].
  destruct (complete_entries l) as [rest e] eqn:Hrest.
  intros [= <- ->]. destruct (IH rest eq_refl) as [Hall Hlen].
  split; [|simpl; by rewrite Hlen].
  constructor; [|done]. by eapply complete_entry_completed.
Qed.

Lemma complete_entries_fixed (l : list syslog) :
  Forall completed l → complete_entries l = (l, None).
Proof.
  induction 1 as [|s l Hs Hl IH]; simpl; [done|].
  by rewrite complete_entry_fixed, IH.
Qed.

(** X4. [Complete] does not panic.  When it returns without
    error, the configuration has at least one syslog entry, as many as
    before if there were some, the version and the compression codec of
    Kafka are set, and no entry lacks a port, an address, a format, a
    protocol, a template or a listening address.  A second [Complete]
    then changes nothing and succeeds. *)
Theorem Complete_fills_every_entry (c : gconfig) :
  Complete c ≠ None
  ∧ ∀ c', Complete c = Some (c', None) →
          Forall completed (Syslog (base c'))
          ∧ (length (Syslog (base c'))
             = Nat.max 1 (length (Syslog (base c))))%nat
          ∧ is_Some (pVersion (Kafka (base c')))
          ∧ Store (base c') = Store (base c)
          ∧ Complete c' = Some (c', None).
Proof.
  unfold Conf.Complete. cbn zeta.
  pose proof (ParseVersion_in_range
                (Bytes.of_string (Version (Kafka (base c))))) as Hpanic.
  destruct (ParseVersion _) as [[v|e]|] eqn:Hv; [|done|done].
  destruct (complete_entries _) as [syslog' e] eqn:Hentries.
  split; [done|]. intros c' [= <- ->].
  apply complete_entries_completed in Hentries as [Hall Hlen].
  cbn [base Syslog Kafka Store pVersion Version Compression kafka_fields
       GDirname ConsulPrefix ConsulParams handles].
  split; [done|]. split.
  { rewrite Hlen. by destruct (Syslog (base c)); simpl; lia. }
  split; [by eexists|]. split; [done|].
  rewrite Hv.
  assert (match syslog' with [] => [default_syslog] | _ :: _ => syslog' end
          = syslog') as ->.
  { destruct syslog'; [|done]. destruct (Syslog (base c)); simpl in Hlen; lia. }
  by rewrite complete_entries_fixed.
Qed.

End CompleteProperties.

(** A configuration without syslog entry, for Kafka 0.10.1.0 with gzip:
    [Complete] installs the default entry, which listens on
    [127.0.0.1:2514], and a second [Complete] leaves it as it is. *)
Lemma Complete_fills_every_entry_witness :
  let Parse := fun (_ text : string) => Some text in
  let ParseIP := fun addr : string => Some addr in
  let IsUnspecified := fun ip : string => String.eqb ip "0.0.0.0" in
  let IPString := fun ip : string => ip in
  let c :=
    Conf.mkG
      (Conf.mkBase []
         (Conf.mkKafka "0.10.1.0" "gzip" None Conf.CompressionNone tt)
         (Conf.mkStore "/var/lib/skewer"))
      "/etc" "skewer" tt tt in
  ∃ c', Conf.Complete Parse ParseIP IsUnspecified IPString c = Some (c', None)
        ∧ map Conf.ListenAddr (Conf.Syslog (Conf.base c'))
          = ["127.0.0.1:2514"%string]
        ∧ Conf.pCompression (Conf.Kafka (Conf.base c')) = Conf.CompressionGZIP
        ∧ Conf.Complete Parse ParseIP IsUnspecified IPString c'
          = Some (c', None).
Proof.
  intros Parse ParseIP IsUnspecified IPString c.
  destruct (Conf.Complete Parse ParseIP IsUnspecified IPString c)
    as [[c' e]|] eqn:Hc; [|discriminate Hc].
  vm_compute in Hc. injection Hc as <- <-.
  eexists. split; [reflexivity|]. split; [reflexivity|].
  split; [reflexivity|].
  apply (Complete_fills_every_entry Parse ParseIP IsUnspecified IPString c).
  reflexivity.
Defined.

(** ** The split functions and the contract of [bufio.SplitFunc] *)

Section SplitProperties.
Import Bytes.

Lemma TrimLeft_prefix (data cutset : list byte) :
  ∃ pre, data = pre ++ TrimLeft data cutset
         ∧ Forall (λ b, mem b cutset = true) pre.
Proof.
  induction data as [|b data (pre & Hdata & Hpre)]; simpl.
  - by exists [].
  - destruct (mem b cutset) eqn:Hb.
    + exists (b :: pre). split; [simpl; by f_equal|by constructor].
    + by exists [].
Qed.

Lemma TrimLeft_head (data cutset : list byte) first t :
  TrimLeft data cutset = first :: t → mem first cutset = false.
Proof.
  induction data as [|b data IH]; simpl; [done|].
  destruct (mem b cutset) eqn:Hb; [done|]. by intros [= -> _].
Qed.

Lemma TrimLeft_len (data cutset : list byte) :
  0 <= len data - len (TrimLeft data cutset).
Proof.
  destruct (TrimLeft_prefix data cutset) as (pre & Hdata & _).
  rewrite Hdata at 1. rewrite len_app. pose proof (len_nonneg pre). lia.
Qed.

Lemma index_where_range p (s : list byte) : -1 <= index_where p s < len s ∨ s = [] ∧ index_where p s = -1.
Proof.
  induction s as [|b s IH]; simpl; [by right|]. left.
  rewrite len_cons. pose proof (len_nonneg s).
  destruct (p b); [lia|].
  destruct (Z.ltb_spec (index_where p s) 0); [lia|].
  destruct IH as [IH|[-> IH]]; [lia|]. simpl in *. lia.
Qed.

Lemma index_where_bounds p (s : list byte) :
  -1 <= index_where p s ∧ (index_where p s < len s ∨ index_where p s = -1).
Proof.
  destruct (index_where_range p s) as [?|[_ ?]]; lia.
Qed.

Lemma index_where_none p (s : list byte) :
  Forall (λ b, p b = false) s → index_where p s = -1.
Proof.
  induction 1 as [|b s Hb _ IH]; simpl; [done|]. by rewrite Hb, IH.
Qed.

Lemma index_where_head p b (s : list byte) :
  p b = false → index_where p (b :: s) ≠ 0.
Proof.
  intros Hb. simpl. rewrite Hb.
  destruct (Z.ltb_spec (index_where p s) 0); lia.
Qed.

Lemma slice_Some (s : list byte) lo hi r :
  slice s lo hi = Some r → 0 <= lo ∧ lo <= hi ∧ hi <= len s.
Proof.
  unfold slice.
  destruct (Z.leb_spec 0 lo), (Z.leb_spec lo hi), (Z.leb_spec hi (len s));
    simpl; try done; lia.
Qed.

Lemma slice_None (s : list byte) lo hi :
  ¬ (0 <= lo ∧ lo <= hi ∧ hi <= len s) → slice s lo hi = None.
Proof.
  intros Hout. unfold slice.
  destruct (Z.leb_spec 0 lo), (Z.leb_spec lo hi), (Z.leb_spec hi (len s));
    simpl; try done; lia.
Qed.

Lemma slice_is_Some (s : list byte) lo hi :
  0 <= lo → lo <= hi → hi <= len s → is_Some (slice s lo hi).
Proof.
  intros. unfold slice.
  destruct (Z.leb_spec 0 lo), (Z.leb_spec lo hi), (Z.leb_spec hi (len s));
    simpl; try lia; by eexists.
Qed.

Lemma Atoi_range (s : list byte) v :
  Atoi s = Some v → - 2 ^ 63 <= v < 2 ^ 63.
Proof.
  unfold Atoi.
  destruct (match s with
            | [] => (false, [])
            | b :: rest =>
                if Byte.eqb b Byte.x2d then (true, rest)
                else if Byte.eqb b Byte.x2b then (false, rest) else (false, s)
            end) as [neg body].
  destruct body as [|b body]; [done|].
  destruct (digits_value 0 (b :: body)) as [v'|]; [|done].
  destruct (Z.leb_spec (- 2 ^ 63) (if neg then - v' else v'));
    destruct (Z.ltb_spec (if neg then - v' else v') (2 ^ 63)); simpl; try done.
  intros [= <-]. lia.
Qed.

Lemma i64_cases z :
  - 2 ^ 63 <= z < 2 ^ 64 →
  i64 z = z ∧ z < 2 ^ 63 ∨ i64 z = z - 2 ^ 64 ∧ 2 ^ 63 <= z.
Proof.
  intros Hz. unfold i64. destruct (Z.lt_ge_cases z (2 ^ 63)).
  - left. rewrite Z.mod_small; lia.
  - right. split; [|done].
    rewrite <- (Z_mod_plus_full _ (-1)). rewrite Z.mod_small; lia.
Qed.

(** The slice bound and the advance that the counted branch computes: when
    the slice is in range, neither wrapped around. *)
Lemma counted_in_range trimmed sp datalen lentd :
  0 <= trimmed → 0 < sp < lentd → trimmed + lentd < 2 ^ 63 →
  - 2 ^ 63 <= datalen < 2 ^ 63 →
  sp + 1 <= i64 (sp + 1 + datalen) <= lentd →
  i64 (sp + 1 + datalen) = sp + 1 + datalen
  ∧ i64 (trimmed + sp + 1 + datalen) = trimmed + sp + 1 + datalen.
Proof.
  intros Ht Hsp Hlen Hd Hslice.
  destruct (i64_cases (sp + 1 + datalen)) as [[Heq ?]|[Heq ?]]; [lia| |lia].
  split; [done|]. apply i64_small. lia.
Qed.

(** The slice bound when the count is negative or the advance overflows:
    the slice is out of range. *)
Lemma counted_out_of_range trimmed sp datalen lentd :
  0 <= trimmed → 0 < sp < lentd → trimmed + lentd < 2 ^ 63 →
  - 2 ^ 63 <= datalen < 2 ^ 63 →
  datalen < 0 ∨ 2 ^ 63 <= trimmed + sp + 1 + datalen →
  ¬ (sp + 1 <= i64 (sp + 1 + datalen) <= lentd)
  ∧ i64 (trimmed + sp + 1 + datalen) <= trimmed + lentd.
Proof.
  intros Ht Hsp Hlen Hd Hbad.
  destruct (i64_cases (sp + 1 + datalen)) as [[Heq ?]|[Heq ?]]; [lia| |];
    destruct (i64_cases (trimmed + sp + 1 + datalen)) as [[Heq' ?]|[Heq' ?]];
    lia.
Qed.

Lemma getline_contract (td : list byte) trimmed eoferr advance token err :
  0 <= trimmed →
  Network.getline td trimmed eoferr = Network.SplitRet advance token err →
  advance = 0 ∧ token = [] ∨ 0 < advance <= trimmed + len td ∧ err = None.
Proof.
  intros Ht. unfold Network.getline.
  destruct (Z.eqb_spec (IndexByte td LF) 0) as [Hz|Hnz].
  { intros [= <- <- <-]. by left. }
  destruct (slice td 0 (IndexByte td LF)) as [line|] eqn:Hs; [|done].
  apply slice_Some in Hs. intros [= <- <- <-]. right.
  unfold IndexByte in *. split; [|done].
  destruct (index_where_bounds (Byte.eqb LF) td) as [? [?|?]]; lia.
Qed.

(** X5. The two copies of [TcpSplit] keep the contract of
    a split function on every input: when they return, the advance is
    neither negative nor beyond the data they were given, an advance of
    zero comes with no token, and a token comes without error. *)
Theorem TcpSplit_advance_within_data
    (data : list byte) (atEOF : bool) advance token eoferr :
  len data < 2 ^ 63 →
  Network.TcpSplit data atEOF = Network.SplitRet advance token eoferr
  ∨ Server.TcpSplit data atEOF = Network.SplitRet advance token eoferr →
  0 <= advance <= len data
  ∧ (advance = 0 → token = [])
  ∧ (0 < advance → eoferr = None).
Proof.
  intros Hlen Hsplit.
  pose proof (TrimLeft_len data ws) as Htrimmed.
  pose proof (len_nonneg data) as Hdata.
  assert (advance = 0 ∧ token = []
          ∨ 0 < advance <= len data ∧ eoferr = None) as Hret.
  { destruct Hsplit as [Hsplit|Hsplit]; revert Hsplit.
    - unfold Network.TcpSplit. cbv zeta.
      destruct (TrimLeft data ws) as [|first t] eqn:Htd.
      { intros [= <- <- <-]. by left. }
      pose proof (TrimLeft_head _ _ _ _ Htd) as Hfirst.
      set (td := first :: t) in *.
      assert (∀ eoferr',
                Network.getline td (len data - len td) eoferr'
                = Network.SplitRet advance token eoferr →
                advance = 0 ∧ token = []
                ∨ 0 < advance <= len data ∧ eoferr = None) as Hline.
      { intros eoferr' Hg. apply getline_contract in Hg; [|done].
        destruct Hg as [?|[? ?]]; [by left|right; split; [lia|done]]. }
      destruct (Byte.eqb first LT); [apply Hline|].
      destruct (Z.leb_spec (IndexAny td [SP; LF]) 0) as [Hsp|Hsp].
      { intros [= <- <- <-]. by left. }
      destruct (slice td 0 (IndexAny td [SP; LF])) as [tok|] eqn:Htok; [|done].
      destruct (Atoi (Trim tok ws)) as [datalen|] eqn:Hatoi; [|apply Hline].
      apply Atoi_range in Hatoi.
      destruct (Z.ltb_spec (len data)
                  (i64 (len data - len td + IndexAny td [SP; LF] + 1 + datalen))).
      { intros [= <- <- <-]. by left. }
      destruct (slice td (IndexAny td [SP; LF] + 1) _) as [body|] eqn:Hbody;
        [|done].
      apply slice_Some in Hbody. intros [= <- <- <-]. right.
      apply slice_Some in Htok.
      unfold IndexAny in *.
      destruct (index_where_bounds (λ b, mem b [SP; LF]) td) as [_ [Hlt|?]];
        [|lia].
      destruct (counted_in_range (len data - len td)
                  (index_where (λ b, mem b [SP; LF]) td) datalen (len td))
        as [Hhi Hadv]; try lia.
      rewrite Hadv. split; [lia|done].
    - unfold Server.TcpSplit. cbv zeta.
      destruct (TrimLeft data ws) as [|first t] eqn:Htd.
      { intros [= <- <- <-]. by left. }
      pose proof (TrimLeft_head _ _ _ _ Htd) as Hfirst.
      set (td := first :: t) in *.
      destruct (Byte.eqb first LT).
      { destruct (Z.leb_spec 0 (IndexByte td LF)) as [Hlf|Hlf].
        - destruct (slice td 0 (IndexByte td LF)) as [line|] eqn:Hs; [|done].
          apply slice_Some in Hs. intros [= <- <- <-]. right.
          unfold IndexByte in *. split; [|done].
          destruct (index_where_bounds (Byte.eqb LF) td) as [? [?|?]]; lia.
        - intros [= <- <- <-]. by left. }
      destruct (Z.leb_spec (IndexAny td [SP; LF]) 0) as [Hsp|Hsp].
      { intros [= <- <- <-]. by left. }
      destruct (slice td 0 (IndexAny td [SP; LF])) as [tok|] eqn:Htok; [|done].
      destruct (Atoi (Trim tok ws)) as [datalen|] eqn:Hatoi.
      2:{ intros [= <- <- <-]. by left. }
      apply Atoi_range in Hatoi.
      destruct (Z.leb_spec
                  (i64 (len data - len td + IndexAny td [SP; LF] + 1 + datalen))
                  (len data)).
      2:{ intros [= <- <- <-]. by left. }
      destruct (slice td (IndexAny td [SP; LF] + 1) _) as [body|] eqn:Hbody;
        [|done].
      apply slice_Some in Hbody. intros [= <- <- <-]. right.
      apply slice_Some in Htok.
      unfold IndexAny in *.
      destruct (index_where_bounds (λ b, mem b [SP; LF]) td) as [_ [Hlt|?]];
        [|lia].
      destruct (counted_in_range (len data - len td)
                  (index_where (λ b, mem b [SP; LF]) td) datalen (len td))
        as [Hhi Hadv]; try lia.
      rewrite Hadv. split; [lia|done]. }
  destruct Hret as [[-> ->]|[Hadv ->]]; repeat split; try done; lia.
Qed.


(** X6. The data start with white space and then a token
    that is not a line in angle brackets, is followed by a space or an LF
    and is read by [Atoi] as the number [N].  When [N] is negative, or so
    large that the advance does not fit an [int], both copies of
    [TcpSplit] panic on a slice whose bounds are out of range. *)
Theorem TcpSplit_panics_on_bad_count
    (pre : list byte) first tok' sep more atEOF N :
  let tok := first :: tok' in
  let data := pre ++ tok ++ sep :: more in
  len data < 2 ^ 63 →
  Forall (λ b, mem b ws = true) pre →
  mem first ws = false →
  Byte.eqb first LT = false →
  Forall (λ b, mem b [SP; LF] = false) tok →
  mem sep [SP; LF] = true →
  Atoi (Trim tok ws) = Some N →
  N < 0 ∨ 2 ^ 63 <= len pre + len tok + 1 + N →
  Network.TcpSplit data atEOF = Network.SplitPanic
  ∧ Server.TcpSplit data atEOF = Network.SplitPanic.
Proof.
  intros tok data Hint Hpre Hfirst Hlt Hnosep Hsep Hatoi Hbad.
  destruct (framing_prefix pre tok first tok' sep more)
    as (Htrim & Htrim2 & Htrimmed & Hsp & Hpos & Hslice); try done.
  fold data in Htrim, Htrim2, Htrimmed, Hsp, Hslice.
  assert (len data = len pre + (len tok + 1 + len more)) as Hdata.
  { unfold data. rewrite !len_app, len_cons. lia. }
  assert (len (TrimLeft data ws) = len tok + 1 + len more) as Htd.
  { rewrite Htrim2. rewrite len_app, len_cons. lia. }
  pose proof (len_nonneg pre). pose proof (len_nonneg more).
  assert (0 < len tok) as Htokpos by lia.
  pose proof (Atoi_range _ _ Hatoi) as HN.
  destruct (counted_out_of_range (len pre) (len tok) N
              (len tok + 1 + len more)) as [Hout Hadv]; try lia.
  assert (slice (TrimLeft data ws) (len tok + 1) (i64 (len tok + 1 + N))
          = None) as Hbody.
  { apply slice_None. rewrite Htd. lia. }
  split.
  - unfold Network.TcpSplit. cbv zeta.
    rewrite Htrimmed, Hsp. rewrite Htrim at 1.
    rewrite Hlt, Hpos, Hslice, Hatoi, Hbody.
    by destruct (Z.ltb_spec (len data) (i64 (len pre + len tok + 1 + N)));
      [lia|].
  - unfold Server.TcpSplit. cbv zeta.
    rewrite Htrimmed, Hsp. rewrite Htrim at 1.
    rewrite Hlt, Hpos, Hslice, Hatoi, Hbody.
    by destruct (Z.leb_spec (i64 (len pre + len tok + 1 + N)) (len data));
      [|lia].
Qed.

(** X7. The data hold white space and then the start of
    a line whose LF has not arrived.  If the line starts with ['<'], or if
    its leading token is followed by a space and is not a number, the
    [TcpSplit] of package [network] panics in [getline] (a slice up to
    [-1]), where the copy of package [server] asks for more data, or stops
    with the error of [Atoi].  If nothing follows the leading token yet,
    both copies ask for more data. *)
Theorem TcpSplit_line_without_LF (pre : list byte) first line' atEOF :
  let line := first :: line' in
  Forall (λ b, mem b ws = true) pre →
  mem first ws = false →
  Forall (λ b, Byte.eqb LF b = false) line →
  (Byte.eqb first LT = true →
   Network.TcpSplit (pre ++ line) atEOF = Network.SplitPanic
   ∧ Server.TcpSplit (pre ++ line) atEOF = Network.SplitRet 0 [] None)
  ∧ (Byte.eqb first LT = false →
     leading_token line ≠ line →
     Atoi (Trim (leading_token line) ws) = None →
     Network.TcpSplit (pre ++ line) atEOF = Network.SplitPanic
     ∧ Server.TcpSplit (pre ++ line) atEOF
       = Network.SplitRet 0 [] (Some Network.NumError))
  ∧ (Byte.eqb first LT = false →
     leading_token line = line →
     Network.TcpSplit (pre ++ line) atEOF
     = Network.SplitRet 0 [] (if atEOF then Some Network.EOF else None)
     ∧ Server.TcpSplit (pre ++ line) atEOF = Network.SplitRet 0 [] None).
Proof.
  intros line Hpre Hfirst Hnolf.
  assert (TrimLeft (pre ++ line) ws = line) as Htrim.
  { rewrite TrimLeft_skip by done. by apply TrimLeft_stop. }
  assert (IndexByte line LF = -1) as Hlf by (by apply index_where_none).
  assert (∀ trimmed eoferr,
            Network.getline line trimmed eoferr = Network.SplitPanic) as Hgetline.
  { intros trimmed eoferr. unfold Network.getline. by rewrite Hlf. }
  split; [|split].
  - intros Hlt. split.
    + unfold Network.TcpSplit. cbv zeta. rewrite Htrim. unfold line at 1.
      by rewrite Hlt.
    + unfold Server.TcpSplit. cbv zeta. rewrite Htrim. unfold line at 1.
      by rewrite Hlt, Hlf.
  - intros Hlt Hsep Hatoi.
    destruct (leading_token_spec line) as [Htok [Hall|(sep & more & Hs & Hl)]];
      [done|].
    assert (IndexAny line [SP; LF] = len (leading_token line)) as Hsp.
    { rewrite Hl at 1. by apply index_where_found. }
    assert (0 < len (leading_token line)) as Hpos.
    { unfold line. simpl. rewrite (not_ws_not_sep _ Hfirst), len_cons.
      pose proof (len_nonneg (leading_token line')). lia. }
    assert (slice line 0 (len (leading_token line))
            = Some (leading_token line)) as Hslice.
    { rewrite Hl at 1. apply slice_front. }
    split.
    + unfold Network.TcpSplit. cbv zeta. rewrite Htrim. unfold line at 1.
      rewrite Hlt. fold line. rewrite Hsp.
      destruct (Z.leb_spec (len (leading_token line)) 0); [lia|].
      by rewrite Hslice, Hatoi.
    + unfold Server.TcpSplit. cbv zeta. rewrite Htrim. unfold line at 1.
      rewrite Hlt. fold line. rewrite Hsp.
      destruct (Z.leb_spec (len (leading_token line)) 0); [lia|].
      by rewrite Hslice, Hatoi.
  - intros Hlt Hall.
    destruct (leading_token_spec line) as [Htok _]. rewrite Hall in Htok.
    assert (IndexAny line [SP; LF] = -1) as Hsp by (by apply index_where_none).
    split.
    + unfold Network.TcpSplit. cbv zeta. rewrite Htrim. unfold line at 1.
      rewrite Hlt. fold line. by rewrite Hsp.
    + unfold Server.TcpSplit. cbv zeta. rewrite Htrim. unfold line at 1.
      rewrite Hlt. fold line. by rewrite Hsp.
Qed.

(** X8. [makeLFTCPSplit] panics on an empty delimiter.  For any
    other delimiter, the split function it makes never panics and keeps
    the contract of a split function.  A frame that follows the leading
    white space and ends with the delimiter byte is consumed with its
    delimiter and returned without the white space at its ends.  Without a
    delimiter byte in the data the function asks for more data, and so it
    does when the delimiter byte comes first after the white space: an
    empty frame is never consumed, unless the delimiter is itself white
    space. *)
Theorem makeLFTCPSplit_frames (delim : byte) (delimiter' : list byte) :
  Network.makeLFTCPSplit [] = None
  ∧ ∃ split,
      Network.makeLFTCPSplit (delim :: delimiter') = Some split
      ∧ (∀ data atEOF,
           len data < 2 ^ 63 →
           ∃ advance token eoferr,
             split data atEOF = Network.SplitRet advance token eoferr
             ∧ 0 <= advance <= len data
             ∧ (advance = 0 →
                token = []
                ∧ eoferr = if atEOF then Some Network.EOF else None)
             ∧ (0 < advance → eoferr = None))
      ∧ (∀ pre first frame' more atEOF,
           len (pre ++ (first :: frame') ++ delim :: more) < 2 ^ 63 →
           Forall (λ b, mem b ws = true) pre →
           mem first ws = false →
           Forall (λ b, Byte.eqb delim b = false) (first :: frame') →
           split (pre ++ (first :: frame') ++ delim :: more) atEOF
           = Network.SplitRet (len pre + len (first :: frame') + 1)
                              (Trim (first :: frame') ws) None)
      ∧ (∀ pre rest atEOF,
           Forall (λ b, mem b ws = true) pre →
           Forall (λ b, Byte.eqb delim b = false) rest →
           split (pre ++ rest) atEOF
           = Network.SplitRet 0 [] (if atEOF then Some Network.EOF else None))
      ∧ (∀ pre more atEOF,
           Forall (λ b, mem b ws = true) pre →
           mem delim ws = false →
           split (pre ++ delim :: more) atEOF
           = Network.SplitRet 0 [] (if atEOF then Some Network.EOF else None)).
Proof.
  split; [done|]. eexists. split; [reflexivity|]. cbv beta zeta.
  split; [|split; [|split]].
  - intros data atEOF Hint.
    pose proof (TrimLeft_len data ws) as Htrimmed.
    pose proof (len_nonneg (TrimLeft data ws)) as Htd.
    destruct (Z.eqb_spec (len (TrimLeft data ws)) 0).
    { eexists _, _, _. split; [done|]. pose proof (len_nonneg data).
      repeat split; try done; lia. }
    destruct (Z.ltb_spec (IndexByte (TrimLeft data ws) delim) 1) as [Hlf|Hlf].
    { eexists _, _, _. split; [done|]. pose proof (len_nonneg data).
      repeat split; try done; lia. }
    unfold IndexByte in *.
    destruct (index_where_bounds (Byte.eqb delim) (TrimLeft data ws))
      as [_ [Hlt|?]]; [|lia].
    destruct (slice_is_Some (TrimLeft data ws) 0
                (index_where (Byte.eqb delim) (TrimLeft data ws)))
      as [frame ->]; try lia.
    rewrite i64_small by lia.
    eexists _, _, _. split; [done|]. repeat split; try done; lia.
  - intros pre first frame' more atEOF Hint Hpre Hfirst Hnodelim.
    assert (TrimLeft (pre ++ (first :: frame') ++ delim :: more) ws
            = (first :: frame') ++ delim :: more) as ->.
    { rewrite TrimLeft_skip by done. by apply TrimLeft_stop. }
    assert (IndexByte ((first :: frame') ++ delim :: more) delim
            = len (first :: frame')) as ->.
    { apply index_where_found; [done|]. by apply Byte.byte_dec_lb. }
    rewrite slice_front.
    rewrite !len_app, !len_cons in *.
    pose proof (len_nonneg pre). pose proof (len_nonneg frame').
    pose proof (len_nonneg more).
    destruct (Z.eqb_spec (len frame' + 1 + (len more + 1)) 0); [lia|].
    destruct (Z.ltb_spec (len frame' + 1) 1); [lia|].
    rewrite i64_small by lia. f_equal. lia.
  - intros pre rest atEOF Hpre Hnodelim.
    rewrite TrimLeft_skip by done.
    destruct (Z.eqb_spec (len (TrimLeft rest ws)) 0); [done|].
    assert (IndexByte (TrimLeft rest ws) delim = -1) as ->; [|done].
    apply index_where_none.
    destruct (TrimLeft_prefix rest ws) as (pre' & Hrest & _).
    rewrite Hrest in Hnodelim. by apply Forall_app in Hnodelim as [_ ?].
  - intros pre more atEOF Hpre Hdelim.
    rewrite TrimLeft_skip by done. rewrite TrimLeft_stop by done.
    destruct (Z.eqb_spec (len (delim :: more)) 0); [done|].
    unfold IndexByte. simpl. by rewrite (Byte.byte_dec_lb (eq_refl delim)).
Qed.

End SplitProperties.

(** On [5 hello world] the count is 5: seven bytes are consumed, within
    the thirteen that were given. *)
Lemma TcpSplit_advance_within_data_witness :
  Network.TcpSplit (Bytes.of_string "5 hello world") false
  = Network.SplitRet 7 (Bytes.of_string "hello") None
  ∧ 0 <= 7 <= Bytes.len (Bytes.of_string "5 hello world").
Proof.
  split; [reflexivity|].
  apply (TcpSplit_advance_within_data (Bytes.of_string "5 hello world") false
           7 (Bytes.of_string "hello") None); [reflexivity|].
  left. reflexivity.
Defined.

(** The count [-1]. *)
Lemma TcpSplit_panics_on_bad_count_witness :
  Network.TcpSplit (Bytes.of_string "-1 hello") false = Network.SplitPanic
  ∧ Server.TcpSplit (Bytes.of_string "-1 hello") false = Network.SplitPanic.
Proof.
  apply (TcpSplit_panics_on_bad_count [] Byte.x2d [Byte.x31] Bytes.SP
           (Bytes.of_string "hello") false (-1)).
  - reflexivity.
  - constructor.
  - reflexivity.
  - reflexivity.
  - repeat constructor.
  - reflexivity.
  - reflexivity.
  - left. reflexivity.
Defined.

(** The start of the line [<14>hello], before its LF. *)
Lemma TcpSplit_line_without_LF_witness :
  Network.TcpSplit (Bytes.of_string "<14>hello") false = Network.SplitPanic
  ∧ Server.TcpSplit (Bytes.of_string "<14>hello") false
    = Network.SplitRet 0 [] None.
Proof.
  destruct (TcpSplit_line_without_LF [] Bytes.LT (Bytes.of_string "14>hello")
              false) as [Hangle _].
  - constructor.
  - reflexivity.
  - repeat constructor.
  - apply Hangle. reflexivity.
Defined.

(** Frames that end with LF: [ hello<LF>] gives the frame [hello]. *)
Lemma makeLFTCPSplit_frames_witness :
  ∃ split,
    Network.makeLFTCPSplit [Bytes.LF] = Some split
    ∧ split (Bytes.of_string " hello" ++ [Bytes.LF]) false
      = Network.SplitRet 7 (Bytes.of_string "hello") None.
Proof.
  destruct (makeLFTCPSplit_frames Bytes.LF [])
    as (_ & split & Hsplit & _ & Hframe & _).
  exists split. split; [exact Hsplit|].
  apply (Hframe [Bytes.SP] Byte.x68 (Bytes.of_string "ello") [] false).
  - reflexivity.
  - repeat constructor.
  - reflexivity.
  - repeat constructor.
Defined.

(** ** The ring buffer is a queue *)

Section RingQueueProperties.
Import Ring.

Context {T : Type}.

Local Abbreviation ring := (Ring.RawTCPRing T).

Lemma contents_length (rb : ring) :
  Z.of_nat (length (contents rb)) = Len rb.
Proof.
  unfold contents. rewrite length_map, length_seq.
  pose proof (Len_range rb). lia.
Qed.

Lemma contents_empty (rb : ring) : contents rb = [] ↔ Len rb = 0.
Proof.
  pose proof (contents_length rb) as Hlen. split.
  - intros Hnil. by rewrite Hnil in Hlen.
  - intros Hz. rewrite Hz in Hlen. by destruct (contents rb).
Qed.

Lemma item_at_put_done_old (rb : ring) item k :
  wf rb → Len rb < Cap rb → 0 <= k < Len rb →
  item_at (put_done rb item) k = item_at rb k.
Proof.
  intros [Hsized Hseq] Hroom Hk. unfold item_at.
  change (slot (put_done rb item)) with (slot rb).
  change (dequeue (put_done rb item)) with (dequeue rb).
  change (nodes (put_done rb item))
    with (<[slot rb (queue rb) := mkNode (u64 (queue rb + 1)) item]>
            (nodes rb)).
  rewrite list_lookup_insert_ne; [done|].
  rewrite (queue_is_dequeue_plus_len rb Hseq). intros Heq.
  apply slot_inj in Heq; [lia|done|lia|lia].
Qed.

Lemma item_at_put_done_new (rb : ring) item :
  wf rb → Len rb < Cap rb →
  item_at (put_done rb item) (Len rb) = item.
Proof.
  intros [Hsized Hseq] Hroom. unfold item_at.
  change (slot (put_done rb item)) with (slot rb).
  change (dequeue (put_done rb item)) with (dequeue rb).
  change (nodes (put_done rb item))
    with (<[slot rb (queue rb) := mkNode (u64 (queue rb + 1)) item]>
            (nodes rb)).
  rewrite <- (queue_is_dequeue_plus_len rb Hseq).
  pose proof (Len_range rb).
  destruct (node_at rb (Len rb) Hseq) as (n & Hn & _); [lia|].
  rewrite <- queue_is_dequeue_plus_len in Hn by done.
  apply lookup_lt_Some in Hn. by rewrite list_lookup_insert_eq.
Qed.

(** A [put] that wins its slot appends the item to the waiting items. *)
Lemma contents_put_done (rb : ring) item :
  wf rb → Len rb < Cap rb →
  contents (put_done rb item) = contents rb ++ [item].
Proof.
  intros Hwf Hroom. pose proof (Len_range rb) as HL.
  destruct (put_done_wf rb item Hwf Hroom) as (_ & Hlen & _).
  unfold contents. rewrite Hlen.
  replace (Z.to_nat (Len rb + 1)) with (S (Z.to_nat (Len rb))) by lia.
  rewrite seq_S, map_app. simpl. f_equal.
  - apply map_ext_in. intros k Hk. apply in_seq in Hk.
    apply item_at_put_done_old; [done|done|lia].
  - f_equal. rewrite Z2Nat.id by lia. by apply item_at_put_done_new.
Qed.

Lemma item_at_poll_done (rb : ring) k :
  wf rb → 0 < Len rb → 0 <= k < Len rb - 1 →
  item_at (poll_done rb) k = item_at rb (k + 1).
Proof.
  intros [Hsized Hseq] Hitem Hk. unfold item_at.
  change (slot (poll_done rb)) with (slot rb).
  change (dequeue (poll_done rb)) with (u64 (dequeue rb + 1)).
  change (nodes (poll_done rb))
    with (<[slot rb (dequeue rb)
            := mkNode (u64 (dequeue rb + mask rb + 1)) None]> (nodes rb)).
  rewrite u64_add_l.
  replace (dequeue rb + 1 + k) with (dequeue rb + (k + 1)) by lia.
  rewrite list_lookup_insert_ne; [done|].
  rewrite slot_dequeue by done. intros Heq.
  pose proof Hseq as (_ & _ & Hle & _).
  apply slot_inj in Heq; [lia|done|lia|lia].
Qed.

(** A [Poll] that wins its slot takes the oldest of the waiting items. *)
Lemma contents_poll_done (rb : ring) :
  wf rb → 0 < Len rb →
  contents rb = item_at rb 0 :: contents (poll_done rb).
Proof.
  intros Hwf Hitem. pose proof (Len_range rb) as HL.
  destruct (poll_done_wf rb Hwf Hitem) as (_ & Hlen & _).
  unfold contents. rewrite Hlen.
  replace (Z.to_nat (Len rb)) with (S (Z.to_nat (Len rb - 1))) by lia.
  simpl. f_equal. rewrite <- seq_shift, map_map.
  apply map_ext_in. intros k Hk. apply in_seq in Hk.
  rewrite item_at_poll_done by (done || lia). f_equal. lia.
Qed.

Lemma item_at_0 (rb : ring) n :
  sequenced rb → nodes rb !! slot rb (dequeue rb) = Some n →
  item_at rb 0 = data n.
Proof.
  intros Hseq Hn. unfold item_at.
  by rewrite <- slot_dequeue, Hn by done.
Qed.

Lemma contents_Dispose (rb : ring) : contents (Dispose rb) = contents rb.
Proof. unfold Dispose. by destruct (_ =? _). Qed.

(** [Put] with room in the ring. *)
Lemma Put_room (rb : ring) fuel item :
  wf rb → disposed rb ≠ 1 → Len rb < Cap rb →
  Put (S fuel) rb item = Done (put_done rb item) None.
Proof.
  intros Hwf Hd Hroom. unfold Put. by rewrite put_room.
Qed.

(** [Poll] with an item in the ring. *)
Lemma Poll_item (rb : ring) fuel timeout clock item rest :
  wf rb → contents rb = item :: rest →
  Poll (S fuel) rb timeout clock = Done (poll_done rb) (item, None)
  ∧ contents (poll_done rb) = rest.
Proof.
  intros Hwf Hcontents. pose proof (contents_length rb) as Hlen.
  rewrite Hcontents in Hlen. simpl in Hlen.
  assert (0 < Len rb) as Hitem by lia.
  destruct (poll_item rb fuel timeout clock Hwf Hitem) as (n & Hn & ->).
  rewrite (contents_poll_done rb Hwf Hitem) in Hcontents.
  injection Hcontents as Hhead Htail.
  rewrite (item_at_0 rb n) in Hhead by (done || apply Hwf).
  by rewrite Hhead, Htail.
Qed.

(** X9. The ring is a queue.  On a well-formed ring that is not
    disposed and has room, [Put] returns at once without error and the
    item becomes the last of the waiting items.  On a well-formed ring
    that holds items, disposed or not, [Poll] (and so [Get]) returns at
    once the oldest item, whatever its timeout, and the others keep their
    order.  The number of waiting items is [Len]. *)
Theorem ring_is_a_queue (rb : ring) :
  wf rb →
  (∀ fuel item,
     disposed rb ≠ 1 → Len rb < Cap rb →
     ∃ rb', Put (S fuel) rb item = Done rb' None
            ∧ wf rb'
            ∧ contents rb' = contents rb ++ [item]
            ∧ disposed rb' = disposed rb)
  ∧ (∀ fuel timeout clock item rest,
       contents rb = item :: rest →
       ∃ rb', Poll (S fuel) rb timeout clock = Done rb' (item, None)
              ∧ Get (S fuel) rb = Done rb' (item, None)
              ∧ wf rb'
              ∧ contents rb' = rest
              ∧ disposed rb' = disposed rb)
  ∧ Z.of_nat (length (contents rb)) = Len rb.
Proof.
  intros Hwf. split; [|split].
  - intros fuel item Hd Hroom. exists (put_done rb item).
    split; [by apply Put_room|].
    split; [by apply put_done_wf|].
    split; [by apply contents_put_done|done].
  - intros fuel timeout clock item rest Hcontents.
    pose proof (contents_length rb) as Hlen.
    rewrite Hcontents in Hlen. simpl in Hlen.
    exists (poll_done rb).
    destruct (Poll_item rb fuel timeout clock item rest Hwf Hcontents)
      as [Hpoll Hrest].
    destruct (Poll_item rb fuel 0 (λ _, 0) item rest Hwf Hcontents)
      as [Hget _].
    split; [done|]. split; [done|].
    split; [apply poll_done_wf; [done|lia]|]. by split.
  - apply contents_length.
Qed.


(** X10. Whatever calls are made one after the other on a
    well-formed ring of at least two slots, the ring stays well formed,
    its capacity does not change, and it never holds more items than its
    capacity. *)
Theorem ring_never_exceeds_capacity (rb : ring) fuel cs :
  wf rb → 2 <= Cap rb →
  wf (run_calls fuel rb cs)
  ∧ Cap (run_calls fuel rb cs) = Cap rb
  ∧ 0 <= Len (run_calls fuel rb cs) <= Cap rb
  ∧ Z.of_nat (length (contents (run_calls fuel rb cs))) <= Cap rb.
Proof.
  intros Hwf Hcap.
  destruct (run_calls_wf rb fuel cs Hwf Hcap) as [Hwf' Hcap'].
  pose proof (Len_range (run_calls fuel rb cs)).
  pose proof Hwf' as (_ & _ & _ & Hle & _).
  split; [done|]. split; [done|]. split; [lia|].
  rewrite contents_length. lia.
Qed.

(** X11. On a well-formed ring of at least two slots [Offer]
    returns in its first pass: with the error [Disposed] on a disposed
    ring, with [true] and the item queued when there is room, with [false]
    and the ring unchanged when the ring is full.  On that full ring [Put]
    does not return, however long it runs, as long as nothing is taken
    from the ring and the ring is not disposed. *)
Theorem Offer_never_waits (rb : ring) item :
  wf rb → 2 <= Cap rb →
  (disposed rb = 1 → Offer 1 rb item = Done rb (false, Some ErrDisposed))
  ∧ (disposed rb ≠ 1 → Len rb < Cap rb →
     Offer 1 rb item = Done (put_done rb item) (true, None))
  ∧ (disposed rb ≠ 1 → Len rb = Cap rb →
     Offer 1 rb item = Done rb (false, None)
     ∧ ∀ fuel, Put fuel rb item = Blocked).
Proof.
  intros Hwf Hcap. unfold Offer, Put. split; [|split].
  - intros Hd. by apply put_disposed.
  - intros Hd Hroom. by apply put_room.
  - intros Hd Hfull. split; [by apply offer_full|].
    intros fuel. by rewrite put_full_blocks.
Qed.

Lemma poll_loop_empty_waits (rb : ring) fuel timeout clock nb :
  wf rb → Len rb = 0 → disposed rb ≠ 1 →
  (∀ i, (nb <= i < nb + fuel)%nat → ¬ (0 < timeout ∧ timeout <= clock i)) →
  poll_loop fuel rb (dequeue rb) timeout clock nb = Blocked.
Proof.
  intros Hwf Hempty Hd. revert nb.
  induction fuel as [|fuel IH]; intros nb Hclock; simpl; [done|].
  rewrite poll_iter_empty by done. unfold poll_wait.
  destruct (Z.ltb_spec 0 timeout), (Z.leb_spec timeout (clock nb)); simpl;
    try (exfalso; apply (Hclock nb); lia).
  all: destruct (Z.eqb_spec (disposed rb) 1); [done|].
  all: apply IH; intros i Hi; apply Hclock; lia.
Qed.

Lemma poll_loop_empty_timeout (rb : ring) n fuel timeout clock nb :
  wf rb → Len rb = 0 → disposed rb ≠ 1 → 0 < timeout →
  (∀ i, (nb <= i < nb + n)%nat → clock i < timeout) →
  timeout <= clock (nb + n)%nat →
  poll_loop (S n + fuel) rb (dequeue rb) timeout clock nb
  = Done rb (None, Some ErrTimeout).
Proof.
  intros Hwf Hempty Hd Htimeout. revert nb.
  induction n as [|n IH]; intros nb Hclock Hlast; simpl.
  - rewrite poll_iter_empty by done. unfold poll_wait.
    rewrite Nat.add_0_r in Hlast.
    destruct (Z.ltb_spec 0 timeout), (Z.leb_spec timeout (clock nb));
      simpl; try lia. done.
  - rewrite poll_iter_empty by done. unfold poll_wait.
    pose proof (Hclock nb ltac:(lia)).
    destruct (Z.ltb_spec 0 timeout), (Z.leb_spec timeout (clock nb));
      simpl; try lia.
    destruct (Z.eqb_spec (disposed rb) 1); [done|].
    apply (IH (S nb)).
    + intros i Hi. apply Hclock. lia.
    + by replace (S nb + n)%nat with (nb + S n)%nat by lia.
Qed.

(** X12. On a well-formed ring that is empty and not
    disposed, and as long as nothing is put on it: [Get], and [Poll] with
    a timeout that is not positive, do not return; [Poll] with a positive
    timeout returns the error [Timeout], and leaves the ring as it is, in
    the first pass of its loop in which the time elapsed has reached the
    timeout, and not before. *)
Theorem Poll_on_empty_ring (rb : ring) :
  wf rb → Len rb = 0 → disposed rb ≠ 1 →
  (∀ fuel, Get fuel rb = Blocked)
  ∧ (∀ fuel timeout clock,
       timeout <= 0 → Poll fuel rb timeout clock = Blocked)
  ∧ (∀ timeout clock n fuel,
       0 < timeout →
       (∀ i, (i < n)%nat → clock i < timeout) →
       timeout <= clock n →
       Poll (S n + fuel) rb timeout clock = Done rb (None, Some ErrTimeout)
       ∧ ∀ fuel', (fuel' <= n)%nat → Poll fuel' rb timeout clock = Blocked).
Proof.
  intros Hwf Hempty Hd.
  assert (∀ fuel timeout clock,
            timeout <= 0 → Poll fuel rb timeout clock = Blocked) as Hwait.
  { intros fuel timeout clock Htimeout. unfold Poll.
    apply poll_loop_empty_waits; try done. intros i _. lia. }
  split; [|split; [done|]].
  - intros fuel. unfold Get. by apply Hwait.
  - intros timeout clock n fuel Htimeout Hclock Hlast. split.
    + unfold Poll. apply poll_loop_empty_timeout; try done.
      intros i Hi. apply Hclock. lia.
    + intros fuel' Hfuel. unfold Poll.
      apply poll_loop_empty_waits; try done.
      intros i Hi [_ Hreached]. specialize (Hclock i). lia.
Qed.

End RingQueueProperties.

(** A ring of two slots that holds 7: [Put(8)] queues 8 behind 7, and
    [Get] returns 7. *)
Lemma ring_is_a_queue_witness :
  let rb := Ring.put_done (Ring.NewRawTCPRing (T := nat) 2) (Some 7%nat) in
  Ring.contents rb = [Some 7%nat]
  ∧ (∃ rb', Ring.Put 1 rb (Some 8%nat) = Done rb' None
            ∧ Ring.contents rb' = [Some 7%nat; Some 8%nat])
  ∧ (∃ rb', Ring.Get 1 rb = Done rb' (Some 7%nat, None)
            ∧ Ring.contents rb' = []).
Proof.
  intros rb.
  assert (Ring.wf rb) as Hwf.
  { apply put_done_wf; [apply init_wf; lia|reflexivity]. }
  destruct (ring_is_a_queue rb Hwf) as (Hput & Hget & _).
  split; [reflexivity|]. split.
  - destruct (Hput 0%nat (Some 8%nat)) as (rb' & Hrb' & _ & Hc & _);
      [discriminate|reflexivity|].
    exists rb'. split; [exact Hrb'|exact Hc].
  - destruct (Hget 0%nat 0 (λ _, 0) (Some 7%nat) []) as (rb' & _ & Hrb' & _ & Hc & _);
      [reflexivity|].
    exists rb'. split; [exact Hrb'|exact Hc].
Defined.

(** A new ring of four slots after five [Put] and one [Get]. *)
Lemma ring_never_exceeds_capacity_witness :
  let rb := Ring.run_calls 3 (Ring.NewRawTCPRing (T := nat) 4)
              [Ring.CallPut (Some 1%nat); Ring.CallPut (Some 2%nat);
               Ring.CallPut (Some 3%nat); Ring.CallPut (Some 4%nat);
               Ring.CallPut (Some 5%nat); Ring.CallGet] in
  Ring.Cap rb = 4 ∧ 0 <= Ring.Len rb <= 4.
Proof.
  intros rb.
  destruct (ring_never_exceeds_capacity (Ring.NewRawTCPRing (T := nat) 4) 3
              [Ring.CallPut (Some 1%nat); Ring.CallPut (Some 2%nat);
               Ring.CallPut (Some 3%nat); Ring.CallPut (Some 4%nat);
               Ring.CallPut (Some 5%nat); Ring.CallGet])
    as (_ & Hcap & Hlen & _).
  - apply init_wf. lia.
  - by vm_compute.
  - split; [exact Hcap|exact Hlen].
Defined.

(** A full ring of two slots: [Offer] answers [false], [Put] waits. *)
Lemma Offer_never_waits_witness :
  let rb := Ring.run_calls 1 (Ring.NewRawTCPRing (T := nat) 2)
              [Ring.CallPut (Some 1%nat); Ring.CallPut (Some 2%nat)] in
  Ring.Offer 1 rb (Some 3%nat) = Done rb (false, None)
  ∧ Ring.Put 5 rb (Some 3%nat) = Blocked.
Proof.
  intros rb.
  destruct (Offer_never_waits rb (Some 3%nat)) as (_ & _ & Hfull).
  - apply run_calls_wf; [apply init_wf; lia|by vm_compute].
  - by vm_compute.
  - destruct Hfull as [Hoffer Hput]; [discriminate|reflexivity|].
    split; [exact Hoffer|apply Hput].
Defined.

(** An empty ring, a timeout of 10 and a clock that advances by 4 in each
    pass: the fourth pass returns the error [Timeout]. *)
Lemma Poll_on_empty_ring_witness :
  let rb := Ring.NewRawTCPRing (T := nat) 2 in
  let clock := fun nb : nat => 4 * Z.of_nat nb in
  Ring.Poll 4 rb 10 clock = Done rb (None, Some ErrTimeout)
  ∧ Ring.Poll 3 rb 10 clock = Blocked
  ∧ Ring.Get 100 rb = Blocked.
Proof.
  intros rb clock.
  destruct (Poll_on_empty_ring rb) as (Hget & _ & Hpoll).
  - apply init_wf. lia.
  - reflexivity.
  - discriminate.
  - destruct (Hpoll 10 clock 3%nat 0%nat) as [Htimeout Hwait].
    + lia.
    + intros i Hi. unfold clock. lia.
    + unfold clock. lia.
    + split; [exact Htimeout|]. split; [apply Hwait; lia|apply Hget].
Defined.

(** ** The HTTP destination accounts for every message *)

Section HTTPQueueProperties.
Import Dests.

Context {MyULID FullMessage : Type} (Uid : FullMessage → MyULID).

Local Abbreviation dest := (HTTP.HTTPDestination MyULID FullMessage).
Local Abbreviation accounted := (HTTP.accounted Uid).
Local Abbreviation sendOne := (HTTP.sendOne Uid).
Local Abbreviation dosend_turn := (HTTP.dosend_turn Uid).
Local Abbreviation nack_remaining := (HTTP.nack_remaining Uid).
Local Abbreviation Close := (HTTP.Close Uid).
Local Abbreviation step := (HTTP.step Uid).
Local Abbreviation run := (HTTP.run Uid).

(** [dosendOne] calls one callback, for the message it was given. *)
Lemma dosendOne_uid (a : http_answers) (uid : MyULID) :
  map callback_uid (dosendOne a uid).1 = [uid].
Proof.
  unfold dosendOne.
  repeat match goal with
         | |- context [if ?c then _ else _] => destruct c
         | |- context [match ?x with Some _ => _ | None => _ end] => destruct x
         end; done.
Qed.

Lemma Get_empty_disposed (rb : Ring.RawTCPRing FullMessage) fuel :
  Ring.wf rb → Ring.Len rb = 0 → Ring.disposed rb = 1 →
  Ring.Get (S fuel) rb = Done rb (None, Some ErrDisposed).
Proof.
  intros Hwf Hempty Hd. unfold Ring.Get, Ring.Poll. simpl.
  rewrite poll_iter_empty by done. by rewrite poll_wait_disposed.
Qed.

Lemma Get_empty_waits (rb : Ring.RawTCPRing FullMessage) fuel :
  Ring.wf rb → Ring.Len rb = 0 → Ring.disposed rb = 0 →
  Ring.Get fuel rb = Blocked.
Proof.
  intros Hwf Hempty Hd. unfold Ring.Get, Ring.Poll.
  apply poll_loop_empty_waits; try done; [by rewrite Hd|]. intros i _. lia.
Qed.

Lemma contents_queued (rb : Ring.RawTCPRing FullMessage) queued :
  Ring.contents rb = map Some queued →
  Ring.Len rb = Z.of_nat (length queued).
Proof.
  intros Hc. rewrite <- contents_length, Hc. by rewrite length_map.
Qed.

Ltac same_account queued :=
  split; [done|]; split; [done|]; split; [done|]; by exists queued.

(** A send keeps the account. *)
Lemma sendOne_accounted fuel (d : dest) returned msg :
  accounted 0 d returned →
  accounted 0 (step fuel (d, returned) (HTTP.Sends msg)).1
              (step fuel (d, returned) (HTTP.Sends msg)).2.
Proof.
  intros (Hwf & Hcap & Hd & queued & Hq & Hacc). simpl.
  unfold HTTP.sendOne.
  destruct fuel as [|fuel].
  { simpl. same_account queued. }
  pose proof Hwf as (_ & _ & _ & Hle & _).
  destruct (decide (Ring.Len (HTTP.sendQueue d)
                    < Ring.Cap (HTTP.sendQueue d))) as [Hroom|Hfull].
  - rewrite Put_room by (done || by rewrite Hd). simpl.
    unfold HTTP.accounted. cbn [HTTP.sendQueue HTTP.calls].
    split; [by apply put_done_wf|].
    split; [by destruct (put_done_wf (HTTP.sendQueue d) (Some msg) Hwf Hroom)
              as (_ & _ & ->)|].
    split; [done|]. exists (queued ++ [msg]).
    rewrite contents_put_done, Hq by done.
    rewrite !map_app, app_assoc, Hacc. done.
  - unfold Ring.Put. rewrite put_full_blocks by (done || lia || by rewrite Hd).
    simpl. same_account queued.
Qed.

(** A turn of a worker keeps the account, before and after the queue is
    disposed. *)
Lemma dosend_turn_accounted flag fuel (d : dest) returned a :
  flag = 0 ∨ flag = 1 →
  accounted flag d returned →
  accounted flag (HTTP.after d (dosend_turn fuel a d)) returned.
Proof.
  intros Hflag (Hwf & Hcap & Hd & queued & Hq & Hacc).
  unfold HTTP.dosend_turn.
  destruct fuel as [|fuel].
  { simpl. same_account queued. }
  destruct queued as [|msg queued].
  - pose proof (contents_queued _ _ Hq) as Hlen. simpl in Hlen.
    destruct Hflag as [-> | ->].
    + rewrite Get_empty_waits by done. simpl.
      same_account (@nil FullMessage).
    + rewrite Get_empty_disposed by done. simpl.
      same_account (@nil FullMessage).
  - destruct (Poll_item (HTTP.sendQueue d) fuel 0 (λ _, 0) (Some msg)
                (map Some queued) Hwf Hq) as [Hget Hrest].
    unfold Ring.Get. rewrite Hget.
    pose proof (dosendOne_uid a (Uid msg)) as Huid.
    destruct (dosendOne a (Uid msg)) as [cbs err]. simpl in *.
    assert (0 < Ring.Len (HTTP.sendQueue d)) as Hitem.
    { rewrite (contents_queued _ (msg :: queued) Hq). simpl. lia. }
    destruct (poll_done_wf (HTTP.sendQueue d) Hwf Hitem)
      as (Hwf' & _ & Hcap').
    unfold HTTP.accounted. cbn [HTTP.sendQueue HTTP.calls].
    split; [done|]. split; [by rewrite Hcap'|]. split; [done|].
    exists queued. split; [done|].
    rewrite map_app, Huid, <- app_assoc. done.
Qed.

Lemma step_accounted fuel (st : dest * list FullMessage) act :
  accounted 0 st.1 st.2 →
  accounted 0 (step fuel st act).1 (step fuel st act).2.
Proof.
  destruct st as [d returned]. intros Hacc. destruct act as [msg|a].
  - by apply sendOne_accounted.
  - simpl. apply dosend_turn_accounted; [by left|done].
Qed.

Lemma run_accounted fuel sched (st : dest * list FullMessage) :
  accounted 0 st.1 st.2 →
  accounted 0 (run fuel sched st).1 (run fuel sched st).2.
Proof.
  revert st. induction sched as [|act sched IH]; intros st Hacc; [done|].
  simpl. apply IH. by apply step_accounted.
Qed.

Lemma workers_accounted workers (d : dest) returned :
  accounted 1 d returned →
  accounted 1
    (fold_left (λ d a, HTTP.after d (dosend_turn 1 a d)) workers d) returned.
Proof.
  revert d. induction workers as [|a workers IH]; intros d Hacc; [done|].
  simpl. apply IH. apply dosend_turn_accounted; [by right|done].
Qed.

(** The loop of [Close] nacks the messages left in the disposed queue and
    ends on the error [Disposed]. *)
Lemma nack_remaining_all (d : dest) queued :
  Ring.wf (HTTP.sendQueue d) →
  Ring.disposed (HTTP.sendQueue d) = 1 →
  Ring.contents (HTTP.sendQueue d) = map Some queued →
  ∃ d', nack_remaining (S (length queued)) d = Done d' tt
        ∧ HTTP.calls d' = HTTP.calls d ++ map (λ msg, Nack (Uid msg)) queued
        ∧ Ring.contents (HTTP.sendQueue d') = []
        ∧ HTTP.fatal d' = HTTP.fatal d.
Proof.
  revert d. induction queued as [|msg queued IH]; intros d Hwf Hd Hq.
  - pose proof (contents_queued _ _ Hq) as Hlen. simpl in Hlen.
    simpl. rewrite Get_empty_disposed by done.
    eexists. split; [done|]. simpl. by rewrite app_nil_r.
  - destruct (Poll_item (HTTP.sendQueue d) 0 0 (λ _, 0) (Some msg)
                (map Some queued) Hwf Hq) as [Hget Hrest].
    assert (0 < Ring.Len (HTTP.sendQueue d)) as Hitem.
    { rewrite (contents_queued _ (msg :: queued) Hq). simpl. lia. }
    destruct (poll_done_wf (HTTP.sendQueue d) Hwf Hitem) as (Hwf' & _ & _).
    cbn [HTTP.nack_remaining length]. unfold Ring.Get. rewrite Hget.
    destruct (IH (HTTP.mkHTTP (Ring.poll_done (HTTP.sendQueue d))
                    (HTTP.fatal d)
                    (HTTP.calls d ++ [Nack (Uid msg)])))
      as (d' & Hd' & Hcalls & Hempty & Hfatal); try done.
    exists d'. split; [done|]. split; [|done].
    rewrite Hcalls. simpl. by rewrite <- app_assoc.
Qed.

(** X13. The destination starts with an empty queue of at
    least two slots.  Whatever the store sends and whatever turns the
    workers make, in whatever order, and whatever turns the workers still
    make while [Close] waits for them: [Close] returns, the queue is
    empty, and the callbacks called by then are, up to their order, one
    for each message for which [sendOne] had returned. *)
Theorem every_message_gets_one_callback
    (d0 : dest) fuel sched workers :
  Ring.wf (HTTP.sendQueue d0) →
  2 <= Ring.Cap (HTTP.sendQueue d0) →
  Ring.disposed (HTTP.sendQueue d0) = 0 →
  Ring.contents (HTTP.sendQueue d0) = [] →
  HTTP.calls d0 = [] →
  ∃ d2,
    Close workers (run fuel sched (d0, [])).1 = Done d2 tt
    ∧ Ring.contents (HTTP.sendQueue d2) = []
    ∧ map callback_uid (HTTP.calls d2)
      ≡ₚ map Uid (run fuel sched (d0, [])).2.
Proof.
  intros Hwf Hcap Hd Hempty Hcalls.
  assert (accounted 0 d0 []) as Hacc0.
  { split; [done|]. split; [done|]. split; [done|].
    exists (@nil FullMessage). by rewrite Hempty, Hcalls. }
  pose proof (run_accounted fuel sched (d0, []) Hacc0) as Hacc1.
  destruct (run fuel sched (d0, [])) as [d1 returned]. simpl in *.
  assert (accounted 1
            (HTTP.mkHTTP (Ring.Dispose (HTTP.sendQueue d1)) (HTTP.fatal d1)
               (HTTP.calls d1)) returned) as Hdisp.
  { destruct Hacc1 as (Hwf1 & Hcap1 & Hd1 & queued & Hq & Hacc).
    split; [by apply wf_Dispose|].
    split; [unfold Ring.Dispose; by destruct (_ =? _)|].
    split; [apply Dispose_flag; by left|].
    exists queued. cbn [HTTP.sendQueue HTTP.calls].
    by rewrite contents_Dispose. }
  pose proof (workers_accounted workers _ _ Hdisp)
    as (Hwf2 & _ & Hd2 & queued & Hq & Hacc).
  unfold HTTP.Close. cbv zeta.
  rewrite (contents_queued _ _ Hq), Nat2Z.id.
  destruct (nack_remaining_all _ queued Hwf2 Hd2 Hq)
    as (d2 & Hclose & Hcalls2 & Hempty2 & _).
  exists d2. split; [done|]. split; [done|].
  rewrite Hcalls2, map_app, map_map. simpl.
  change (λ x : FullMessage, Uid x) with Uid. by rewrite Hacc.
Qed.

End HTTPQueueProperties.

(** A destination with a queue of two slots.  The store sends the messages
    1, 2 and 3, a worker gets an answer 200 for the first in between, and
    [Close] finds a worker whose request fails: the callbacks are for 1, 2
    and 3. *)
Lemma every_message_gets_one_callback_witness :
  let d0 : Dests.HTTP.HTTPDestination Z Z :=
    Dests.HTTP.mkHTTP (Ring.NewRawTCPRing 2) false [] in
  let ok := Dests.mkAnswers true true true (Some 200) in
  let down := Dests.mkAnswers true true true None in
  let sched := [Dests.HTTP.Sends 1; Dests.HTTP.Sends 2; Dests.HTTP.Works ok;
                Dests.HTTP.Sends 3] in
  (Dests.HTTP.run id 3 sched (d0, [])).2 = [1; 2; 3]
  ∧ ∃ d2,
      Dests.HTTP.Close id [down] (Dests.HTTP.run id 3 sched (d0, [])).1
      = Done d2 tt
      ∧ Ring.contents (Dests.HTTP.sendQueue d2) = []
      ∧ map Dests.callback_uid (Dests.HTTP.calls d2)
        ≡ₚ map id (Dests.HTTP.run id 3 sched (d0, [])).2.
Proof.
  intros d0 ok down sched. split; [reflexivity|].
  apply (every_message_gets_one_callback id d0 3 sched [down]).
  - apply init_wf. lia.
  - by vm_compute.
  - reflexivity.
  - reflexivity.
  - reflexivity.
Defined.

(** ** The TCP destination accounts for every message but the last *)

Section TCPAccountProperties.

Context {MyULID : Type} `{EqDecision MyULID} (ZeroUid : MyULID).

Local Abbreviation dest := (Dests.TCPDestination MyULID).
Local Abbreviation sendOne := (Dests.sendOne ZeroUid).
Local Abbreviation Send := (Dests.Send ZeroUid).
Local Abbreviation fresh_dest := (Dests.NewTCPDestination ZeroUid).

(** One [sendOne] for a message whose uid is not the zero uid: the uids
    of the callbacks and the pending uid gain the uid of the message. *)
Lemma sendOne_account (d : dest) uid err :
  uid ≠ ZeroUid →
  let d' := (sendOne d uid err).1 in
  map Dests.callback_uid (Dests.calls d')
    ++ (if decide (Dests.previousUid d' = ZeroUid) then []
        else [Dests.previousUid d'])
  ≡ₚ (map Dests.callback_uid (Dests.calls d)
        ++ (if decide (Dests.previousUid d = ZeroUid) then []
            else [Dests.previousUid d]))
     ++ [uid].
Proof.
  intros Huid. destruct err; simpl.
  - destruct (decide (uid = ZeroUid)); [done|].
    destruct (decide (Dests.previousUid d = ZeroUid)); simpl.
    + by rewrite app_nil_r.
    + by rewrite map_app, <- !app_assoc.
  - rewrite map_app. simpl.
    destruct (decide (Dests.previousUid d = ZeroUid)); simpl.
    + by rewrite !app_nil_r.
    + rewrite <- !app_assoc. apply Permutation_app_head. simpl.
      apply perm_swap.
  - destruct (decide (Dests.previousUid d = ZeroUid)) as [Hz|Hz]; simpl.
    + rewrite Hz. destruct (decide (ZeroUid = ZeroUid)); [|done].
      by rewrite map_app, !app_nil_r.
    + destruct (decide (ZeroUid = ZeroUid)); [|done].
      rewrite !map_app, app_nil_r, <- !app_assoc. simpl.
      apply Permutation_app_head. apply perm_swap.
Qed.

Lemma Send_account msgs :
  Forall (λ m : MyULID * Dests.send_result, m.1 ≠ ZeroUid) msgs →
  map Dests.callback_uid (Dests.calls (Send fresh_dest msgs))
    ++ (if decide (Dests.previousUid (Send fresh_dest msgs) = ZeroUid)
        then [] else [Dests.previousUid (Send fresh_dest msgs)])
  ≡ₚ map fst msgs.
Proof.
  induction msgs as [|m msgs IH] using rev_ind; intros Hall.
  - simpl. by destruct (decide (ZeroUid = ZeroUid)).
  - apply Forall_app in Hall as [Hmsgs Hm]. apply Forall_inv in Hm.
    rewrite Send_snoc, map_app. change (map fst [m]) with [m.1].
    rewrite <- (IH Hmsgs). by apply sendOne_account.
Qed.

Lemma Send_fatal msgs :
  Dests.fatal (Send fresh_dest msgs) = true
  ↔ Exists (λ m : MyULID * Dests.send_result, m.2 = Dests.SendWriteError) msgs.
Proof.
  induction msgs as [|m msgs IH] using rev_ind.
  - rewrite Exists_nil. by simpl.
  - rewrite Send_snoc, Exists_app, Exists_cons, Exists_nil, <- IH.
    destruct m as [uid err]. destruct err; simpl.
    + destruct (decide (Dests.previousUid (Send fresh_dest msgs) = ZeroUid));
        simpl; intuition congruence.
    + intuition congruence.
    + destruct (decide (Dests.previousUid (Send fresh_dest msgs) = ZeroUid));
        simpl; intuition congruence.
Qed.

(** The events that are not sends leave the callbacks and the pending uid
    as they are. *)
Lemma tcp_run_sends rebind (evs : list (Dests.tcp_event MyULID)) :
  Dests.calls (Dests.tcp_run ZeroUid rebind evs)
  = Dests.calls (Send fresh_dest (Dests.sent_of evs))
  ∧ Dests.previousUid (Dests.tcp_run ZeroUid rebind evs)
    = Dests.previousUid (Send fresh_dest (Dests.sent_of evs))
  ∧ Dests.fatal (Dests.tcp_run ZeroUid rebind evs)
    = Dests.fatal (Send fresh_dest (Dests.sent_of evs))
      || (0 <? rebind) && existsb Dests.is_expiry evs.
Proof.
  induction evs as [|ev evs (IHc & IHp & IHf)] using rev_ind.
  { simpl. by rewrite andb_false_r. }
  unfold Dests.tcp_run, Dests.sent_of in *.
  rewrite fold_left_app, omap_app, existsb_app. simpl.
  destruct ev as [uid err|]; simpl.
  - rewrite Send_snoc, orb_false_r. simpl.
    rewrite !sendOne_calls, !sendOne_previousUid, !sendOne_fatal.
    rewrite IHc, IHf.
    assert (Dests.new_calls ZeroUid
              (fold_left (Dests.tcp_step ZeroUid rebind) evs fresh_dest)
              uid err
            = Dests.new_calls ZeroUid
                (Send fresh_dest
                   (omap (λ ev, match ev with
                                | Dests.Sent uid err => Some (uid, err)
                                | Dests.RebindExpired => None
                                end) evs)) uid err) as ->.
    { unfold Dests.new_calls. by rewrite IHp. }
    split; [done|]. split; [by destruct err|]. by destruct err.
  - rewrite app_nil_r, orb_true_r, andb_true_r.
    destruct (0 <? rebind); simpl.
    + rewrite orb_true_r. done.
    + simpl in IHf. done.
Qed.


End TCPAccountProperties.


(** ** The TCP handler queues the frames of a connection in order *)

Section HandlerQueueProperties.
Import Network.

Context {MyULID DecoderConfig : Type}.

Local Abbreviation raw := (Network.RawTcpMessage MyULID DecoderConfig).
Local Abbreviation env := (Network.conn_env MyULID DecoderConfig).

Lemma handle_frame_empty fuel (e : env) (st : Ring.RawTCPRing raw * Z) buf :
  Bytes.len buf = 0 → handle_frame fuel e st buf = inl st.
Proof.
  intros Hlen. unfold handle_frame. destruct st as [rb incoming].
  by rewrite Hlen.
Qed.

Lemma handle_frame_accepted fuel (e : env) (rb : Ring.RawTCPRing raw)
    incoming buf :
  Bytes.len buf ≠ 0 → accepted e buf = true →
  Ring.wf rb → Ring.disposed rb ≠ 1 → Ring.Len rb < Ring.Cap rb →
  handle_frame (S fuel) e (rb, incoming) buf
  = inl (Ring.put_done rb (Some (rawmsg_of e buf)), incoming + 1).
Proof.
  intros Hlen Hacc Hwf Hd Hroom. unfold handle_frame.
  destruct (Z.eqb_spec (Bytes.len buf) 0); [done|].
  unfold accepted in Hacc. apply andb_true_iff in Hacc as [Hmax Hpool].
  apply negb_true_iff in Hmax, Hpool. rewrite Hmax, Hpool.
  by rewrite Put_room.
Qed.

Lemma handle_frame_too_large fuel (e : env) (st : Ring.RawTCPRing raw * Z)
    buf :
  0 < MaxMessageSize e < Bytes.len buf →
  handle_frame fuel e st buf = inr MessageTooLarge.
Proof.
  intros Hbig. unfold handle_frame. destruct st as [rb incoming].
  destruct (Z.eqb_spec (Bytes.len buf) 0); [lia|].
  destruct (Z.ltb_spec 0 (MaxMessageSize e)); [|lia].
  by destruct (Z.ltb_spec (MaxMessageSize e) (Bytes.len buf)); [|lia].
Qed.

Lemma handle_frame_goes_on fuel (e : env) (st : Ring.RawTCPRing raw * Z)
    buf :
  handle_frame fuel e st buf ≠ inr EndOfStream.
Proof.
  unfold handle_frame. destruct st as [rb incoming].
  destruct (_ =? _); [done|]. destruct (_ && _); [done|].
  destruct (_ <? _); [done|].
  by destruct (Ring.Put _ _ _) as [rb' [err|]| |].
Qed.

(** The frames the handler has gone through without leaving count for
    nothing in what follows. *)
Lemma HandleConnection_app fuel (e : env) st st' frames rest :
  HandleConnection fuel e st frames = (st', EndOfStream) →
  HandleConnection fuel e st (frames ++ rest)
  = HandleConnection fuel e st' rest.
Proof.
  revert st. induction frames as [|buf frames IH]; intros st; simpl.
  { by intros [= ->]. }
  pose proof (handle_frame_goes_on fuel e st buf) as Hexit.
  destruct (handle_frame fuel e st buf) as [st1|exit]; [apply IH|].
  intros [= _ ->]. done.
Qed.

Lemma HandleConnection_accepted fuel (e : env) (rb : Ring.RawTCPRing raw)
    incoming frames :
  Ring.wf rb → Ring.disposed rb ≠ 1 →
  Forall (λ buf, accepted e buf = true) frames →
  Ring.Len rb + Z.of_nat (length (nonempty frames)) <= Ring.Cap rb →
  ∃ rb',
    HandleConnection (S fuel) e (rb, incoming) frames
    = ((rb', incoming + Z.of_nat (length (nonempty frames))), EndOfStream)
    ∧ Ring.wf rb'
    ∧ Ring.disposed rb' = Ring.disposed rb
    ∧ Ring.Cap rb' = Ring.Cap rb
    ∧ Ring.contents rb'
      = Ring.contents rb
        ++ map (λ buf, Some (rawmsg_of e buf)) (nonempty frames).
Proof.
  revert rb incoming.
  induction frames as [|buf frames IH]; intros rb incoming Hwf Hd Hall Hroom.
  { exists rb. simpl. rewrite Z.add_0_r, app_nil_r. done. }
  apply Forall_cons in Hall as [Hbuf Hall].
  cbn [HandleConnection]. unfold nonempty in *. cbn [List.filter] in *.
  destruct (Z.eqb_spec (Bytes.len buf) 0) as [Hempty|Hfull]; cbn [negb] in *.
  - rewrite handle_frame_empty by done. by apply IH.
  - cbn [length map] in *.
    assert (Ring.Len rb < Ring.Cap rb) as Hone by lia.
    rewrite handle_frame_accepted by done.
    destruct (put_done_wf rb (Some (rawmsg_of e buf)) Hwf Hone)
      as (Hwf1 & Hlen1 & Hcap1).
    destruct (IH (Ring.put_done rb (Some (rawmsg_of e buf))) (incoming + 1))
      as (rb' & Hrun & Hwf' & Hd' & Hcap' & Hc'); [done|done|done|lia|].
    exists rb'. split.
    { rewrite Hrun. do 2 f_equal. lia. }
    split; [done|]. split; [done|]. split; [congruence|].
    rewrite Hc', contents_put_done by done. by rewrite <- app_assoc.
Qed.


End HandlerQueueProperties.


(** ** The binder closes a connection with its file *)

Section BinderCloseProperties.

(** What the two messages of [closeconn <uid>] do to the tables. *)
Lemma drop_one b uid :
  uid ≠ "" →
  let b' := Binder.on_pchan (Binder.on_schan b (Binder.mkBC uid None "") None)
                            (Binder.mkBC uid None "") None in
  Binder.entry b' uid = (None, None, None)
  ∧ (∀ uid', uid' ≠ uid → Binder.entry b' uid' = Binder.entry b uid')
  ∧ Binder.closed_conns b'
    = Binder.closed_conns b
      ++ option_list (Binder.connections b !! uid)
      ++ option_list (Binder.packetconnections b !! uid)
  ∧ Binder.closed_files b'
    = Binder.closed_files b ++ option_list (Binder.connfiles b !! uid)
  ∧ Binder.sent b' = Binder.sent b
  ∧ Binder.state b' = Binder.state b.
Proof.
  intros Hne. unfold Binder.on_pchan, Binder.on_schan, Binder.entry.
  cbn [Binder.Conn Binder.Uid].
  destruct (String.eqb_spec uid ""); [done|].
  cbn [Binder.connections Binder.packetconnections Binder.connfiles
       Binder.closed_conns Binder.closed_files Binder.sent Binder.state].
  rewrite !lookup_delete_eq. split; [done|]. split.
  { intros uid' Hother. by rewrite !lookup_delete_ne. }
  split; [by rewrite <- app_assoc|].
  split; [|done]. simpl. by rewrite app_nil_r.
Qed.

(** One input keeps the tables in step: a connection of a table has its
    file. *)
Lemma files_kept_step b i :
  Binder.from_listener i = true →
  Binder.files_owned b →
  (∀ uid, is_Some (Binder.connections b !! uid)
          ∨ is_Some (Binder.packetconnections b !! uid)
          → is_Some (Binder.connfiles b !! uid)) →
  ∀ uid, is_Some (Binder.connections (Binder.step b i) !! uid)
         ∨ is_Some (Binder.packetconnections (Binder.step b i) !! uid)
         → is_Some (Binder.connfiles (Binder.step b i) !! uid).
Proof.
  intros Hi Howned Hinv uid. unfold Binder.step.
  destruct (Binder.state b); [|apply Hinv..].
  destruct i as [bc file|bc file|command args]; simpl in Hi.
  - apply bool_decide_eq_true in Hi as [c Hc]. unfold Binder.on_schan.
    rewrite Hc. destruct (decide _); [|apply Hinv].
    destruct file as [connFile|]; [|apply Hinv]. simpl.
    destruct (decide (Binder.Uid bc = uid)) as [->|Hne].
    + rewrite !lookup_insert_eq. eauto.
    + rewrite !lookup_insert_ne by done. apply Hinv.
  - apply bool_decide_eq_true in Hi as [c Hc]. unfold Binder.on_pchan.
    rewrite Hc. destruct (decide _); [|apply Hinv].
    destruct file as [connFile|]; [|apply Hinv]. simpl.
    destruct (decide (Binder.Uid bc = uid)) as [->|Hne].
    + rewrite !lookup_insert_eq. eauto.
    + rewrite !lookup_insert_ne by done. apply Hinv.
  - unfold Binder.on_command.
    destruct (String.eqb command "closeconn").
    { destruct (decide (args = "")) as [->|Hargs].
      - destruct (drop_all b Howned) as (-> & -> & _).
        rewrite !lookup_empty. by intros [[? [=]]|[? [=]]].
      - destruct (drop_one b args Hargs) as (Hat & Hother & _).
        unfold Binder.entry in Hat, Hother.
        destruct (decide (uid = args)) as [->|Hne].
        + injection Hat as -> -> _. by intros [[? [=]]|[? [=]]].
        + specialize (Hother uid Hne). injection Hother as -> -> ->.
          apply Hinv. }
    destruct (String.eqb command "reset").
    { destruct (drop_all b Howned) as (-> & -> & _).
      rewrite !lookup_empty. by intros [[? [=]]|[? [=]]]. }
    destruct (String.eqb command "byebye"); apply Hinv.
Qed.

(** X16. While the binder runs, [closeconn <uid>] with a
    uid that is not empty closes the stream connection and the packet
    connection recorded under this uid, if there are any, closes the file
    recorded under it once, and removes the three entries.  It closes
    nothing else, changes no entry of another uid and writes nothing to
    the child. *)
Theorem closeconn_closes_one_connection (b : Binder.binder) (uid : string) :
  Binder.state b = Binder.Running →
  uid ≠ "" →
  let b' := Binder.step b (Binder.Command "closeconn" uid) in
  Binder.entry b' uid = (None, None, None)
  ∧ (∀ uid', uid' ≠ uid → Binder.entry b' uid' = Binder.entry b uid')
  ∧ Binder.closed_conns b'
    = Binder.closed_conns b
      ++ option_list (Binder.connections b !! uid)
      ++ option_list (Binder.packetconnections b !! uid)
  ∧ Binder.closed_files b'
    = Binder.closed_files b ++ option_list (Binder.connfiles b !! uid)
  ∧ Binder.sent b' = Binder.sent b
  ∧ Binder.state b' = Binder.Running.
Proof.
  intros Hrun Hne b'.
  assert (b' = Binder.on_pchan
                 (Binder.on_schan b (Binder.mkBC uid None "") None)
                 (Binder.mkBC uid None "") None) as ->.
  { unfold b', Binder.step. by rewrite Hrun. }
  destruct (drop_one b uid Hne) as (H1 & H2 & H3 & H4 & H5 & H6).
  repeat (split; [done|]). congruence.
Qed.

(** X17. The binder starts with empty tables and is given
    connections by its listeners and commands by its parent.  After each
    of them the table of files has an entry exactly for the uids that
    have a stream connection or a packet connection: a connection is
    never kept without its file, nor a file without its connection. *)
Theorem binder_tables_stay_in_step (inputs : list Binder.input) :
  forallb Binder.from_listener inputs = true →
  let b := Binder.Binder Binder.start inputs in
  ∀ uid, is_Some (Binder.connfiles b !! uid)
         ↔ is_Some (Binder.connections b !! uid)
           ∨ is_Some (Binder.packetconnections b !! uid).
Proof.
  intros Hall b uid. split; [apply files_owned_run|]. revert uid.
  unfold b. clear b.
  induction inputs as [|i inputs IH] using rev_ind.
  - intros uid. simpl. rewrite !lookup_empty. by intros [[? [=]]|[? [=]]].
  - rewrite forallb_app in Hall. apply andb_prop in Hall as [Hall Hi].
    simpl in Hi. rewrite andb_true_r in Hi.
    unfold Binder.Binder. rewrite fold_left_app. simpl.
    apply files_kept_step; [done|apply files_owned_run|by apply IH].
Qed.

End BinderCloseProperties.

(** Two TCP connections are accepted and the first is closed by its uid:
    its connection and its file are closed, the second is as before. *)
Lemma closeconn_closes_one_connection_witness :
  let c1 := Binder.mkBC "01A" (Some (Binder.mkSock Binder.TCPConn 7))
                        "tcp:127.0.0.1:2514" in
  let c2 := Binder.mkBC "01B" (Some (Binder.mkSock Binder.TCPConn 8))
                        "tcp:127.0.0.1:2514" in
  let b := Binder.Binder Binder.start
             [Binder.Accepted c1 (Some 11%nat);
              Binder.Accepted c2 (Some 12%nat)] in
  let b' := Binder.step b (Binder.Command "closeconn" "01A") in
  Binder.entry b' "01A" = (None, None, None)
  ∧ Binder.entry b' "01B"
    = (Some (Binder.mkSock Binder.TCPConn 8), None, Some 12%nat)
  ∧ Binder.closed_conns b' = [Binder.mkSock Binder.TCPConn 7]
  ∧ Binder.closed_files b' = [11%nat].
Proof.
  intros c1 c2 b b'. subst b'.
  destruct (closeconn_closes_one_connection b "01A")
    as (Hat & Hother & Hconns & Hfiles & _); [reflexivity|discriminate|].
  split; [exact Hat|]. split.
  - rewrite (Hother "01B"); [by vm_compute|discriminate].
  - split; [rewrite Hconns|rewrite Hfiles]; by vm_compute.
Defined.

(** A TCP connection and a UDP socket are registered, the first is closed:
    the file of the second is still there, that of the first is not. *)
Lemma binder_tables_stay_in_step_witness :
  let c1 := Binder.mkBC "01A" (Some (Binder.mkSock Binder.TCPConn 7))
                        "tcp:127.0.0.1:2514" in
  let c2 := Binder.mkBC "01B" (Some (Binder.mkSock Binder.UDPConn 8))
                        "udp:127.0.0.1:2514" in
  let b := Binder.Binder Binder.start
             [Binder.Accepted c1 (Some 11%nat);
              Binder.PacketBound c2 (Some 12%nat);
              Binder.Command "closeconn" "01A"] in
  Binder.packetconnections b !! "01B" = Some (Binder.mkSock Binder.UDPConn 8)
  ∧ is_Some (Binder.connfiles b !! "01B").
Proof.
  intros c1 c2 b. split; [by vm_compute|].
  apply (binder_tables_stay_in_step
           [Binder.Accepted c1 (Some 11%nat);
            Binder.PacketBound c2 (Some 12%nat);
            Binder.Command "closeconn" "01A"]); [reflexivity|].
  right. exists (Binder.mkSock Binder.UDPConn 8). by vm_compute.
Defined.

(** ** The linked list of [IntQueue] is a queue *)

Section LinkedIntQueueProperties.
Import LinkedIntQueue.
Local Set Warnings "-clear-no-such-hyp".

Lemma last_cons {A : Type} (l : A) ls d :
  List.last (l :: ls) d = List.last ls l.
Proof.
  revert l d. induction ls as [|l' ls IH]; intros l d; [done|].
  change (List.last (l :: l' :: ls) d) with (List.last (l' :: ls) d).
  by rewrite !IH.
Qed.

Lemma last_elem_of {A : Type} (l : A) ls : List.last ls l ∈ l :: ls.
Proof.
  revert l. induction ls as [|l' ls IH]; intros l; [set_solver|].
  rewrite last_cons. specialize (IH l'). set_solver.
Qed.

(** The list depends on its own nodes only. *)
Lemma linked_frame h h' t locs items :
  (∀ l, l ∈ t :: locs → h' !! l = h !! l) →
  linked h t locs items → linked h' t locs items.
Proof.
  revert t items. induction locs as [|l locs IH]; intros t [|x items] Hsame;
    simpl; try done.
  intros (Hn & Hu & Hl). rewrite !Hsame by set_solver.
  split; [done|]. split; [done|]. apply IH; [|done].
  intros l' Hl'. apply Hsame. set_solver.
Qed.

(** A node written behind the last node of the list. *)
Lemma linked_snoc h t locs items n u nd :
  linked h t locs items → NoDup (t :: locs) → n ∉ t :: locs →
  h !! List.last locs t = Some nd →
  linked (<[List.last locs t := mkNode (Some n) (uid nd)]>
            (<[n := mkNode None u]> h))
         t (locs ++ [n]) (items ++ [u]).
Proof.
  revert t items. induction locs as [|l locs IH]; intros t [|x items];
    simpl; try done.
  - intros _ _ Hn Hnd. rewrite lookup_insert_eq. split; [done|].
    rewrite lookup_insert_ne by set_solver. by rewrite lookup_insert_eq.
  - intros (Hnext & Huid & Hl) Hnodup Hn.
    change (match locs with [] => l | _ :: _ => List.last locs t end)
      with (List.last (l :: locs) t).
    rewrite last_cons. intros Hnd.
    pose proof (last_elem_of l locs) as Hlast.
    apply NoDup_cons in Hnodup as [Ht Hnodup].
    assert (t ≠ List.last locs l) as Htl by (intros ->; done).
    rewrite lookup_insert_ne by done.
    rewrite lookup_insert_ne by set_solver.
    split; [done|]. split.
    + destruct (decide (l = List.last locs l)) as [Heq|Hne].
      * rewrite <- Heq. rewrite lookup_insert_eq. simpl.
        rewrite <- Heq in Hnd. by rewrite Hnd in Huid.
      * rewrite lookup_insert_ne by done.
        rewrite lookup_insert_ne by set_solver. done.
    + apply IH; [done|done|set_solver|done].
Qed.

Lemma linked_length h t locs items :
  linked h t locs items → length locs = length items.
Proof.
  revert t items. induction locs as [|l locs IH]; intros t [|x items];
    simpl; try done.
  intros (_ & _ & Hl). f_equal. by eapply IH.
Qed.

Lemma new_queue_alike : alike NewIntQueue IntQueue.NewIntQueue.
Proof.
  split; [|done]. exists []. simpl. split; [done|]. split; [done|].
  split; [by rewrite lookup_singleton_eq|].
  split; [apply NoDup_singleton|].
  intros l Hl. apply list_elem_of_singleton in Hl as ->. lia.
Qed.

Lemma pool_Get_fresh q items choice :
  holds q items →
  let q1 := (pool_Get q choice).1 in
  let n := (pool_Get q choice).2 in
  head q1 = head q ∧ tail q1 = tail q ∧ disposed q1 = disposed q
  ∧ (∀ l, l ≠ n → heap q1 !! l = heap q !! l)
  ∧ ∃ locs,
      linked (heap q) (tail q) locs items
      ∧ head q = List.last locs (tail q)
      ∧ (next <$> heap q !! head q) = Some None
      ∧ NoDup (n :: tail q :: locs ++ pool q1)
      ∧ ∀ l, l ∈ n :: tail q :: locs ++ pool q1 → (l < allocated q1)%nat.
Proof.
  intros (locs & Hl & Hhead & Hnext & Hnodup & Halloc).
  assert (let q1 := (new_node q).1 in
          let n := (new_node q).2 in
          head q1 = head q ∧ tail q1 = tail q ∧ disposed q1 = disposed q
          ∧ (∀ l, l ≠ n → heap q1 !! l = heap q !! l)
          ∧ ∃ locs,
              linked (heap q) (tail q) locs items
              ∧ head q = List.last locs (tail q)
              ∧ (next <$> heap q !! head q) = Some None
              ∧ NoDup (n :: tail q :: locs ++ pool q1)
              ∧ ∀ l, l ∈ n :: tail q :: locs ++ pool q1
                     → (l < allocated q1)%nat) as Hnew.
  { simpl. split; [done|]. split; [done|]. split; [done|]. split.
    { intros l Hne. by rewrite lookup_insert_ne. }
    exists locs. split; [done|]. split; [done|]. split; [done|]. split.
    - apply NoDup_cons. split; [|done]. intros Hin.
      apply Halloc in Hin. lia.
    - intros l [->|Hin]%elem_of_cons; [lia|]. apply Halloc in Hin. lia. }
  unfold pool_Get. destruct choice as [i|]; [|exact Hnew].
  destruct (pool q !! i) as [n|] eqn:Hi; [|exact Hnew]. clear Hnew.
  simpl. split; [done|]. split; [done|]. split; [done|]. split; [done|].
  exists locs. split; [done|]. split; [done|]. split; [done|].
  assert (pool q ≡ₚ n :: (take i (pool q) ++ drop (S i) (pool q))) as Hperm.
  { rewrite <- (take_drop_middle (pool q) i n Hi) at 1.
    by rewrite Permutation_middle. }
  assert (n :: tail q :: locs ++ take i (pool q) ++ drop (S i) (pool q)
          ≡ₚ tail q :: locs ++ pool q) as Hall.
  { transitivity (tail q :: locs
                    ++ n :: take i (pool q) ++ drop (S i) (pool q)).
    - rewrite <- Permutation_middle. apply perm_swap.
    - apply perm_skip, Permutation_app_head. by symmetry. }
  split; [by rewrite Hall|].
  intros l Hin. apply Halloc. by rewrite <- Hall.
Qed.

(** One call keeps the two alike, and answers the same on both. *)
Lemma run_call_alike q q' c :
  alike q q' →
  ∃ q1, run_call q c = Some (q1, (list_call q' c).2)
        ∧ alike q1 (list_call q' c).1.
Proof.
  intros Halike. pose proof Halike as [Hholds Hd].
  destruct c as [u choice| | | | | |].
  - (* Put *)
    unfold run_call, Put, list_call, IntQueue.Put, IntQueue.Disposed.
    rewrite Hd. destruct (IntQueue.disposed q') eqn:Hdq.
    { by exists q. }
    pose proof (pool_Get_fresh q _ choice Hholds) as Hpool.
    destruct (pool_Get q choice) as [q1 n]. simpl in Hpool.
    destruct Hpool as (Hhead1 & Htail1 & Hd1 & Hheap1 & locs & Hl & Hhead
                       & Hnext & Hnodup & Halloc).
    apply NoDup_cons in Hnodup as [Hn Hnodup].
    assert (head q ≠ n) as Hhn.
    { intros <-. apply Hn. rewrite Hhead.
      pose proof (last_elem_of (tail q) locs). set_solver. }
    assert (n ≠ head q) as Hnh by done.
    rewrite Hhead1. rewrite lookup_insert_ne by done.
    rewrite Hheap1 by done.
    destruct (heap q !! head q) as [old|] eqn:Hold; [|done].
    eexists. split; [done|].
    split; [|unfold Disposed in *; simpl; by rewrite Hd1].
    exists (locs ++ [n]). simpl. rewrite Htail1.
    assert (linked (heap q1) (tail q) locs (IntQueue.items q')) as Hl1.
    { apply (linked_frame (heap q)); [|done]. intros l Hin.
      apply Hheap1. intros ->. apply Hn. set_solver. }
    assert (heap q1 !! List.last locs (tail q) = Some old) as Hold1.
    { rewrite <- Hhead, Hheap1 by done. done. }
    split.
    { rewrite Hhead. apply linked_snoc; try done.
      - apply NoDup_cons in Hnodup as [Ht Hnodup].
        apply NoDup_app in Hnodup as [Hnodup _].
        apply NoDup_cons. split; [set_solver|done].
      - set_solver. }
    split.
    { by rewrite List.last_last. }
    split.
    { rewrite lookup_insert_ne by done. by rewrite lookup_insert_eq. }
    split.
    { rewrite <- app_assoc. simpl.
      assert (tail q :: locs ++ n :: pool q1
              ≡ₚ n :: tail q :: locs ++ pool q1) as ->.
      { rewrite <- Permutation_middle. apply perm_swap. }
      by apply NoDup_cons. }
    intros l Hin. apply Halloc.
    rewrite <- app_assoc in Hin. simpl in Hin. set_solver.
  - (* Get *)
    unfold run_call, Get, list_call, IntQueue.Get, IntQueue.Disposed.
    rewrite Hd. destruct (IntQueue.disposed q') eqn:Hdq.
    { by exists q. }
    pose proof Hholds as (locs & Hl & Hhead & Hnext & Hnodup & Halloc).
    destruct locs as [|l locs];
      destruct (IntQueue.items q') as [|x items] eqn:Hitems;
      simpl in Hl; try done.
    + simpl in Hhead. rewrite Hhead in Hnext.
      destruct (heap q !! tail q) as [t|]; [|done].
      simpl in Hnext. injection Hnext as ->.
      by exists q.
    + destruct Hl as (Hn & Hu & Hl).
      destruct (heap q !! tail q) as [t|] eqn:Ht; [|done].
      simpl in Hn. injection Hn as Hn. rewrite Hn.
      destruct (heap q !! l) as [n|] eqn:Hln; [|done].
      simpl in Hu. injection Hu as ->.
      eexists. split; [done|]. split; [|by unfold Disposed in *].
      exists locs. simpl.
      apply NoDup_cons in Hnodup as [Ht' Hnodup].
      rewrite last_cons in Hhead.
      pose proof (last_elem_of l locs) as Hlast.
      split.
      { apply (linked_frame (heap q)); [|done]. intros l' Hin.
        rewrite lookup_insert_ne; [done|]. intros <-. set_solver. }
      split; [done|]. split.
      { rewrite lookup_insert_ne; [done|]. intros Heq. apply Ht'.
        rewrite Heq, Hhead. set_solver. }
      split.
      { assert (l :: locs ++ tail q :: pool q
                ≡ₚ tail q :: (l :: locs) ++ pool q) as ->.
        { simpl. rewrite <- Permutation_middle. apply perm_swap. }
        apply NoDup_cons. done. }
      intros l' Hin. apply Halloc. set_solver.
  - (* Peek *)
    unfold run_call, Peek, list_call, IntQueue.Peek, IntQueue.Disposed.
    rewrite Hd. destruct (IntQueue.disposed q') eqn:Hdq.
    { by exists q. }
    pose proof Hholds as (locs & Hl & Hhead & Hnext & _).
    destruct locs as [|l locs]; destruct (IntQueue.items q') as [|x items];
      simpl in Hl; try done.
    + simpl in Hhead. rewrite Hhead in Hnext.
      destruct (heap q !! tail q) as [t|]; [|done].
      simpl in Hnext. injection Hnext as ->.
      by exists q.
    + destruct Hl as (Hn & Hu & Hl).
      destruct (heap q !! tail q) as [t|] eqn:Ht; [|done].
      simpl in Hn. injection Hn as Hn. rewrite Hn.
      destruct (heap q !! l) as [n|] eqn:Hln; [|done].
      simpl in Hu. injection Hu as ->.
      by exists q.
  - (* Has *)
    unfold run_call, Has, list_call, IntQueue.Has.
    pose proof Hholds as (locs & Hl & Hhead & Hnext & _).
    destruct locs as [|l locs]; destruct (IntQueue.items q') as [|x items];
      simpl in Hl; try done.
    + simpl in Hhead. rewrite Hhead in Hnext.
      destruct (heap q !! tail q) as [t|]; [|done].
      simpl in Hnext. injection Hnext as ->.
      by exists q.
    + destruct Hl as (Hn & Hu & Hl).
      destruct (heap q !! tail q) as [t|] eqn:Ht; [|done].
      simpl in Hn. injection Hn as Hn. rewrite Hn.
      by exists q.
  - (* Wait *)
    unfold run_call, Has, list_call, IntQueue.Wait, IntQueue.Has,
      IntQueue.Disposed.
    rewrite Hd.
    pose proof Hholds as (locs & Hl & Hhead & Hnext & _).
    destruct locs as [|l locs]; destruct (IntQueue.items q') as [|x items];
      simpl in Hl; try done.
    + simpl in Hhead. rewrite Hhead in Hnext.
      destruct (heap q !! tail q) as [t|]; [|done].
      simpl in Hnext. injection Hnext as ->.
      rewrite bool_decide_eq_false_2 by (by intros [? [=]]).
      exists q. split; [|done]. by destruct (IntQueue.disposed q').
    + destruct Hl as (Hn & Hu & Hl).
      destruct (heap q !! tail q) as [t|] eqn:Ht; [|done].
      simpl in Hn. injection Hn as Hn. rewrite Hn.
      rewrite bool_decide_eq_true_2 by (by eexists).
      by exists q.
  - (* Disposed *)
    exists q. simpl. unfold IntQueue.Disposed. rewrite Hd. by split.
  - (* Dispose *)
    exists (Dispose q). split; [done|]. split; [|done].
    destruct Hholds as (locs & Hholds). by exists locs.
Qed.

(** X18. On a new [IntQueue], whatever calls of [Put],
    [Get], [Peek], [Has], [Wait], [Disposed] and [Dispose] are made one
    after the other, and whichever nodes the pool hands back, no call
    follows a pointer that is [nil], and every call answers as the list
    of the waiting uids tells: [Put] adds a uid at the end, [Get] takes
    the uid at the front and [Peek] reads it, both answer [-1] on an empty
    queue, and once the queue is disposed [Put], [Get] and [Peek] answer
    with the error [Disposed], whatever the queue still holds. *)
Theorem linked_list_is_a_queue (cs : list call) :
  ∃ q, run_calls NewIntQueue cs
       = Some (q, list_calls IntQueue.NewIntQueue cs).
Proof.
  assert (∀ q q', alike q q' →
            ∃ q1, run_calls q cs = Some (q1, list_calls q' cs)) as Hrun.
  { induction cs as [|c cs IH]; intros q q' Halike; simpl.
    { by exists q. }
    destruct (run_call_alike q q' c Halike) as (q1 & -> & Halike1).
    destruct (IH q1 _ Halike1) as (q2 & ->). by exists q2. }
  apply Hrun, new_queue_alike.
Qed.

End LinkedIntQueueProperties.

(** ** The status channels of the services *)

Section TcpServiceProperties.
Import TcpService.

(** The status and the channel go together. *)
Lemma tcp_step_in_step (s : TcpServiceImpl) (a : action) :
  match status s, statusChan s with
  | TcpStarted, Some c =>
      Chan.closed c = false ∧ Chan.buffer c = [] ∧ Chan.capacity c = 1%nat
  | TcpStopped, Some c =>
      Chan.closed c = true
      ∧ (Chan.buffer c = [] ∨ Chan.buffer c = [TcpStopped])
  | TcpStopped, None => True
  | TcpStarted, None => False
  end →
  Forall (λ c, Chan.closed c = true) (replaced s) →
  ∃ s', step s a = Done s' tt
        ∧ match status s', statusChan s' with
          | TcpStarted, Some c =>
              Chan.closed c = false ∧ Chan.buffer c = []
              ∧ Chan.capacity c = 1%nat
          | TcpStopped, Some c =>
              Chan.closed c = true
              ∧ (Chan.buffer c = [] ∨ Chan.buffer c = [TcpStopped])
          | TcpStopped, None => True
          | TcpStarted, None => False
          end
        ∧ Forall (λ c, Chan.closed c = true) (replaced s').
Proof.
  intros Hs Hold. destruct a as [listeners| |]; simpl.
  - unfold Start. destruct (status s) eqn:Hst.
    + destruct (0 <? listeners)%nat; simpl.
      * eexists. split; [done|]. simpl. split; [done|].
        apply Forall_app. split; [|done].
        destruct (statusChan s) as [c|]; simpl; [|done].
        apply Forall_singleton. by destruct Hs.
      * eexists. split; [done|]. simpl. split; [by split; [|left]|].
        apply Forall_app. split; [|done].
        destruct (statusChan s) as [c|]; simpl; [|done].
        apply Forall_singleton. by destruct Hs.
    + exists s. by rewrite Hst.
  - unfold Stop. destruct (status s) eqn:Hst.
    + exists s. by rewrite Hst.
    + destruct (statusChan s) as [c|] eqn:Hc; [|done].
      destruct Hs as (Hopen & Hbuf & Hcap).
      unfold Chan.send. rewrite Hopen, Hbuf, Hcap. simpl.
      unfold Chan.close. simpl.
      eexists. split; [done|]. simpl. split; [|done]. split; [done|by right].
  - eexists. split; [done|]. simpl. split; [|done].
    destruct (status s), (statusChan s) as [c|]; simpl; try done.
    + destruct Hs as [Hclosed [Hbuf|Hbuf]]; rewrite Hbuf; simpl; auto.
    + destruct Hs as (Hopen & Hbuf & Hcap). by rewrite Hbuf.
Qed.

(** X19. Whatever calls of [Start] and [Stop] are made one after
    the other on a new TCP service, with whatever numbers of listeners,
    and whenever a reader takes a value from the status channel: no call
    panics or waits on the channel.  While the service is started its
    channel is open and empty; once it is stopped the channel is closed
    and has carried at most the one value [TcpStopped]; and every channel
    that a later [Start] has replaced was closed by then. *)
Theorem tcp_status_channel_is_closed_once (acts : list action) :
  ∃ s, run NewTcpService acts = Done s tt
       ∧ (status s = TcpStarted →
          ∃ c, statusChan s = Some c
               ∧ Chan.closed c = false ∧ Chan.buffer c = [])
       ∧ (status s = TcpStopped →
          ∀ c, statusChan s = Some c →
               Chan.closed c = true
               ∧ (Chan.buffer c = [] ∨ Chan.buffer c = [TcpStopped]))
       ∧ Forall (λ c, Chan.closed c = true) (replaced s).
Proof.
  assert (∀ s,
            match status s, statusChan s with
            | TcpStarted, Some c =>
                Chan.closed c = false ∧ Chan.buffer c = []
                ∧ Chan.capacity c = 1%nat
            | TcpStopped, Some c =>
                Chan.closed c = true
                ∧ (Chan.buffer c = [] ∨ Chan.buffer c = [TcpStopped])
            | TcpStopped, None => True
            | TcpStarted, None => False
            end →
            Forall (λ c, Chan.closed c = true) (replaced s) →
            ∃ s', run s acts = Done s' tt
                  ∧ match status s', statusChan s' with
                    | TcpStarted, Some c =>
                        Chan.closed c = false ∧ Chan.buffer c = []
                        ∧ Chan.capacity c = 1%nat
                    | TcpStopped, Some c =>
                        Chan.closed c = true
                        ∧ (Chan.buffer c = []
                           ∨ Chan.buffer c = [TcpStopped])
                    | TcpStopped, None => True
                    | TcpStarted, None => False
                    end
                  ∧ Forall (λ c, Chan.closed c = true) (replaced s'))
    as Hrun.
  { induction acts as [|a acts IH]; intros s Hs Hold; simpl.
    { by exists s. }
    destruct (tcp_step_in_step s a Hs Hold) as (s1 & -> & Hs1 & Hold1).
    by apply IH. }
  destruct (Hrun NewTcpService) as (s & Hs & Hinv & Hold); [done|done|].
  exists s. split; [done|]. split; [|split; [|done]].
  - intros Hst. rewrite Hst in Hinv.
    destruct (statusChan s) as [c|]; [|done].
    exists c. by destruct Hinv as (? & ? & ?).
  - intros Hst c Hc. by rewrite Hst, Hc in Hinv.
Qed.

End TcpServiceProperties.

Section RelpServiceProperties.
Import RelpService.

Lemma last_snoc_status (l : list RelpServerStatus) v d :
  List.last (l ++ [v]) d = v.
Proof. apply List.last_last. Qed.

Lemma sent_before_final (s : DirectRelpServiceImpl) :
  tidy s → status s ≠ FinalStopped → FinalStopped ∉ sent s.
Proof.
  intros (_ & Hlast & _ & _ & _ & Hfinal) Hst Hin.
  destruct (sent s) as [|v l] eqn:Hsent using rev_ind; [set_solver|].
  clear IHl. rewrite List.last_last in Hlast.
  rewrite removelast_last in Hfinal.
  apply elem_of_app in Hin as [Hin|Hin]; [done|].
  apply list_elem_of_singleton in Hin. congruence.
Qed.

Lemma set_status_tidy (s : DirectRelpServiceImpl) v :
  tidy s → status s ≠ FinalStopped → v ≠ FinalStopped →
  match set_status s v with
  | Done s' _ => tidy s' ∧ status s' = v
  | Panicked => False
  | Blocked => length (Chan.buffer (StatusChan s)) = 10%nat
  end.
Proof.
  intros Htidy Hst Hv. pose proof (sent_before_final s Htidy Hst) as Hnot.
  destruct Htidy as (Hclosed & Hlast & Hbuf & Hcap & Hlen & Hfinal).
  unfold set_status, Chan.send.
  destruct (Chan.closed (StatusChan s)) eqn:Hc; [by apply Hst, Hclosed|].
  rewrite Hcap.
  destruct (Nat.ltb_spec (length (Chan.buffer (StatusChan s))) 10);
    [|lia].
  split; [|done]. unfold tidy. simpl.
  split. { split; [done|]. intros ->. done. }
  split. { by rewrite List.last_last. }
  split. { by apply suffix_app. }
  split; [done|].
  split. { rewrite length_app. simpl. lia. }
  by rewrite removelast_last.
Qed.

Lemma set_final_tidy (s : DirectRelpServiceImpl) :
  tidy s → status s ≠ FinalStopped →
  match set_final s with
  | Done s' _ => tidy s' ∧ status s' = FinalStopped
  | Panicked => False
  | Blocked => length (Chan.buffer (StatusChan s)) = 10%nat
  end.
Proof.
  intros Htidy Hst. pose proof (sent_before_final s Htidy Hst) as Hnot.
  destruct Htidy as (Hclosed & Hlast & Hbuf & Hcap & Hlen & Hfinal).
  unfold set_final, set_status, Chan.send.
  destruct (Chan.closed (StatusChan s)) eqn:Hc; [by apply Hst, Hclosed|].
  rewrite Hcap.
  destruct (Nat.ltb_spec (length (Chan.buffer (StatusChan s))) 10);
    [|lia].
  unfold Chan.close. simpl.
  split; [|done]. unfold tidy. simpl.
  split; [done|].
  split. { by rewrite List.last_last. }
  split. { by apply suffix_app. }
  split; [done|].
  split. { rewrite length_app. simpl. lia. }
  by rewrite removelast_last.
Qed.

Ltac status_call H :=
  match goal with
  | |- context [set_status ?s ?v] =>
      pose proof (set_status_tidy s v H) as Hcall;
      destruct (set_status s v) as [s' []| |];
      [destruct Hcall as [Hcall _]; [congruence|done|];
       split; [done|]; intros; congruence
      |apply Hcall; [congruence|done]
      |apply Hcall; [congruence|done]]
  | |- context [set_final ?s] =>
      pose proof (set_final_tidy s H) as Hcall;
      destruct (set_final s) as [s' []| |];
      [destruct Hcall as [Hcall _]; [congruence|];
       split; [done|]; intros; congruence
      |apply Hcall; congruence
      |apply Hcall; congruence]
  end.

Ltac status_cases :=
  repeat (first [case_bool_decide | case_decide]; simpl);
  try congruence; try done.

(** One call or one value received: no panic, the service stays tidy, a
    call waits only on a full channel, and nothing changes the status
    [FinalStopped]. *)
Lemma relp_step_tidy (s : DirectRelpServiceImpl) (a : action) :
  tidy s →
  match step s a with
  | Done s' _ =>
      tidy s'
      ∧ (status s = FinalStopped →
         status s' = FinalStopped ∧ sent s' = sent s)
  | Panicked => False
  | Blocked => length (Chan.buffer (StatusChan s)) = 10%nat
  end.
Proof.
  intros Htidy.
  destruct a as [listeners producer_ok| | | | |]; simpl.
  - unfold Start. destruct (decide (status s = FinalStopped)); [done|].
    destruct (decide _); [done|].
    destruct (listeners =? 0)%nat; [done|].
    destruct producer_ok; simpl; [|done].
    status_call Htidy.
  - unfold Stop, doStop. simpl. status_cases. status_call Htidy.
  - unfold FinalStop, doStop. simpl. status_cases; status_call Htidy.
  - unfold StopAndWait, doStop. simpl. status_cases; status_call Htidy.
  - unfold EndWait. status_cases. status_call Htidy.
  - split; [|done].
    destruct Htidy as (Hclosed & Hlast & Hbuf & Hcap & Hlen & Hfinal).
    unfold tidy. simpl. split; [done|]. split; [done|].
    split.
    { destruct (Chan.buffer (StatusChan s)) as [|v l]; [done|]. simpl.
      by eapply suffix_cons_l. }
    split; [done|]. split; [|done].
    destruct (Chan.buffer (StatusChan s)); simpl in *; lia.
Qed.

Lemma final_step_returns (s : DirectRelpServiceImpl) (a : action) :
  status s = FinalStopped → step s a ≠ Blocked.
Proof.
  intros Hst.
  destruct a as [listeners producer_ok| | | | |]; simpl; [| | | | |done];
    unfold Start, Stop, FinalStop, StopAndWait, EndWait, doStop;
    status_cases.
Qed.


End RelpServiceProperties.


(** ** The destination to stderr reports each message at once *)

Section StderrProperties.
Import Dests.

Context {MyULID : Type}.

Local Abbreviation dest := (Stderr.stderrDestination MyULID).

Lemma stderr_send_all (d : dest) msgs :
  Stderr.once d = Stderr.fatal d →
  ∃ d', Stderr.send_all d msgs = Some d'
        ∧ Stderr.once d' = Stderr.fatal d'
        ∧ Stderr.calls d' = Stderr.calls d ++ map Stderr.callback_of msgs
        ∧ (Stderr.fatal d' = true
           ↔ Stderr.fatal d = true
             ∨ Exists (λ m, m.1.2 = true ∧ m.2 = false) msgs).
Proof.
  revert d. induction msgs as [|[[uid encode_ok] write_ok] msgs IH];
    intros d Honce.
  { exists d. simpl. rewrite app_nil_r, Exists_nil. intuition. }
  cbn [Stderr.send_all]. unfold Stderr.Send, Stderr.close_fatal.
  destruct encode_ok, write_ok; simpl.
  - destruct (IH (Stderr.mkStderr (Stderr.fatal d) (Stderr.once d)
                    (Stderr.calls d ++ [Ack uid])) Honce)
      as (d' & -> & Honce' & Hcalls & Hfatal).
    simpl in Hcalls, Hfatal.
    exists d'. split; [done|]. split; [done|].
    split; [by rewrite Hcalls, <- app_assoc|].
    rewrite Hfatal, Exists_cons. simpl. intuition congruence.
  - destruct (Stderr.once d) eqn:Ho; rewrite <- Honce; simpl;
      destruct (IH (Stderr.mkStderr true true
                      (Stderr.calls d ++ [Nack uid])))
        as (d' & -> & Honce' & Hcalls & Hfatal); try done;
      simpl in Hcalls, Hfatal;
      exists d'; (split; [done|]); (split; [done|]);
      (split; [by rewrite Hcalls, <- app_assoc|]);
      rewrite Hfatal, Exists_cons; simpl; intuition.
  - destruct (IH (Stderr.mkStderr (Stderr.fatal d) (Stderr.once d)
                    (Stderr.calls d ++ [Permerr uid])) Honce)
      as (d' & -> & Honce' & Hcalls & Hfatal).
    simpl in Hcalls, Hfatal.
    exists d'. split; [done|]. split; [done|].
    split; [by rewrite Hcalls, <- app_assoc|].
    rewrite Hfatal, Exists_cons. simpl. intuition congruence.
  - destruct (IH (Stderr.mkStderr (Stderr.fatal d) (Stderr.once d)
                    (Stderr.calls d ++ [Permerr uid])) Honce)
      as (d' & -> & Honce' & Hcalls & Hfatal).
    simpl in Hcalls, Hfatal.
    exists d'. split; [done|]. split; [done|].
    split; [by rewrite Hcalls, <- app_assoc|].
    rewrite Hfatal, Exists_cons. simpl. intuition congruence.
Qed.

(** X21. Whatever messages a new destination to stderr is
    sent, and whatever the encoder and the writes answer: [Send] never
    closes the channel [fatal] twice; by the time it returns, each message
    has had its one callback, so that the callbacks are those of the
    messages in their order (a permanent error when the encoding fails,
    a nack when the write fails, an ack otherwise); and [fatal] is closed
    if and only if a write has failed. *)
Theorem stderr_dest_reports_each_message_at_once
    (msgs : list (MyULID * bool * bool)) :
  ∃ d, Stderr.send_all Stderr.NewStderrDestination msgs = Some d
       ∧ Stderr.calls d = map Stderr.callback_of msgs
       ∧ map callback_uid (Stderr.calls d) = map (λ m, m.1.1) msgs
       ∧ (Stderr.fatal d = true
          ↔ Exists (λ m, m.1.2 = true ∧ m.2 = false) msgs).
Proof.
  destruct (stderr_send_all Stderr.NewStderrDestination msgs)
    as (d & Hd & _ & Hcalls & Hfatal); [done|].
  exists d. split; [done|]. split; [done|]. split.
  - rewrite Hcalls. simpl. rewrite map_map. apply map_ext.
    intros [[uid encode_ok] write_ok]. simpl.
    by destruct encode_ok, write_ok.
  - rewrite Hfatal. simpl. intuition congruence.
Qed.

End StderrProperties.

(** ** The configuration service answers [Start] once *)

Section ConfServiceProperties.
Import ConfService.

Context {BaseConfig error_value : Type}
        (Unmarshal : string → option BaseConfig)
        (Errorf : string → error_value).

Local Abbreviation reader := (ConfService.reader BaseConfig error_value).
Local Abbreviation on_line := (ConfService.on_line Unmarshal Errorf).
Local Abbreviation deferred := (ConfService.deferred Errorf).
Local Abbreviation scan := (ConfService.scan Unmarshal Errorf).
Local Abbreviation goes_on := (ConfService.goes_on Unmarshal).
Local Abbreviation conf_of := (ConfService.conf_of Unmarshal).

Lemma report_error_reading (r : reader) msg :
  reading r →
  ∃ r', report_error Errorf msg r = Some r'
        ∧ reading r' ∧ once r' = true
        ∧ kill r' = kill r ∧ output_sent r' = output_sent r
        ∧ started_sent r'
          = (if once r then started_sent r else [Errorf msg]).
Proof.
  intros Hr. pose proof Hr as (Hout & Hclosed & Hnone & Hlen).
  unfold report_error, once_Do. destruct (once r) eqn:Ho.
  { by exists r. }
  unfold send_started, close_started. simpl. rewrite Hclosed. simpl.
  eexists. split; [done|]. unfold reading. simpl.
  rewrite (Hnone eq_refl). simpl. repeat split; try done; lia.
Qed.

Lemma deferred_reading (r : reader) :
  reading r →
  ∃ r', deferred r = Some r'
        ∧ once r' = true ∧ started_closed r' = true
        ∧ output_closed r' = true
        ∧ kill r' = kill r ∧ output_sent r' = output_sent r
        ∧ started_sent r'
          = (if once r
             then started_sent r
             else [Errorf "Unexpected end of configuration service"]).
Proof.
  intros Hr. unfold ConfService.deferred.
  destruct (report_error_reading r
              "Unexpected end of configuration service" Hr)
    as (r' & -> & (Hout & Hclosed & _) & Honce & Hkill & Houtput & Hsent).
  unfold close_output. rewrite Hout. eexists. split; [done|]. simpl.
  rewrite Hclosed, Honce. done.
Qed.

(** A line after which the goroutine reads on. *)
Lemma on_line_goes_on (r : reader) l :
  reading r → goes_on l = true →
  ∃ r', on_line r l = Some (r', false)
        ∧ reading r'
        ∧ kill r' = kill r
        ∧ output_sent r' = output_sent r ++ option_list (conf_of l)
        ∧ once r' = once r || says_started l
        ∧ started_sent r' = started_sent r.
Proof.
  intros Hr. pose proof Hr as (Hout & Hclosed & Hnone & Hlen).
  unfold ConfService.goes_on, ConfService.on_line, ConfService.conf_of,
    says_started.
  destruct (String.eqb (command l) "newconf") eqn:Hnew.
  { assert (String.eqb (command l) "started" = false) as ->.
    { apply String.eqb_eq in Hnew. rewrite Hnew. done. }
    intros [newconf Hconf]%bool_decide_eq_true.
    destruct (rest l) as [payload|]; [|done]. simpl in Hconf.
    rewrite Hconf. unfold send_output. rewrite Hout.
    eexists. split; [done|]. unfold reading. simpl.
    rewrite orb_false_r, Hconf. done. }
  destruct (String.eqb (command l) "started") eqn:Hstarted; simpl.
  { intros _. unfold once_Do, close_started.
    destruct (once r) eqn:Ho.
    - exists r. by rewrite app_nil_r.
    - simpl. rewrite Hclosed. eexists. split; [done|].
      unfold reading. simpl. rewrite app_nil_r, (Hnone eq_refl).
      repeat split; try done; simpl; lia. }
  intros Hreloaded.
  assert (String.eqb (command l) "starterror" = false) as ->.
  { apply String.eqb_eq in Hreloaded. rewrite Hreloaded. done. }
  rewrite Hreloaded. exists r. rewrite app_nil_r, orb_false_r. done.
Qed.

(** A line after which the goroutine returns. *)
Lemma on_line_returns (r : reader) l :
  reading r → goes_on l = false →
  ∃ r', on_line r l = Some (r', true)
        ∧ reading r'
        ∧ output_sent r' = output_sent r
        ∧ (once r = true → once r' = true ∧ started_sent r' = started_sent r)
        ∧ (once r = false →
           (once r' = false ∧ started_sent r' = [])
           ∨ ∃ e, once r' = true ∧ started_sent r' = [e])
        ∧ (kill r' = false →
           ∃ msg, l = mkLine "starterror" (Some msg)
                  ∧ (once r = false → started_sent r' = [Errorf msg])).
Proof.
  intros Hr. pose proof Hr as (Hout & Hclosed & Hnone & Hlen).
  unfold ConfService.goes_on, ConfService.on_line.
  destruct (String.eqb (command l) "newconf") eqn:Hnew.
  { intros Hbad%bool_decide_eq_false.
    assert (∃ r', match rest l with
                  | Some payload =>
                      match Unmarshal payload with
                      | Some newconf =>
                          match send_output newconf r with
                          | Some r' => Some (r', false)
                          | None => None
                          end
                      | None => Some (set_kill r, true)
                      end
                  | None => Some (set_kill r, true)
                  end = Some (r', true) ∧ r' = set_kill r) as (r' & -> & ->).
    { destruct (rest l) as [payload|]; [|by eexists].
      simpl in Hbad. destruct (Unmarshal payload) as [newconf|];
        [|by eexists]. exfalso. apply Hbad. by eexists. }
    eexists. split; [done|]. split; [done|]. split; [done|].
    split; [done|]. split; [|done]. intros Ho. left. simpl.
    split; [done|]. by apply Hnone. }
  destruct (String.eqb (command l) "started") eqn:Hstarted; [done|].
  destruct (String.eqb (command l) "reloaded") eqn:Hreloaded; [done|].
  intros _.
  destruct (String.eqb (command l) "starterror") eqn:Herror.
  - destruct (rest l) as [msg|] eqn:Hrest.
    + destruct (report_error_reading r msg Hr)
        as (r' & -> & Hr' & Honce & Hkill & Houtput & Hsent).
      exists r'. split; [done|]. split; [done|]. split; [done|].
      split. { intros Ho. by rewrite Ho in Hsent. }
      split. { intros Ho. rewrite Ho in Hsent. right. by eexists. }
      intros _. exists msg. split.
      * destruct l as [c rest']. simpl in *.
        apply String.eqb_eq in Herror. by subst.
      * intros Ho. by rewrite Ho in Hsent.
    + assert (reading (set_kill r)) as Hk by done.
      destruct (report_error_reading (set_kill r)
                  "Received empty starterror from child" Hk)
        as (r' & -> & Hr' & Honce & Hkill & Houtput & Hsent).
      exists r'. split; [done|]. split; [done|]. split; [done|].
      simpl in *. split. { intros Ho. by rewrite Ho in Hsent. }
      split. { intros Ho. rewrite Ho in Hsent. right. by eexists. }
      intros Hnokill. congruence.
  - assert (reading (set_kill r)) as Hk by done.
    destruct (report_error_reading (set_kill r)
                ("Unknown command received from configuration child"
                 ++ ": " ++ command l) Hk)
      as (r' & -> & Hr' & Honce & Hkill & Houtput & Hsent).
    exists r'. split; [done|]. split; [done|]. split; [done|].
    simpl in *. split. { intros Ho. by rewrite Ho in Hsent. }
    split. { intros Ho. rewrite Ho in Hsent. right. by eexists. }
    intros Hnokill. congruence.
Qed.

Lemma scan_goes_on (r : reader) pre rest :
  reading r → Forall (λ l, goes_on l = true) pre →
  ∃ r', scan r (pre ++ rest) = scan r' rest
        ∧ reading r'
        ∧ kill r' = kill r
        ∧ output_sent r' = output_sent r ++ omap conf_of pre
        ∧ once r' = once r || existsb says_started pre
        ∧ started_sent r' = started_sent r.
Proof.
  revert r. induction pre as [|l pre IH]; intros r Hr Hall.
  { exists r. simpl. by rewrite app_nil_r, orb_false_r. }
  apply Forall_cons in Hall as [Hl Hall].
  destruct (on_line_goes_on r l Hr Hl)
    as (r1 & Hline & Hr1 & Hkill1 & Hout1 & Honce1 & Hsent1).
  destruct (IH r1 Hr1 Hall) as (r' & Hscan & Hr' & Hkill & Hout & Honce & Hsent).
  exists r'. cbn [app ConfService.scan]. rewrite Hline.
  split; [done|]. split; [done|]. split; [congruence|].
  split.
  { rewrite Hout, Hout1, <- app_assoc. f_equal. simpl.
    by destruct (conf_of l). }
  split; [|congruence].
  rewrite Honce, Honce1. simpl. by rewrite orb_assoc.
Qed.

(** X22. The goroutine that reads the configuration child
    is given lines after which it reads on (a [newconf] with a
    configuration that can be decoded, [started], [reloaded]) and then
    comes to the end of the stream or to another line.  Then it never
    sends on a closed channel nor closes one twice; when it ends both
    channels are closed; the configurations of the lines have been sent on
    [c.output] in their order, and nothing else; and [Start], which waits
    on [startedChan], has received one answer: [nil] if and only if one of
    the lines was [started], and an error otherwise.  The child is not
    killed when its stream ends, nor on a [starterror] with a message,
    whose message is then the error. *)
Theorem conf_reader_answers_start_once
    (pre rest : list child_line) :
  Forall (λ l, goes_on l = true) pre →
  match rest with [] => True | l :: _ => goes_on l = false end →
  ∃ r, scan new_reader (pre ++ rest) = Some r
       ∧ started_closed r = true
       ∧ output_closed r = true
       ∧ output_sent r = omap conf_of pre
       ∧ (started_answer r = Some None ↔ existsb says_started pre = true)
       ∧ (existsb says_started pre = false →
          ∃ e, started_answer r = Some (Some e) ∧ started_sent r = [e])
       ∧ (rest = [] → kill r = false)
       ∧ (∀ msg more,
            rest = mkLine "starterror" (Some msg) :: more →
            kill r = false
            ∧ (existsb says_started pre = false →
               started_answer r = Some (Some (Errorf msg)))).
Proof.
  intros Hpre Hrest.
  assert (reading (new_reader : reader)) as Hnew.
  { unfold reading. simpl. repeat split; try done; lia. }
  destruct (scan_goes_on new_reader pre rest Hnew Hpre)
    as (r1 & -> & Hr1 & Hkill1 & Hout1 & Honce1 & Hsent1).
  simpl in Hkill1, Hout1, Honce1, Hsent1.
  assert (∃ r2, (rest = [] ∧ r2 = r1
                 ∨ ∃ l more, rest = l :: more
                             ∧ on_line r1 l = Some (r2, true))
                ∧ scan r1 rest = deferred r2
                ∧ reading r2
                ∧ output_sent r2 = output_sent r1
                ∧ (once r1 = true →
                   once r2 = true ∧ started_sent r2 = started_sent r1)
                ∧ (once r1 = false →
                   (once r2 = false ∧ started_sent r2 = [])
                   ∨ ∃ e, once r2 = true ∧ started_sent r2 = [e])
                ∧ (rest = [] → kill r2 = kill r1)
                ∧ (∀ msg more,
                     rest = mkLine "starterror" (Some msg) :: more →
                     kill r2 = kill r1
                     ∧ (once r1 = false → started_sent r2 = [Errorf msg])))
    as (r2 & _ & -> & Hr2 & Hout2 & Hsame & Hfirst & Hend & Herror).
  { destruct rest as [|l more].
    - exists r1. split; [by left|]. split; [done|]. split; [done|].
      split; [done|]. split; [done|]. split.
      { intros Ho. left. split; [done|]. by apply Hr1. }
      split; [done|]. by intros msg more [=].
    - destruct (on_line_returns r1 l Hr1 Hrest)
        as (r2 & Hline & Hr2 & Hout2 & Hsame & Hfirst & Hkill2).
      exists r2. split; [right; by exists l, more|].
      cbn [ConfService.scan]. rewrite Hline.
      split; [done|]. split; [done|]. split; [done|]. split; [done|].
      split; [done|]. split; [done|].
      intros msg more' [= -> ->].
      assert (on_line r1 (mkLine "starterror" (Some msg))
              = Some (r2, true)) as Hline' by done.
      unfold ConfService.on_line in Hline'. simpl in Hline'.
      destruct (report_error_reading r1 msg Hr1)
        as (r' & Hreport & _ & _ & Hkill' & _ & Hsent').
      rewrite Hreport in Hline'. injection Hline' as <-.
      split; [done|]. intros Ho. by rewrite Ho in Hsent'. }
  destruct (deferred_reading r2 Hr2)
    as (r & -> & Honce & Hclosed & Houtc & Hkill & Hout & Hsent).
  exists r. split; [done|]. split; [done|]. split; [done|].
  split; [congruence|].
  unfold started_answer. rewrite Hclosed.
  destruct (existsb says_started pre) eqn:Hstarted.
  - destruct (Hsame Honce1) as [Ho2 Hs2].
    rewrite Ho2 in Hsent. rewrite Hsent, Hs2, Hsent1.
    split; [done|]. split; [done|]. split.
    { intros Hnil. rewrite Hkill, (Hend Hnil). done. }
    intros msg more Hmsg. destruct (Herror msg more Hmsg) as [Hk _].
    split; [congruence|done].
  - destruct (Hfirst Honce1) as [[Ho2 Hs2]|(e & Ho2 & Hs2)];
      rewrite Ho2 in Hsent; rewrite Hsent; try rewrite Hs2.
    + split; [done|]. split; [by eexists|]. split.
      { intros Hnil. rewrite Hkill, (Hend Hnil). done. }
      intros msg more Hmsg. destruct (Herror msg more Hmsg) as [Hk Hs].
      specialize (Hs Honce1). congruence.
    + split; [done|]. split; [by eexists|]. split.
      { intros Hnil. rewrite Hkill, (Hend Hnil). done. }
      intros msg more Hmsg. destruct (Herror msg more Hmsg) as [Hk Hs].
      split; [congruence|]. intros _. specialize (Hs Honce1). congruence.
Qed.

End ConfServiceProperties.

(** The child sends a configuration, says that it has started, sends a
    second configuration and then reports a start error: [Start] has
    received [nil], both configurations were passed on, and the child is
    not killed. *)
Lemma conf_reader_answers_start_once_witness :
  let Unmarshal := fun payload : string =>
    if String.eqb payload "bad" then None else Some payload in
  let Errorf := fun msg : string => msg in
  let pre := [ConfService.mkLine "newconf" (Some "a"%string);
              ConfService.mkLine "started" None;
              ConfService.mkLine "newconf" (Some "b"%string)] in
  let rest := [ConfService.mkLine "starterror" (Some "boom"%string)] in
  ∃ r, ConfService.scan Unmarshal Errorf ConfService.new_reader (pre ++ rest)
       = Some r
       ∧ ConfService.output_sent r = ["a"%string; "b"%string]
       ∧ ConfService.started_answer r = Some None
       ∧ ConfService.kill r = false.
Proof.
  intros Unmarshal Errorf pre rest.
  destruct (conf_reader_answers_start_once Unmarshal Errorf pre rest)
    as (r & Hr & _ & _ & Hout & Hanswer & _ & _ & Herror).
  - repeat constructor.
  - reflexivity.
  - exists r. split; [exact Hr|]. split; [exact Hout|]. split.
    + apply Hanswer. reflexivity.
    + apply (Herror "boom"%string []). reflexivity.
Defined.
